(** * Hybrid Option Pricing Engine: the lattice engine in exact arithmetic

    A shallow embedding of [utils/tfEngine] (time grid, ESO engine, TF engine
    for RCPS / CB / CPS, and the engine's entry point), of the curve
    pipeline ([utils/marketData], [utils/bootstrapper]) and of the deal
    aggregator in [App], with the curve state it reads.

    Numbers.  A TypeScript [number] is modelled as a real number: every
    arithmetic operation is the exact one, [Math.exp] is [exp], [Math.sqrt]
    is [sqrt], [Math.pow (x, k)] with a lattice index [k] is [x ^ k],
    [Math.max] and [Math.min] are [Rmax] and [Rmin].  Rounding, [NaN] and
    the infinities are outside the model (a division by zero yields [0]
    here, as [/ 0 = 0]).

    Dates.  A [Date] built from a [YYYY-MM-DD] string is a number of
    milliseconds that is a multiple of one day; it is modelled as the integer
    day count.  [addDays d 7] is [d + 7], a comparison of two dates is the
    comparison of their day counts, and the text form of a date ([dateStr])
    is the date itself.  An optional date that is absent (or the empty
    string, which the code treats alike) is [None].

    Arrays.  The lattices [S], [D], [E], [Flags] and [CP_Log] are triangular
    arrays written once per node; they are modelled as the list of their
    rows, built by the same double loop ([build_lattice]).  The loops over a
    mutable [current_cp] / [eventIdx] and over [df_accum] / [host_val_unit]
    pass their state explicitly.

    Contents.  The first part holds the definitions, in the order of the
    source; the second part the properties: the lattice builder and the
    time grid, the host / derivative split and the unit components of a
    result, the deal aggregator, the issuer call and the option windows, the
    refixing schedule and its floor, the sampled node logs, securities
    valued at or after maturity, and the signs of the node values; then,
    further on, the shape of the grid and the rate arrays, the curves and
    their forward rates, the securities the application prices, the two
    sides of a position, the decision cascade, the host contract, the
    refixing schedule in closed form, and employee options. *)

From Stdlib Require Import Reals Lra Lia ZArith List Bool.
From Stdlib Require String.
Import ListNotations.

Open Scope R_scope.

(** ** Comparisons of numbers as booleans *)

Definition Rltb (x y : R) : bool := if Rlt_dec x y then true else false.
Definition Rleb (x y : R) : bool := if Rle_dec x y then true else false.
Definition Rgtb (x y : R) : bool := Rltb y x.
Definition Rgeb (x y : R) : bool := Rleb y x.
Definition Reqb (x y : R) : bool := if Req_dec_T x y then true else false.

(** JavaScript truthiness of a number that is present: non-zero. *)
Definition truthy (x : R) : bool := negb (Reqb x 0).

(** [x || fallback] for an optional number. *)
Definition or_default (x : option R) (fallback : R) : R :=
  match x with
  | Some v => if truthy v then v else fallback
  | None => fallback
  end.

(** A destructuring default [field = dflt]: used when the field is absent. *)
Definition with_default {A : Type} (x : option A) (dflt : A) : A :=
  match x with
  | Some v => v
  | None => dflt
  end.

(** ** Data model (types.ts) *)

Inductive SecurityType := RCPS | CB | CPS | ESO.
Inductive PositionType := HOLDER | ISSUER.
Inductive AntiDilutionType := NONE | FULL_RATCHET | WA_DOWN_ONLY.
Inductive ParticipationType := NON_PARTICIPATING | PARTICIPATING.

Definition SecurityType_eqb (a b : SecurityType) : bool :=
  match a, b with
  | RCPS, RCPS | CB, CB | CPS, CPS | ESO, ESO => true
  | _, _ => false
  end.

Definition PositionType_eqb (a b : PositionType) : bool :=
  match a, b with
  | HOLDER, HOLDER | ISSUER, ISSUER => true
  | _, _ => false
  end.

Definition AntiDilutionType_eqb (a b : AntiDilutionType) : bool :=
  match a, b with
  | NONE, NONE | FULL_RATCHET, FULL_RATCHET | WA_DOWN_ONLY, WA_DOWN_ONLY => true
  | _, _ => false
  end.

Definition ParticipationType_eqb (a b : ParticipationType) : bool :=
  match a, b with
  | NON_PARTICIPATING, NON_PARTICIPATING | PARTICIPATING, PARTICIPATING => true
  | _, _ => false
  end.

Record ResetEvent := mkResetEvent {
  event_date : Z;
  issue_price_new : R;
  issue_shares_new : R;
  shares_outstanding_before_reset : option R
}.

(** The fields of [SecuritySchema] that the engine reads.  A field that
    types.ts marks optional ([?]) or nullable is an [option]. *)
Record SecuritySchema := mkSecurity {
  security_type : SecurityType;
  position : PositionType;
  total_issue_price : R;
  num_issued_shares : R;
  share_price_current : R;
  valuation_date : Z;
  maturity_date : Z;
  coupon_rate : R;
  dividend_rate : R;
  repayment_premium_rate : option R;
  conversion_price : R;
  conversion_ratio : option R;
  anti_dilution_type : AntiDilutionType;
  refixing_floor_price : option R;
  reset_events : option (list ResetEvent);
  participation_type : option ParticipationType;
  participation_cap_multiple : option R;
  volatility : R;
  risk_free_rate : R;
  credit_spread : R;
  stepwise_risk_free_rates : option (list R);
  stepwise_credit_spreads : option (list R);
  has_call_option : bool;
  call_price : option R;
  call_start_date : option Z;
  call_end_date : option Z;
  has_put_option : bool;
  put_price : option R;
  put_start_date : option Z;
  put_end_date : option Z;
  num_options : option R;
  strike_price : option R;
  vesting_end_date : option Z;
  employee_exit_rate : option R;
  early_exercise_multiple : option R
}.

(** The event flags written on lattice nodes; [NO_FLAG] is the empty string
    the flag arrays are filled with. *)
Inductive Flag :=
  | NO_FLAG
  | HOLD | CONVERT | CALLED | CALLED_FORCE_CONV | PUT
  | MAT_PARTICIPATE | MAT_CONVERT | MAT_REDEEM
  | MATURITY_EXERCISE | MATURITY_LAPSE | EXERCISE_SUBOPT | UNVESTED.

Inductive CurveSource := Bootstrapped_Curve | Flat_Rate.

(** [node_id] is the text [t<t>_i<i>]; it is kept as the pair it encodes. *)
Record NodeLogRow := mkNodeLogRow {
  log_t : nat;
  log_i : nat;
  log_date : Z;
  node_id : nat * nat;
  S_ti : R;
  D_ti : R;
  E_ti : R;
  V_ti : R;
  event_flag : Flag;
  q_up : R;
  log_rf_t : R;
  log_cs_t : R;
  conversion_price_eff : option R
}.

Record Meta := mkMeta {
  meta_dt : R;
  meta_u : R;
  meta_d : R;
  meta_N : nat;
  meta_valuation_date : Z;
  meta_maturity_date : Z;
  used_curve_source : option CurveSource;
  eff_cp_final : option R
}.

Record PricingResult := mkPricingResult {
  fair_value_total : R;
  fair_value_per_share : option R;
  fair_value_host : R;
  fair_value_deriv : R;
  fair_value_deriv_asset : R;
  fair_value_deriv_liab : R;
  eso_val_per_option : option R;
  tf_debt_component : R;
  tf_equity_component : R;
  node_logs : list NodeLogRow;
  meta : Meta
}.

(** ** Date helpers and the time grid *)

Definition addDays (d : Z) (days : Z) : Z := (d + days)%Z.

Definition getDateDiffYears (d1 d2 : Z) : R := IZR (d2 - d1) / 365.

Record TimeStep := mkTimeStep {
  step : nat;
  date : Z;
  t_years : R
}.

(** The weekly [while (currentDate < matDate)] loop followed by the push of
    the maturity node.  [fuel] bounds the number of iterations; the loop adds
    seven days per iteration, so [matDate - valDate] iterations are more than
    it can take (see [weekly_grid_fuel]). *)
Fixpoint weekly_grid (fuel : nat) (valDate matDate currentDate : Z) (k : nat)
  : list TimeStep :=
  match fuel with
  | O => [mkTimeStep k matDate (getDateDiffYears valDate matDate)]
  | S fuel' =>
      if (currentDate <? matDate)%Z
      then mkTimeStep k currentDate (getDateDiffYears valDate currentDate)
             :: weekly_grid fuel' valDate matDate (addDays currentDate 7) (S k)
      else [mkTimeStep k matDate (getDateDiffYears valDate matDate)]
  end.

Definition generateTimeGrid (valDate matDate : Z) : list TimeStep :=
  if (matDate <=? valDate)%Z
  then [mkTimeStep 0 valDate 0; mkTimeStep 1 valDate (27 / 10000)]
  else weekly_grid (Z.to_nat (matDate - valDate)) valDate matDate valDate 0.

(** [time_grid[t]]; the engine only indexes the grid at [t <= N] with
    [N = length - 1]. *)
Definition grid_at (time_grid : list TimeStep) (t : nat) : TimeStep :=
  nth t time_grid (mkTimeStep 0 0 0).

(** ** The share-price tree *)

Definition S_node (S0 u d : R) (t i : nat) : R := S0 * u ^ i * d ^ (t - i).

(** ** Triangular lattices filled by backward induction

    Both engines allocate one row per step [t] (of length [t + 1]), fill the
    terminal row in a loop over [i], and then run
    [for (t = N - 1; t >= 0; t--) for (i = 0; i <= t; i++)], where the node
    [(t, i)] is computed from its children [(t + 1, i + 1)] and
    [(t + 1, i)].  [build_lattice] is that double loop for a node type [A]:
    the result is the list of rows, row [t] at index [t]. *)

Section Lattice.
Context {A : Type}.
Variable dflt : A.
(** the terminal node [(N, i)] *)
Variable terminal : nat -> A.
(** the node [(t, i)] from the up child [(t+1, i+1)] and the down child
    [(t+1, i)] *)
Variable backward : nat -> nat -> A -> A -> A.

Definition terminal_row (N : nat) : list A := map terminal (seq 0 (S N)).

Definition backward_row (t : nat) (next : list A) : list A :=
  map (fun i => backward t i (nth (S i) next dflt) (nth i next dflt))
      (seq 0 (S t)).

(** [sweep_back t next acc]: the rows [t .. N] are in [acc], [next] is row
    [t]; computes the rows [t - 1 .. 0] and conses them in front. *)
Fixpoint sweep_back (t : nat) (next : list A) (acc : list (list A))
  : list (list A) :=
  match t with
  | O => acc
  | S t' =>
      let row := backward_row t' next in
      sweep_back t' row (row :: acc)
  end.

Definition build_lattice (N : nat) : list (list A) :=
  sweep_back N (terminal_row N) [terminal_row N].

(** [X[t][i]] *)
Definition at_node (rows : list (list A)) (t i : nat) : A :=
  nth i (nth t rows []) dflt.
End Lattice.

(** ** ESO engine *)

Record EsoNode := mkEsoNode {
  eso_E : R;
  eso_flag : Flag
}.

Section ESO_engine.
Variable security : SecuritySchema.
Variable time_grid : list TimeStep.
Variable rf_t : list R.
Variables dt u d : R.
Variable N : nat.

Let S0 := share_price_current security.
Let strike := with_default (strike_price security) 0.
Let exit_rate := with_default (employee_exit_rate security) 0.
Let multiple := with_default (early_exercise_multiple security) 1000.

Definition eso_terminal (i : nat) : EsoNode :=
  let payoff := Rmax (S_node S0 u d N i - strike) 0 in
  mkEsoNode payoff
    (if Rgtb payoff 0 then MATURITY_EXERCISE else MATURITY_LAPSE).

Definition eso_vestingEnd : Z :=
  with_default (vesting_end_date security) (maturity_date security).

Definition eso_survival_factor_step : R := exp (- exit_rate * dt).

(** the up-probability of step [t] *)
Definition eso_q (t : nat) : R :=
  let r_step := nth t rf_t 0 in
  let drift := exp (r_step * dt) in
  (drift - d) / (u - d).

Definition eso_backward (t i : nat) (up down : EsoNode) : EsoNode :=
  let r_step := nth t rf_t 0 in
  let q := eso_q t in
  let df := exp (- r_step * dt) in
  let stepDate := date (grid_at time_grid t) in
  let isVested := (eso_vestingEnd <=? stepDate)%Z in
  let S_ti := S_node S0 u d t i in
  let E_next := q * eso_E up + (1 - q) * eso_E down in
  let continuation := E_next * df in
  let '(val, flag) :=
    if isVested then
      let intrinsic := Rmax (S_ti - strike) 0 in
      let exercise_allowed := Rgeb S_ti (multiple * strike) in
      if exercise_allowed && Rgtb intrinsic continuation
      then (intrinsic, EXERCISE_SUBOPT)
      else (continuation, HOLD)
    else (continuation, UNVESTED) in
  mkEsoNode (val * eso_survival_factor_step) flag.

Definition eso_lattice : list (list EsoNode) :=
  build_lattice (mkEsoNode 0 NO_FLAG) eso_terminal eso_backward N.

Definition eso_E_at (t i : nat) : R :=
  eso_E (at_node (mkEsoNode 0 NO_FLAG) eso_lattice t i).

Definition curve_source : option CurveSource :=
  Some (match stepwise_risk_free_rates security with
        | Some _ => Bootstrapped_Curve
        | None => Flat_Rate
        end).

Definition calculateESO : PricingResult :=
  let V_per_option_long := eso_E_at 0 0 in
  let V_total_long := V_per_option_long * with_default (num_options security) 1 in
  let sign := match position security with ISSUER => -1 | HOLDER => 1 end in
  let V_total := V_total_long * sign in
  let V_per_opt := V_per_option_long * sign in
  {| fair_value_total := V_total;
     fair_value_per_share := Some V_per_opt;
     fair_value_host := 0;
     fair_value_deriv := V_total;
     fair_value_deriv_asset := if Rgtb V_total 0 then V_total else 0;
     fair_value_deriv_liab := if Rltb V_total 0 then - V_total else 0;
     eso_val_per_option := Some V_per_opt;
     tf_debt_component := 0;
     tf_equity_component := V_per_option_long;
     node_logs := [];
     meta := {| meta_dt := dt; meta_u := u; meta_d := d; meta_N := N;
                meta_valuation_date := valuation_date security;
                meta_maturity_date := maturity_date security;
                used_curve_source := curve_source;
                eff_cp_final := None |} |}.
End ESO_engine.

(** ** TF engine (RCPS, CB, CPS) *)

(** A node of the TF lattice: the entries [D[t][i]], [E[t][i]],
    [Flags[t][i]] and [CP_Log[t][i]]. *)
Record TfNode := mkTfNode {
  tf_D : R;
  tf_E : R;
  tf_flag : Flag;
  tf_cp_log : R
}.

(** The running variables of the decision cascade at one node. *)
Record Decision := mkDecision {
  V_hold : R;
  D_final : R;
  E_final : R;
  flag : Flag
}.

(** [[...reset_events].sort ((a, b) => date a - date b)]: a stable sort by
    event date. *)
Fixpoint insert_event (e : ResetEvent) (l : list ResetEvent) : list ResetEvent :=
  match l with
  | [] => [e]
  | x :: l' =>
      if (event_date e <=? event_date x)%Z then e :: x :: l'
      else x :: insert_event e l'
  end.

Definition sort_events (l : list ResetEvent) : list ResetEvent :=
  fold_right insert_event [] l.

(** 1. Check Conversion (Rational Holder) *)
Definition stage_convert (val_convert_opt : R) (st : Decision) : Decision :=
  if Rgtb val_convert_opt (V_hold st)
  then mkDecision val_convert_opt 0 val_convert_opt CONVERT
  else st.

(** 2. Call Option (Issuer) *)
Definition stage_call (can_call : bool) (call_price : option R)
    (val_convert_opt : R) (st : Decision) : Decision :=
  match can_call, call_price with
  | true, Some call_strike =>
      let holder_val := Rmax call_strike val_convert_opt in
      if Rltb holder_val (V_hold st) then
        if Rgtb val_convert_opt call_strike
        then mkDecision holder_val 0 val_convert_opt CALLED_FORCE_CONV
        else mkDecision holder_val call_strike 0 CALLED
      else st
  | _, _ => st
  end.

(** 3. Put Option (Holder) *)
Definition stage_put (can_put : bool) (put_price : option R) (st : Decision)
  : Decision :=
  match can_put, put_price with
  | true, Some put_strike =>
      if Rgtb put_strike (V_hold st)
      then mkDecision put_strike put_strike 0 PUT
      else st
  | _, _ => st
  end.

(** The window test shared by the call and the put: the option must be
    switched on, carry a price and a start date, and the step date must lie
    in [[start, end]], the end date defaulting to maturity. *)
Definition in_window (has_option : bool) (price : option R)
    (start_date end_date : option Z) (maturity stepDate : Z) : bool :=
  if has_option && (match price with Some _ => true | None => false end) then
    let end_ := with_default end_date maturity in
    match start_date with
    | Some start => (start <=? stepDate)%Z && (stepDate <=? end_)%Z
    | None => false
    end
  else false.

Section TF_engine.
Variable security : SecuritySchema.
Variable time_grid : list TimeStep.
Variables rf_t cs_t : list R.
Variables dt u d : R.
Variable N : nat.

Definition isCB : bool := SecurityType_eqb (security_type security) CB.
Definition isPerShare : bool := negb isCB.

(** 1. Define Calculation Unit *)
Definition unit_face_value : R :=
  if isPerShare
  then total_issue_price security / num_issued_shares security
  else total_issue_price security.

Definition unit_redemption_value : R :=
  unit_face_value * (1 + with_default (repayment_premium_rate security) 0).

Definition unit_periodic_cf : R :=
  if isPerShare
  then (unit_face_value * (coupon_rate security + dividend_rate security)) * dt
  else (unit_face_value * coupon_rate security) * dt.

(** 2. Build Refixing Schedule *)

(** "Apply Floor": [if (refixing_floor_price && current_cp < refixing_floor_price)] *)
Definition apply_floor (current_cp : R) : R :=
  match refixing_floor_price security with
  | Some fl => if truthy fl && Rltb current_cp fl then fl else current_cp
  | None => current_cp
  end.

(** the body of the [while] loop for one event *)
Definition apply_event (current_cp : R) (evt : ResetEvent) : R :=
  if Rltb (issue_price_new evt) current_cp then
    apply_floor
      match anti_dilution_type security with
      | FULL_RATCHET => issue_price_new evt
      | WA_DOWN_ONLY =>
          let SO := or_default (shares_outstanding_before_reset evt) 1000000 in
          let SP_new := issue_price_new evt in
          let SN_new := issue_shares_new evt in
          let CP_old := current_cp in
          let num := SO + (SP_new / CP_old) * SN_new in
          let den := SO + SN_new in
          CP_old * (num / den)
      | NONE => current_cp
      end
  else current_cp.

(** the [while] loop at one step: consumes the events dated at or before
    [stepDate]; the events not yet consumed stand for [eventIdx] *)
Fixpoint consume_events (stepDate : Z) (current_cp : R)
    (pending : list ResetEvent) : R * list ResetEvent :=
  match pending with
  | [] => (current_cp, [])
  | evt :: rest =>
      if (event_date evt <=? stepDate)%Z
      then consume_events stepDate (apply_event current_cp evt) rest
      else (current_cp, pending)
  end.

(** the [for (t = 0; t <= N; t++)] loop, over the steps [ts] *)
Fixpoint refix_sweep (ts : list nat) (current_cp : R)
    (pending : list ResetEvent) : list R :=
  match ts with
  | [] => []
  | t :: ts' =>
      let '(cp', pending') :=
        consume_events (date (grid_at time_grid t)) current_cp pending in
      cp' :: refix_sweep ts' cp' pending'
  end.

Definition cp_at_step : list R :=
  let initial_cp := conversion_price security in
  let events := with_default (reset_events security) [] in
  if negb (AntiDilutionType_eqb (anti_dilution_type security) NONE)
     && (0 <? length events)%nat
  then refix_sweep (seq 0 (S N)) initial_cp (sort_events events)
  else repeat initial_cp (S N).

(** [cp_at_step[t]] *)
Definition cp_eff (t : nat) : R := nth t cp_at_step 0.

Definition getEffectiveConversionRatio (t : nat) : R :=
  match conversion_ratio security with
  | Some override_ratio =>
      if truthy override_ratio && Rgtb override_ratio 0
         && AntiDilutionType_eqb (anti_dilution_type security) NONE
      then override_ratio
      else unit_face_value / cp_eff t
  | None => unit_face_value / cp_eff t
  end.

Definition is_participating : bool :=
  ParticipationType_eqb
    (with_default (participation_type security) NON_PARTICIPATING)
    PARTICIPATING.

(** 4. Terminal Condition *)
Definition tf_terminal (i : nat) : TfNode :=
  let S_T := S_node (share_price_current security) u d N i in
  let ratio := getEffectiveConversionRatio N in
  let val_convert_base := S_T * ratio in
  let redeem_val := unit_redemption_value + unit_periodic_cf in
  let payoff_hold := redeem_val in
  let payoff_conv :=
    if SecurityType_eqb (security_type security) RCPS && is_participating then
      let double_dip := redeem_val + val_convert_base in
      let double_dip :=
        match participation_cap_multiple security with
        | Some cap =>
            if truthy cap then Rmin double_dip (unit_face_value * cap)
            else double_dip
        | None => double_dip
        end in
      Rmax double_dip val_convert_base
    else val_convert_base in
  if Rgtb payoff_conv payoff_hold
  then mkTfNode 0 payoff_conv
         (if is_participating then MAT_PARTICIPATE else MAT_CONVERT)
         (unit_face_value / ratio)
  else mkTfNode payoff_hold 0 MAT_REDEEM (unit_face_value / ratio).

(** 5. Backward Induction *)
Definition tf_q (t : nat) : R :=
  (exp (nth t rf_t 0 * dt) - d) / (u - d).
Definition tf_df_rf (t : nat) : R := exp (- nth t rf_t 0 * dt).
Definition tf_df_risky (t : nat) : R :=
  exp (- (nth t rf_t 0 + nth t cs_t 0) * dt).

Definition can_call (t : nat) : bool :=
  in_window (has_call_option security) (call_price security)
    (call_start_date security) (call_end_date security)
    (maturity_date security) (date (grid_at time_grid t)).

Definition can_put (t : nat) : bool :=
  in_window (has_put_option security) (put_price security)
    (put_start_date security) (put_end_date security)
    (maturity_date security) (date (grid_at time_grid t)).

(** the continuation values of a node, before any decision *)
Definition tf_rollback (t : nat) (up down : TfNode) : Decision :=
  let q := tf_q t in
  let E_D := q * tf_D up + (1 - q) * tf_D down in
  let E_E := q * tf_E up + (1 - q) * tf_E down in
  let D_cont := E_D * tf_df_risky t + unit_periodic_cf in
  let E_cont := E_E * tf_df_rf t in
  mkDecision (D_cont + E_cont) D_cont E_cont HOLD.

(** the conversion value at [(t, i)]; early conversion of a participating
    RCPS takes the base conversion value as well *)
Definition val_convert_opt (t i : nat) : R :=
  S_node (share_price_current security) u d t i * getEffectiveConversionRatio t.

Definition tf_decide (t i : nat) (up down : TfNode) : Decision :=
  stage_put (can_put t) (put_price security)
    (stage_call (can_call t) (call_price security) (val_convert_opt t i)
       (stage_convert (val_convert_opt t i) (tf_rollback t up down))).

Definition tf_backward (t i : nat) (up down : TfNode) : TfNode :=
  let st := tf_decide t i up down in
  mkTfNode (D_final st) (E_final st) (flag st)
    (unit_face_value / getEffectiveConversionRatio t).

Definition tf_dflt : TfNode := mkTfNode 0 0 NO_FLAG (conversion_price security).

Definition tf_lattice : list (list TfNode) :=
  build_lattice tf_dflt tf_terminal tf_backward N.

Definition D_at (t i : nat) : R := tf_D (at_node tf_dflt tf_lattice t i).
Definition E_at (t i : nat) : R := tf_E (at_node tf_dflt tf_lattice t i).
Definition Flags_at (t i : nat) : Flag := tf_flag (at_node tf_dflt tf_lattice t i).

(** 6. Host Contract (Pure DCF): the loop over [t_step], on the pair
    [(df_accum, host_val_unit)] *)
Fixpoint host_loop (ts : list nat) (acc : R * R) : R * R :=
  match ts with
  | [] => acc
  | t_step :: ts' =>
      let '(df_accum, host_val_unit) := acc in
      let df_accum := df_accum * tf_df_risky t_step in
      host_loop ts' (df_accum, host_val_unit + unit_periodic_cf * df_accum)
  end.

Definition host_val_unit : R :=
  let '(df_accum, host) := host_loop (seq 0 N) (1, 0) in
  host + unit_redemption_value * df_accum.

(** 7. Aggregation *)
Definition hybrid_val_unit : R := D_at 0 0 + E_at 0 0.
Definition deriv_val_unit : R := hybrid_val_unit - host_val_unit.

Definition total_hybrid_long : R :=
  if isPerShare then hybrid_val_unit * num_issued_shares security
  else hybrid_val_unit.
Definition total_host_long : R :=
  if isPerShare then host_val_unit * num_issued_shares security
  else host_val_unit.
Definition total_deriv_long : R :=
  if isPerShare then deriv_val_unit * num_issued_shares security
  else deriv_val_unit.

Definition position_sign : R :=
  match position security with ISSUER => -1 | HOLDER => 1 end.

(** 8. Logs *)
Definition log_row (t i : nat) : NodeLogRow :=
  {| log_t := t; log_i := i;
     log_date := date (grid_at time_grid t);
     node_id := (t, i);
     S_ti := S_node (share_price_current security) u d t i;
     D_ti := D_at t i;
     E_ti := E_at t i;
     V_ti := D_at t i + E_at t i;
     event_flag := Flags_at t i;
     q_up := 0;
     log_rf_t := if (t <? N)%nat then nth t rf_t 0 else 0;
     log_cs_t := 0;
     conversion_price_eff := Some (cp_eff t) |}.

Definition tf_node_logs : list NodeLogRow :=
  flat_map (fun t => map (log_row t) (seq 0 (S t))) (seq 0 (S (Nat.min N 5))).

Definition calculateTF : PricingResult :=
  {| fair_value_total := total_hybrid_long * position_sign;
     fair_value_per_share :=
       if isPerShare then Some (hybrid_val_unit * position_sign) else None;
     fair_value_host := total_host_long * position_sign;
     fair_value_deriv := total_deriv_long * position_sign;
     fair_value_deriv_asset := Rmax (total_deriv_long * position_sign) 0;
     fair_value_deriv_liab := Rmax (- (total_deriv_long * position_sign)) 0;
     eso_val_per_option := None;
     tf_debt_component := D_at 0 0;
     tf_equity_component := E_at 0 0;
     node_logs := tf_node_logs;
     meta := {| meta_dt := dt; meta_u := u; meta_d := d; meta_N := N;
                meta_valuation_date := valuation_date security;
                meta_maturity_date := maturity_date security;
                used_curve_source := curve_source security;
                eff_cp_final := Some (cp_eff N) |} |}.
End TF_engine.

(** ** The engine's entry point *)

(** [arr && arr.length >= N ? arr.slice (0, N) : new Array (N).fill (flat)] *)
Definition stepwise_or_flat (arr : option (list R)) (flat : R) (N : nat) : list R :=
  match arr with
  | Some l => if (N <=? length l)%nat then firstn N l else repeat flat N
  | None => repeat flat N
  end.

Definition zero_result (security : SecuritySchema) : PricingResult :=
  {| fair_value_total := 0;
     fair_value_per_share := None;
     fair_value_host := 0;
     fair_value_deriv := 0;
     fair_value_deriv_asset := 0;
     fair_value_deriv_liab := 0;
     eso_val_per_option := None;
     tf_debt_component := 0;
     tf_equity_component := 0;
     node_logs := [];
     meta := {| meta_dt := 0; meta_u := 0; meta_d := 0; meta_N := 0;
                meta_valuation_date := valuation_date security;
                meta_maturity_date := maturity_date security;
                used_curve_source := None;
                eff_cp_final := None |} |}.

(** The quantities [runPricingEngine] derives from the security before it
    dispatches. *)
Definition engine_grid (security : SecuritySchema) : list TimeStep :=
  generateTimeGrid (valuation_date security) (maturity_date security).
Definition engine_N (security : SecuritySchema) : nat :=
  (length (engine_grid security) - 1)%nat.
Definition engine_dt (security : SecuritySchema) : R :=
  t_years (grid_at (engine_grid security) (engine_N security))
  / INR (engine_N security).
Definition engine_u (security : SecuritySchema) : R :=
  exp (volatility security * sqrt (engine_dt security)).
Definition engine_d (security : SecuritySchema) : R := 1 / engine_u security.
Definition engine_rf_t (security : SecuritySchema) : list R :=
  stepwise_or_flat (stepwise_risk_free_rates security) (risk_free_rate security)
    (engine_N security).
Definition engine_cs_t (security : SecuritySchema) : list R :=
  stepwise_or_flat (stepwise_credit_spreads security) (credit_spread security)
    (engine_N security).

Definition runPricingEngine (security : SecuritySchema) : PricingResult :=
  let time_grid := engine_grid security in
  let N := engine_N security in
  if (N <=? 0)%nat then zero_result security
  else
    let dt := engine_dt security in
    let u := engine_u security in
    let d := engine_d security in
    let rf_t := engine_rf_t security in
    let cs_t := engine_cs_t security in
    match security_type security with
    | ESO => calculateESO security time_grid rf_t dt u d N
    | _ => calculateTF security time_grid rf_t cs_t dt u d N
    end.

(** ** The deal aggregator ([calculateDeal] in App) *)

Record Agg := mkAgg {
  agg_total : R;
  agg_host : R;
  agg_deriv : R;
  agg_asset : R;
  agg_liab : R;
  agg_deriv_asset : R;
  agg_deriv_liab : R
}.

(** the reducer of [securityResults.reduce] *)
Definition agg_step (acc : Agg) (curr : PricingResult) : Agg :=
  {| agg_total := agg_total acc + fair_value_total curr;
     agg_host := agg_host acc + fair_value_host curr;
     agg_deriv := agg_deriv acc + fair_value_deriv curr;
     agg_asset := agg_asset acc
       + (if Rgtb (fair_value_total curr) 0 then fair_value_total curr else 0);
     agg_liab := agg_liab acc
       + (if Rltb (fair_value_total curr) 0 then - fair_value_total curr else 0);
     agg_deriv_asset := agg_deriv_asset acc + fair_value_deriv_asset curr;
     agg_deriv_liab := agg_deriv_liab acc + fair_value_deriv_liab curr |}.

Definition agg_zero : Agg := mkAgg 0 0 0 0 0 0 0.

Record DealSchema := mkDeal {
  deal_valuation_date : Z;
  deal_share_price_current : R;
  underlying_num_shares : R;
  deal_volatility : R;
  deal_risk_free_rate : R;
  deal_credit_spread : R;
  securities : list SecuritySchema
}.

Record DealResult := mkDealResult {
  deal_total_value : R;
  deal_price_per_share : R;
  deal_total_host : R;
  deal_total_deriv : R;
  deal_total_asset : R;
  deal_total_liab : R;
  deal_total_deriv_asset : R;
  deal_total_deriv_liab : R;
  results : list PricingResult
}.

(** A [SecurityResult] adds the identifier, the name, the type and the
    position of the security to its [PricingResult]; the aggregator reads
    none of them, and [results] keeps the pricing results.  A [SecurityDef]
    is a [SecuritySchema] whose deal-level fields are still to be
    injected. *)

(** "Construct Full Schema": the deal-level fields and the stepwise arrays
    override those of the security definition. *)
Definition full_schema (deal : DealSchema) (secDef : SecuritySchema)
    (stepwise_rf stepwise_cs : option (list R)) : SecuritySchema :=
  {| security_type := security_type secDef;
     position := position secDef;
     total_issue_price := total_issue_price secDef;
     num_issued_shares := num_issued_shares secDef;
     share_price_current := deal_share_price_current deal;
     valuation_date := deal_valuation_date deal;
     maturity_date := maturity_date secDef;
     coupon_rate := coupon_rate secDef;
     dividend_rate := dividend_rate secDef;
     repayment_premium_rate := repayment_premium_rate secDef;
     conversion_price := conversion_price secDef;
     conversion_ratio := conversion_ratio secDef;
     anti_dilution_type := anti_dilution_type secDef;
     refixing_floor_price := refixing_floor_price secDef;
     reset_events := reset_events secDef;
     participation_type := participation_type secDef;
     participation_cap_multiple := participation_cap_multiple secDef;
     volatility := deal_volatility deal;
     risk_free_rate := deal_risk_free_rate deal;
     credit_spread := deal_credit_spread deal;
     stepwise_risk_free_rates := stepwise_rf;
     stepwise_credit_spreads := stepwise_cs;
     has_call_option := has_call_option secDef;
     call_price := call_price secDef;
     call_start_date := call_start_date secDef;
     call_end_date := call_end_date secDef;
     has_put_option := has_put_option secDef;
     put_price := put_price secDef;
     put_start_date := put_start_date secDef;
     put_end_date := put_end_date secDef;
     num_options := num_options secDef;
     strike_price := strike_price secDef;
     vesting_end_date := vesting_end_date secDef;
     employee_exit_rate := employee_exit_rate secDef;
     early_exercise_multiple := early_exercise_multiple secDef |}.

Section Deal.
(** The curve pipeline (market data, bootstrap, stepwise forward rates) as
    [calculateDeal] sees it for one security: [None] when it throws inside
    the [try] block, so that the security is skipped; [Some (rf, cs)] are
    the two stepwise arrays, each absent in manual mode. *)
Variable curve_pipeline :
  DealSchema -> SecuritySchema -> option (option (list R) * option (list R)).

(** the body of the loop over [deal.securities]: the results pushed so far
    are kept in order *)
Definition price_security (deal : DealSchema) (secDef : SecuritySchema)
  : option PricingResult :=
  match curve_pipeline deal secDef with
  | Some (stepwise_rf, stepwise_cs) =>
      Some (runPricingEngine (full_schema deal secDef stepwise_rf stepwise_cs))
  | None => None
  end.

Fixpoint price_all (deal : DealSchema) (secs : list SecuritySchema)
  : list PricingResult :=
  match secs with
  | [] => []
  | secDef :: rest =>
      match price_security deal secDef with
      | Some res => res :: price_all deal rest
      | None => price_all deal rest
      end
  end.

Definition calculateDeal (deal : DealSchema) : DealResult :=
  let securityResults := price_all deal (securities deal) in
  let agg := fold_left agg_step securityResults agg_zero in
  {| deal_total_value := agg_total agg;
     deal_price_per_share :=
       if Rgtb (underlying_num_shares deal) 0
       then agg_total agg / underlying_num_shares deal else 0;
     deal_total_host := agg_host agg;
     deal_total_deriv := agg_deriv agg;
     deal_total_asset := agg_asset agg;
     deal_total_liab := agg_liab agg;
     deal_total_deriv_asset := agg_deriv_asset agg;
     deal_total_deriv_liab := agg_deriv_liab agg;
     results := securityResults |}.
End Deal.

(** ** Variations of a security, sums, and the sampled nodes

    Used to state the properties below: the same security with another
    position or with an option switched off, the sum of a list of numbers,
    and the list of the nodes [(t, i)] with [t <= m] and [i <= t]. *)

Definition set_position (p : PositionType) (s : SecuritySchema) : SecuritySchema :=
  mkSecurity (security_type s) p (total_issue_price s) (num_issued_shares s)
    (share_price_current s) (valuation_date s) (maturity_date s)
    (coupon_rate s) (dividend_rate s) (repayment_premium_rate s)
    (conversion_price s) (conversion_ratio s) (anti_dilution_type s)
    (refixing_floor_price s) (reset_events s) (participation_type s)
    (participation_cap_multiple s) (volatility s) (risk_free_rate s)
    (credit_spread s) (stepwise_risk_free_rates s) (stepwise_credit_spreads s)
    (has_call_option s) (call_price s) (call_start_date s) (call_end_date s)
    (has_put_option s) (put_price s) (put_start_date s) (put_end_date s)
    (num_options s) (strike_price s) (vesting_end_date s)
    (employee_exit_rate s) (early_exercise_multiple s).

Definition set_has_call_option (b : bool) (s : SecuritySchema) : SecuritySchema :=
  mkSecurity (security_type s) (position s) (total_issue_price s)
    (num_issued_shares s)
    (share_price_current s) (valuation_date s) (maturity_date s)
    (coupon_rate s) (dividend_rate s) (repayment_premium_rate s)
    (conversion_price s) (conversion_ratio s) (anti_dilution_type s)
    (refixing_floor_price s) (reset_events s) (participation_type s)
    (participation_cap_multiple s) (volatility s) (risk_free_rate s)
    (credit_spread s) (stepwise_risk_free_rates s) (stepwise_credit_spreads s)
    b (call_price s) (call_start_date s) (call_end_date s)
    (has_put_option s) (put_price s) (put_start_date s) (put_end_date s)
    (num_options s) (strike_price s) (vesting_end_date s)
    (employee_exit_rate s) (early_exercise_multiple s).

Definition set_has_put_option (b : bool) (s : SecuritySchema) : SecuritySchema :=
  mkSecurity (security_type s) (position s) (total_issue_price s)
    (num_issued_shares s)
    (share_price_current s) (valuation_date s) (maturity_date s)
    (coupon_rate s) (dividend_rate s) (repayment_premium_rate s)
    (conversion_price s) (conversion_ratio s) (anti_dilution_type s)
    (refixing_floor_price s) (reset_events s) (participation_type s)
    (participation_cap_multiple s) (volatility s) (risk_free_rate s)
    (credit_spread s) (stepwise_risk_free_rates s) (stepwise_credit_spreads s)
    (has_call_option s) (call_price s) (call_start_date s) (call_end_date s)
    b (put_price s) (put_start_date s) (put_end_date s)
    (num_options s) (strike_price s) (vesting_end_date s)
    (employee_exit_rate s) (early_exercise_multiple s).

(** the factor from the calculation unit to the whole issue: the number of
    shares, and [1] for a bond *)
Definition unit_count (s : SecuritySchema) : R :=
  match security_type s with
  | CB => 1
  | _ => num_issued_shares s
  end.

Definition Rsum (l : list R) : R := fold_right Rplus 0 l.

Definition nodes_upto (m : nat) : list (nat * nat) :=
  flat_map (fun t => map (pair t) (seq 0 (S t))) (seq 0 (S m)).

Definition is_called (f : Flag) : bool :=
  match f with
  | CALLED | CALLED_FORCE_CONV => true
  | _ => false
  end.

Definition is_put (f : Flag) : bool :=
  match f with
  | PUT => true
  | _ => false
  end.

(** ** Well-formed refixing inputs

    A floor counts as set when it is present and non-zero (the code tests
    its truthiness).  [floor_below_cp]: the floor, when set, does not exceed
    the initial conversion price.  [wa_inputs_ok]: under the weighted-average
    policy the initial conversion price, the prices and the share counts of
    the reset events are not negative. *)

Definition floor_below_cp (s : SecuritySchema) : Prop :=
  forall fl, refixing_floor_price s = Some fl -> fl <> 0 ->
             fl <= conversion_price s.

Definition event_ok (e : ResetEvent) : Prop :=
  0 <= issue_price_new e /\ 0 <= issue_shares_new e /\
  (forall so, shares_outstanding_before_reset e = Some so -> 0 <= so).

Definition wa_inputs_ok (s : SecuritySchema) : Prop :=
  anti_dilution_type s = WA_DOWN_ONLY ->
  0 <= conversion_price s /\
  Forall event_ok (with_default (reset_events s) []).

(** ** Sign invariants of the lattice

    [strict] stands for the extra assumption that the redemption payoff and
    the call price are strictly positive; under it the node values are
    strictly positive as well. *)

Definition tf_node_ok (strict : Prop) (n : TfNode) : Prop :=
  0 <= tf_D n /\ 0 <= tf_E n /\ (strict -> 0 < tf_D n + tf_E n).

Definition decision_ok (strict : Prop) (st : Decision) : Prop :=
  V_hold st = D_final st + E_final st /\
  0 <= D_final st /\ 0 <= E_final st /\ (strict -> 0 < V_hold st).

(** ** Sample securities

    [sample_rcps] is the default security of the application (Series A RCPS:
    issue of 1,000,000,000 in 50,000 shares, coupon 2%, premium 5%,
    conversion price 20,000, full ratchet with floor 14,000) under the default
    deal (spot 20,000, volatility 35%, risk-free 3.5%, spread 2%), valued at
    day 0 and maturing three years later.  The others vary it. *)

Definition sample_rcps : SecuritySchema :=
  mkSecurity RCPS HOLDER 1000000000 50000 20000 0 1095 (2 / 100) 0
    (Some (5 / 100)) 20000 None FULL_RATCHET (Some 14000) (Some [])
    (Some NON_PARTICIPATING) (Some 2) (35 / 100) (35 / 1000) (2 / 100)
    None None false None None None false None None None
    (Some 0) (Some 0) None None (Some 2).

(** callable at 24,000 per share from the valuation date on *)
Definition callable_rcps : SecuritySchema :=
  mkSecurity RCPS HOLDER 1000000000 50000 20000 0 1095 (2 / 100) 0
    (Some (5 / 100)) 20000 None FULL_RATCHET (Some 14000) (Some [])
    (Some NON_PARTICIPATING) (Some 2) (35 / 100) (35 / 1000) (2 / 100)
    None None true (Some 24000) (Some 0%Z) None false None None None
    (Some 0) (Some 0) None None (Some 2).

(** call and put switched on and priced, but without start dates *)
Definition undated_options_rcps : SecuritySchema :=
  mkSecurity RCPS HOLDER 1000000000 50000 20000 0 1095 (2 / 100) 0
    (Some (5 / 100)) 20000 None FULL_RATCHET (Some 14000) (Some [])
    (Some NON_PARTICIPATING) (Some 2) (35 / 100) (35 / 1000) (2 / 100)
    None None true (Some 24000) None (Some 1095%Z)
    true (Some 22000) None (Some 1095%Z)
    (Some 0) (Some 0) None None (Some 2).

(** a one-week RCPS whose floor (14,000) lies above its conversion price
    (10,000), with one down round at 5,000 on day 3 *)
Definition floor_above_cp_rcps : SecuritySchema :=
  mkSecurity RCPS HOLDER 1000000000 50000 20000 0 7 (2 / 100) 0
    (Some (5 / 100)) 10000 None FULL_RATCHET (Some 14000)
    (Some [mkResetEvent 3 5000 1000 None])
    (Some NON_PARTICIPATING) (Some 2) (35 / 100) (35 / 1000) (2 / 100)
    None None false None None None false None None None
    (Some 0) (Some 0) None None (Some 2).

(** the sample RCPS under the weighted-average policy, with one down round
    at 15,000 on day 30 *)
Definition weighted_average_rcps : SecuritySchema :=
  mkSecurity RCPS HOLDER 1000000000 50000 20000 0 1095 (2 / 100) 0
    (Some (5 / 100)) 20000 None WA_DOWN_ONLY (Some 14000)
    (Some [mkResetEvent 30 15000 10000 (Some 1000000)])
    (Some NON_PARTICIPATING) (Some 2) (35 / 100) (35 / 1000) (2 / 100)
    None None false None None None false None None None
    (Some 0) (Some 0) None None (Some 2).

(** the employee option of scenario S6: 10,000 options struck at the money,
    vesting after two years, maturing after five, exit rate 5%, early
    exercise from twice the strike *)
Definition sample_eso : SecuritySchema :=
  mkSecurity ESO HOLDER 0 0 20000 0 1825 0 0
    None 0 None NONE None None None None (35 / 100) (35 / 1000) (2 / 100)
    None None false None None None false None None None
    (Some 10000) (Some 20000) (Some 730%Z) (Some (5 / 100)) (Some 2).

(** a convertible bond valued on its maturity date *)
Definition matured_cb : SecuritySchema :=
  mkSecurity CB HOLDER 1000000000 1 1000 0 0 (2 / 100) 0
    (Some (5 / 100)) 20000 None NONE None None None None
    (35 / 100) (35 / 1000) (2 / 100)
    None None false None None None false None None None
    None None None None None.

(** a one-week convertible bond, at the money, with volatility 0.5% and
    risk-free rate and credit spread of 5% each *)
Definition low_vol_cb : SecuritySchema :=
  mkSecurity CB HOLDER 1000000000 1 10000 0 7 0 0
    None 10000 None NONE None None None None
    (5 / 1000) (5 / 100) (5 / 100)
    None None false None None None false None None None
    None None None None None.

(** a one-week employee option, at the money, with volatility 0.5% under a
    risk-free rate of -5% *)
Definition negative_rate_eso : SecuritySchema :=
  mkSecurity ESO HOLDER 0 0 20000 0 7 0 0
    None 0 None NONE None None None None (5 / 1000) (- (5 / 100)) 0
    None None false None None None false None None None
    (Some 10000) (Some 20000) None (Some (5 / 100)) (Some 2).

(** ** The curve pipeline (utils/marketData, utils/bootstrapper)

    [Math.pow (1 + r, t)] with a real exponent is [Rpower (1 + r) t], its
    value for a positive base [1 + r].  Reading [curve[0]] of an empty
    array throws; a function that can throw returns an [option]. *)

Record YieldPoint := mkYieldPoint {
  yield_tenor_years : R;
  yield : R
}.

Record MarketData := mkMarketData {
  gov_bond_yields : list YieldPoint;
  corp_bond_yields : list YieldPoint
}.

Record CurvePoint := mkCurvePoint {
  curve_tenor_years : R;
  rate : R
}.

Record ZeroCurvePoint := mkZeroCurvePoint {
  zero_tenor_years : R;
  zero_rate : R;
  discount_factor : R
}.

(** Linear interpolation helper *)
Definition interpolate (x x0 y0 x1 y1 : R) : R :=
  if Reqb x1 x0 then y0 else y0 + ((x - x0) * (y1 - y0)) / (x1 - x0).

(** "Find surrounding points": the first [i] with
    [curve[i].tenor <= target <= curve[i+1].tenor], if any *)
Fixpoint yield_bracket (curve : list YieldPoint) (targetTenor : R) : option R :=
  match curve with
  | [] => None
  | a :: rest =>
      match rest with
      | [] => None
      | b :: _ =>
          if Rgeb targetTenor (yield_tenor_years a)
             && Rleb targetTenor (yield_tenor_years b)
          then Some (interpolate targetTenor (yield_tenor_years a) (yield a)
                       (yield_tenor_years b) (yield b))
          else yield_bracket rest targetTenor
      end
  end.

Definition getInterpolatedYield (curve : list YieldPoint) (targetTenor : R)
  : option R :=
  match curve with
  | [] => None
  | first :: _ =>
      if Rleb targetTenor (yield_tenor_years first) then Some (yield first)
      else if Rgeb targetTenor (yield_tenor_years (last curve first))
      then Some (yield (last curve first))
      else Some (with_default (yield_bracket curve targetTenor) (yield first))
  end.

(** Standard Grid *)
Definition standard_tenors : list R :=
  [1 / 4; 1 / 2; 3 / 4; 1; 3 / 2; 2; 5 / 2; 3; 4; 5; 7; 10].

(** the [tenors.forEach] of [buildCurves], over the tenors [ts] *)
Fixpoint buildCurves_loop (marketData : MarketData) (ts : list R)
  : option (list CurvePoint * list CurvePoint) :=
  match ts with
  | [] => Some ([], [])
  | t :: ts' =>
      match getInterpolatedYield (gov_bond_yields marketData) t,
            getInterpolatedYield (corp_bond_yields marketData) t with
      | Some rf_y, Some corp_y =>
          match buildCurves_loop marketData ts' with
          | Some (rf_curve, cs_curve) =>
              Some (mkCurvePoint t rf_y :: rf_curve,
                    mkCurvePoint t (corp_y - rf_y) :: cs_curve)
          | None => None
          end
      | _, _ => None
      end
  end.

Definition buildCurves (marketData : MarketData)
  : option (list CurvePoint * list CurvePoint) :=
  buildCurves_loop marketData standard_tenors.

Definition bootstrapZeroCurve (yieldCurve : list CurvePoint) : list ZeroCurvePoint :=
  map (fun pt =>
         let r := rate pt in
         let df := 1 / Rpower (1 + r) (curve_tenor_years pt) in
         mkZeroCurvePoint (curve_tenor_years pt) r df)
      yieldCurve.

(** the interpolation loop of [getInterpolatedDF]: the discount factor on
    the first bracket of [t], if any *)
Fixpoint df_bracket (zeroCurve : list ZeroCurvePoint) (t : R) : option R :=
  match zeroCurve with
  | [] => None
  | a :: rest =>
      match rest with
      | [] => None
      | b :: _ =>
          if Rgeb t (zero_tenor_years a) && Rleb t (zero_tenor_years b) then
            let t0 := zero_tenor_years a in
            let r0 := zero_rate a in
            let t1 := zero_tenor_years b in
            let r1 := zero_rate b in
            let r_interp := r0 + ((t - t0) * (r1 - r0)) / (t1 - t0) in
            Some (1 / Rpower (1 + r_interp) t)
          else df_bracket rest t
      end
  end.

Definition getInterpolatedDF (zeroCurve : list ZeroCurvePoint) (t : R) : option R :=
  if Rleb t 0 then Some 1
  else
    match zeroCurve with
    | [] => None
    | first :: _ =>
        if Rleb t (zero_tenor_years first)
        then Some (1 / Rpower (1 + zero_rate first) t)
        else
          let last := last zeroCurve first in
          if Rgeb t (zero_tenor_years last)
          then Some (1 / Rpower (1 + zero_rate last) t)
          else Some (with_default (df_bracket zeroCurve t) 1)
    end.

(** the forward rate of step [t] on one zero curve:
    [f = (DF1 / DF2 - 1) / dt] *)
Definition forward_rate (zeroCurve : list ZeroCurvePoint) (dt : R) (t : nat)
  : option R :=
  match getInterpolatedDF zeroCurve (INR t * dt),
        getInterpolatedDF zeroCurve (INR (t + 1) * dt) with
  | Some DF1, Some DF2 => Some ((DF1 / DF2 - 1) / dt)
  | _, _ => None
  end.

(** the [for (t = 0; t < N; t++)] loop of [buildStepwiseRates], over the
    steps [ts] *)
Fixpoint stepwise_loop (zeroRf zeroCs : list ZeroCurvePoint) (dt : R)
    (ts : list nat) : option (list R * list R) :=
  match ts with
  | [] => Some ([], [])
  | t :: ts' =>
      match forward_rate zeroRf dt t, forward_rate zeroCs dt t with
      | Some f_rf, Some f_cs =>
          match stepwise_loop zeroRf zeroCs dt ts' with
          | Some (rf_t, cs_t) => Some (f_rf :: rf_t, f_cs :: cs_t)
          | None => None
          end
      | _, _ => None
      end
  end.

Definition buildStepwiseRates (zeroRf zeroCs : list ZeroCurvePoint) (N : nat)
    (dt : R) : option (list R * list R) :=
  stepwise_loop zeroRf zeroCs dt (seq 0 N).

(** ** The curve state of the application (App)

    [marketConfig.auto] and [debugCurves], as [calculateDeal] reads them. *)

Record DebugCurves := mkDebugCurves {
  rfCurve : option (list CurvePoint);
  csCurve : option (list CurvePoint);
  zeroRf : option (list ZeroCurvePoint)
}.

(** what [handleAutoFetchToggle] stores once the market data has arrived *)
Definition fetched_curves (marketData : MarketData) : option DebugCurves :=
  match buildCurves marketData with
  | Some (rf_curve, cs_curve) =>
      Some (mkDebugCurves (Some rf_curve) (Some cs_curve)
              (Some (bootstrapZeroCurve rf_curve)))
  | None => None
  end.

Definition cleared_curves : DebugCurves := mkDebugCurves None None None.

(** the part of the [try] block of [calculateDeal] that precedes the
    pricing: the stepwise arrays of one security *)
Definition app_curve_pipeline (auto : bool) (debugCurves : DebugCurves)
    (deal : DealSchema) (secDef : SecuritySchema)
  : option (option (list R) * option (list R)) :=
  let zeroRf_ :=
    if auto then with_default (zeroRf debugCurves) [] else [] in
  if auto && (0 <? length zeroRf_)%nat then
    let grid := generateTimeGrid (deal_valuation_date deal) (maturity_date secDef) in
    let N := (length grid - 1)%nat in
    if (0 <? N)%nat then
      let T := t_years (grid_at grid N) in
      let dt := T / INR N in
      let zeroCs :=
        match csCurve debugCurves, zeroRf debugCurves with
        | Some cs, Some _ => bootstrapZeroCurve cs
        | _, _ => []
        end in
      match buildStepwiseRates zeroRf_ zeroCs N dt with
      | Some (rf_t, cs_t) => Some (Some rf_t, Some cs_t)
      | None => None
      end
    else Some (None, None)
  else Some (None, None).

(** ** Further variations and measures used in the properties *)

Definition set_stepwise (rf cs : option (list R)) (s : SecuritySchema)
  : SecuritySchema :=
  mkSecurity (security_type s) (position s) (total_issue_price s)
    (num_issued_shares s)
    (share_price_current s) (valuation_date s) (maturity_date s)
    (coupon_rate s) (dividend_rate s) (repayment_premium_rate s)
    (conversion_price s) (conversion_ratio s) (anti_dilution_type s)
    (refixing_floor_price s) (reset_events s) (participation_type s)
    (participation_cap_multiple s) (volatility s) (risk_free_rate s)
    (credit_spread s) rf cs
    (has_call_option s) (call_price s) (call_start_date s) (call_end_date s)
    (has_put_option s) (put_price s) (put_start_date s) (put_end_date s)
    (num_options s) (strike_price s) (vesting_end_date s)
    (employee_exit_rate s) (early_exercise_multiple s).

(** the risky discount factor from the valuation date to step [k]:
    the product of the step factors [exp (- (r_t + cs_t) * dt)], [t < k] *)
Fixpoint risky_df (rf_t cs_t : list R) (dt : R) (k : nat) : R :=
  match k with
  | O => 1
  | S k' => risky_df rf_t cs_t dt k' * tf_df_risky rf_t cs_t dt k'
  end.

(** the events of a list dated at or before a step date *)
Definition events_until (stepDate : Z) (events : list ResetEvent)
  : list ResetEvent :=
  filter (fun e => (event_date e <=? stepDate)%Z) events.

(** the lowest of a price and the new-issue prices of a list of events *)
Definition lowest_price (cp : R) (events : list ResetEvent) : R :=
  fold_left (fun m e => Rmin m (issue_price_new e)) events cp.

(** the flags of a lattice node, by the leg that carries the value *)
Definition equity_flag (f : Flag) : bool :=
  match f with
  | CONVERT | CALLED_FORCE_CONV | MAT_CONVERT | MAT_PARTICIPATE => true
  | _ => false
  end.

Definition debt_flag (f : Flag) : bool :=
  match f with
  | CALLED | PUT | MAT_REDEEM => true
  | _ => false
  end.

(** [Flags[t][i]] of the ESO lattice *)
Definition eso_flag_at (rows : list (list EsoNode)) (t i : nat) : Flag :=
  eso_flag (at_node (mkEsoNode 0 NO_FLAG) rows t i).

(** the value that the decision cascade leaves at a node, from the
    continuation value [cont] and the conversion value [conv]: the holder
    takes the better of continuing and converting, an active call caps this
    at the better of call price and conversion, an active put floors it at
    the put price *)
Definition cascade_value (can_call_ : bool) (call_price_ : option R)
    (can_put_ : bool) (put_price_ : option R) (conv cont : R) : R :=
  let v1 := Rmax cont conv in
  let v2 :=
    match can_call_, call_price_ with
    | true, Some c => Rmin v1 (Rmax c conv)
    | _, _ => v1
    end in
  match can_put_, put_price_ with
  | true, Some p => Rmax v2 p
  | _, _ => v2
  end.

(** the flags of maturity and the flags of an earlier step *)
Definition maturity_flag (f : Flag) : bool :=
  match f with
  | MAT_PARTICIPATE | MAT_CONVERT | MAT_REDEEM => true
  | _ => false
  end.

Definition step_flag (f : Flag) : bool :=
  match f with
  | HOLD | CONVERT | CALLED | CALLED_FORCE_CONV | PUT => true
  | _ => false
  end.

(** what the flag of a decision says about its two legs, [st0] being the
    continuation the cascade started from *)
Definition decision_legs (conv : R) (cprice pprice : option R)
    (st0 st : Decision) : Prop :=
  V_hold st = D_final st + E_final st /\
  match flag st with
  | HOLD => st = st0
  | CONVERT | CALLED_FORCE_CONV => D_final st = 0 /\ E_final st = conv
  | CALLED => cprice = Some (D_final st) /\ E_final st = 0
  | PUT => pprice = Some (D_final st) /\ E_final st = 0
  | _ => False
  end.

(** the events of a list in non-decreasing order of date *)
Fixpoint sorted_by_date (l : list ResetEvent) : Prop :=
  match l with
  | [] => True
  | e :: l' =>
      Forall (fun x => (event_date e <= event_date x)%Z) l' /\ sorted_by_date l'
  end.

(** the step dates of a grid do not decrease up to step [N] *)
Definition grid_monotone (g : list TimeStep) (N : nat) : Prop :=
  forall a b, (a <= b)%nat -> (b <= N)%nat ->
    (date (grid_at g a) <= date (grid_at g b))%Z.

(** the default security after two down rounds, entered out of order: at
    15,000 on day 30 and at 18,000 on day 10 *)
Definition ratchet_rcps : SecuritySchema :=
  mkSecurity RCPS HOLDER 1000000000 50000 20000 0 1095 (2 / 100) 0
    (Some (5 / 100)) 20000 None FULL_RATCHET (Some 14000)
    (Some [mkResetEvent 30 15000 1000 None; mkResetEvent 10 18000 1000 None])
    (Some NON_PARTICIPATING) (Some 2) (35 / 100) (35 / 1000) (2 / 100)
    None None false None None None false None None None
    (Some 0) (Some 0) None None (Some 2).

(** the default security after an up round at 25,000 on day 30 *)
Definition up_round_rcps : SecuritySchema :=
  mkSecurity RCPS HOLDER 1000000000 50000 20000 0 1095 (2 / 100) 0
    (Some (5 / 100)) 20000 None FULL_RATCHET (Some 14000)
    (Some [mkResetEvent 30 25000 1000 None])
    (Some NON_PARTICIPATING) (Some 2) (35 / 100) (35 / 1000) (2 / 100)
    None None false None None None false None None None
    (Some 0) (Some 0) None None (Some 2).

(** ** Measures on curves used in the properties *)

(** a list of tenors in strictly increasing order *)
Fixpoint increasing (l : list R) : Prop :=
  match l with
  | [] => True
  | a :: rest =>
      match rest with
      | [] => True
      | b :: _ => a < b /\ increasing rest
      end
  end.

(** a yield curve moved up by [c] at every tenor *)
Definition shift_yields (c : R) (curve : list YieldPoint) : list YieldPoint :=
  map (fun p => mkYieldPoint (yield_tenor_years p) (yield p + c)) curve.



(** the same security under another anti-dilution policy *)
Definition set_anti_dilution (a : AntiDilutionType) (s : SecuritySchema)
  : SecuritySchema :=
  mkSecurity (security_type s) (position s) (total_issue_price s)
    (num_issued_shares s)
    (share_price_current s) (valuation_date s) (maturity_date s)
    (coupon_rate s) (dividend_rate s) (repayment_premium_rate s)
    (conversion_price s) (conversion_ratio s) a
    (refixing_floor_price s) (reset_events s) (participation_type s)
    (participation_cap_multiple s) (volatility s) (risk_free_rate s)
    (credit_spread s) (stepwise_risk_free_rates s) (stepwise_credit_spreads s)
    (has_call_option s) (call_price s) (call_start_date s) (call_end_date s)
    (has_put_option s) (put_price s) (put_start_date s) (put_end_date s)
    (num_options s) (strike_price s) (vesting_end_date s)
    (employee_exit_rate s) (early_exercise_multiple s).

(** ** The mocked market data ([fetchMarketData] in utils/marketData)

    The function waits 600 ms and then returns data that depend on the
    credit rating only; the date is not read.  Its result is modelled as a
    function of its arguments. *)

Module MarketMock.
Import String.

(** [s.includes (sub)] *)
Fixpoint includes (s sub : string) : bool :=
  if prefix sub s then true
  else
    match s with
    | EmptyString => false
    | String _ s' => includes s' sub
    end.

(** Base Government Curve *)
Definition baseGov : list YieldPoint :=
  [mkYieldPoint (1 / 4) (330 / 10000);
   mkYieldPoint (1 / 2) (335 / 10000);
   mkYieldPoint 1 (340 / 10000);
   mkYieldPoint 2 (345 / 10000);
   mkYieldPoint 3 (350 / 10000);
   mkYieldPoint 5 (355 / 10000);
   mkYieldPoint 10 (360 / 10000)].

(** Credit Spread Multiplier based on Rating *)
Definition spreadBase (credit_rating : string) : R :=
  if includes credit_rating "AA" then 120 / 10000
  else if includes credit_rating "A" then 250 / 10000
  else if includes credit_rating "BBB" then 500 / 10000
  else if includes credit_rating "BB" then 800 / 10000
  else 50 / 10000.

Definition fetchMarketData (as_of_date : Z) (credit_rating : string)
  : MarketData :=
  let spreadBase := spreadBase credit_rating in
  let corpBond :=
    map (fun pt =>
           mkYieldPoint (yield_tenor_years pt)
             (yield pt + spreadBase + yield_tenor_years pt * (1 / 1000)))
        baseGov in
  mkMarketData baseGov corpBond.

(** the ratings that carry the text AAA *)
Definition mentions_AAA (credit_rating : string) : bool :=
  includes credit_rating "AAA".
End MarketMock.

(** a yield curve moved up by [b + c * tenor] at every tenor *)
Definition tilt_yields (b c : R) (curve : list YieldPoint) : list YieldPoint :=
  map (fun pt =>
         mkYieldPoint (yield_tenor_years pt)
           (yield pt + b + yield_tenor_years pt * c))
      curve.

(** * Properties *)

(** ** Boolean comparisons *)

Lemma Rltb_true (x y : R) : Rltb x y = true <-> x < y.
Proof. unfold Rltb; destruct (Rlt_dec x y); split; intros; try easy. Qed.

Lemma Rltb_false (x y : R) : Rltb x y = false <-> y <= x.
Proof.
  unfold Rltb; destruct (Rlt_dec x y); split; intros; try easy; lra.
Qed.

Lemma Rleb_true (x y : R) : Rleb x y = true <-> x <= y.
Proof. unfold Rleb; destruct (Rle_dec x y); split; intros; try easy. Qed.

Lemma Rleb_false (x y : R) : Rleb x y = false <-> y < x.
Proof.
  unfold Rleb; destruct (Rle_dec x y); split; intros; try easy; lra.
Qed.

Lemma Rgtb_true (x y : R) : Rgtb x y = true <-> x > y.
Proof. unfold Rgtb; rewrite Rltb_true; lra. Qed.

Lemma Rgtb_false (x y : R) : Rgtb x y = false <-> x <= y.
Proof. unfold Rgtb; rewrite Rltb_false; lra. Qed.

Lemma Rgeb_true (x y : R) : Rgeb x y = true <-> x >= y.
Proof. unfold Rgeb; rewrite Rleb_true; lra. Qed.

Lemma Reqb_true (x y : R) : Reqb x y = true <-> x = y.
Proof. unfold Reqb; destruct (Req_dec_T x y); split; intros; try easy. Qed.

Lemma truthy_true (x : R) : truthy x = true <-> x <> 0.
Proof.
  unfold truthy, Reqb; destruct (Req_dec_T x 0); split; intros; easy.
Qed.

(** Decide one boolean comparison of the goal or of a hypothesis, keeping
    the fact it stands for. *)
Ltac case_cmp :=
  match goal with
  | |- context [Rltb ?x ?y] =>
      let H := fresh "Hcmp" in
      destruct (Rltb x y) eqn:H;
      [apply Rltb_true in H | apply Rltb_false in H]
  | |- context [Rgtb ?x ?y] =>
      let H := fresh "Hcmp" in
      destruct (Rgtb x y) eqn:H;
      [apply Rgtb_true in H | apply Rgtb_false in H]
  | |- context [Rleb ?x ?y] =>
      let H := fresh "Hcmp" in
      destruct (Rleb x y) eqn:H;
      [apply Rleb_true in H | apply Rleb_false in H]
  end.

(** ** The lattice builder *)

Section LatticeFacts.
Context {A : Type}.
Variable dflt : A.
Variable terminal : nat -> A.
Variable backward : nat -> nat -> A -> A -> A.

Local Abbreviation rows N := (build_lattice dflt terminal backward N).
Local Abbreviation brow := (backward_row dflt backward).

Lemma skipn_cons_nth (n : nat) (l : list (list A)) (x : list A) (r : list (list A)) :
  skipn n l = x :: r -> nth n l [] = x /\ skipn (S n) l = r.
Proof.
  revert l; induction n as [|n IH]; intros [|y l] H;
    try (simpl in H; discriminate).
  - simpl in H; inversion H; subst; auto.
  - change (skipn (S n) (y :: l)) with (skipn n l) in H.
    apply IH in H; destruct H as [Hn Hs].
    split; [exact Hn|].
    change (skipn (S (S n)) (y :: l)) with (skipn (S n) l); exact Hs.
Qed.

Lemma sweep_back_spec (t : nat) :
  forall next rest,
    let L := sweep_back dflt backward t next (next :: rest) in
    skipn t L = next :: rest /\
    forall t', (t' < t)%nat -> nth t' L [] = brow t' (nth (S t') L []).
Proof.
  induction t as [|t IH]; intros next rest L.
  - split; [reflexivity | intros; lia].
  - subst L; simpl.
    destruct (IH (brow t next) (next :: rest)) as [Hskip Hrows].
    destruct (skipn_cons_nth _ _ _ _ Hskip) as [Hrow Hskip'].
    split; [exact Hskip'|].
    intros t' Ht'.
    destruct (Nat.eq_dec t' t) as [->|Hne].
    + rewrite Hrow.
      destruct (skipn_cons_nth _ _ _ _ Hskip') as [Hnext _].
      now rewrite Hnext.
    + apply Hrows; lia.
Qed.

Lemma lattice_row_terminal (N : nat) :
  nth N (rows N) [] = terminal_row terminal N.
Proof.
  unfold build_lattice.
  destruct (sweep_back_spec N (terminal_row terminal N) []) as [Hskip _].
  now destruct (skipn_cons_nth _ _ _ _ Hskip).
Qed.

Lemma lattice_row_backward (N t : nat) :
  (t < N)%nat -> nth t (rows N) [] = brow t (nth (S t) (rows N) []).
Proof.
  intros Ht; unfold build_lattice.
  destruct (sweep_back_spec N (terminal_row terminal N) []) as [_ Hrows].
  now apply Hrows.
Qed.

Lemma lattice_length (N : nat) : length (rows N) = S N.
Proof.
  unfold build_lattice.
  destruct (sweep_back_spec N (terminal_row terminal N) []) as [Hskip _].
  cbv zeta in Hskip.
  assert (Hlen := f_equal (@length _) Hskip).
  rewrite length_skipn in Hlen; simpl in Hlen.
  assert (Hnz : nth N (rows N) [] <> []).
  { rewrite lattice_row_terminal; unfold terminal_row; simpl; discriminate. }
  unfold build_lattice in Hnz. lia.
Qed.

Lemma lattice_row_length (N t : nat) :
  (t <= N)%nat -> length (nth t (rows N) []) = S t.
Proof.
  intros Ht.
  destruct (Nat.eq_dec t N) as [->|Hne].
  - rewrite lattice_row_terminal; unfold terminal_row.
    now rewrite length_map, length_seq.
  - rewrite lattice_row_backward by lia; unfold backward_row.
    now rewrite length_map, length_seq.
Qed.

Lemma at_node_terminal (N i : nat) :
  (i <= N)%nat -> at_node dflt (rows N) N i = terminal i.
Proof.
  intros Hi; unfold at_node.
  rewrite lattice_row_terminal; unfold terminal_row.
  rewrite (nth_indep _ dflt (terminal 0)) by (rewrite length_map, length_seq; lia).
  rewrite map_nth, seq_nth by lia.
  reflexivity.
Qed.

Lemma at_node_backward (N t i : nat) :
  (t < N)%nat -> (i <= t)%nat ->
  at_node dflt (rows N) t i
  = backward t i (at_node dflt (rows N) (S t) (S i))
                 (at_node dflt (rows N) (S t) i).
Proof.
  intros Ht Hi; unfold at_node.
  rewrite (lattice_row_backward N t Ht); unfold backward_row.
  set (f := fun i0 => backward t i0 _ _).
  rewrite (nth_indep _ dflt (f 0%nat)) by (rewrite length_map, length_seq; lia).
  rewrite map_nth, seq_nth by lia.
  reflexivity.
Qed.

(** A property of the terminal nodes that every backward step preserves
    holds at every node of the lattice. *)
Lemma lattice_invariant (P : A -> Prop) (N : nat) :
  (forall i, (i <= N)%nat -> P (terminal i)) ->
  (forall t i up down, (t < N)%nat -> (i <= t)%nat ->
     P up -> P down -> P (backward t i up down)) ->
  forall t i, (t <= N)%nat -> (i <= t)%nat -> P (at_node dflt (rows N) t i).
Proof.
  intros Hterm Hback t i Ht.
  remember (N - t)%nat as k eqn:Hk.
  revert t i Ht Hk; induction k as [|k IH]; intros t i Ht Hk Hi.
  - assert (t = N) by lia; subst t.
    rewrite at_node_terminal by lia; auto.
  - rewrite at_node_backward by lia.
    apply Hback; try lia; apply IH; lia.
Qed.
End LatticeFacts.

(** ** The time grid *)

(** Once the fuel covers the days left to maturity, more fuel changes
    nothing: the loop leaves through its exit test, not by running dry. *)
Lemma weekly_grid_fuel (fuel : nat) :
  forall fuel' valDate matDate currentDate k,
    (matDate - currentDate <= Z.of_nat fuel)%Z ->
    (matDate - currentDate <= Z.of_nat fuel')%Z ->
    weekly_grid fuel valDate matDate currentDate k
    = weekly_grid fuel' valDate matDate currentDate k.
Proof.
  induction fuel as [|fuel IH]; intros fuel' v m c k H H'.
  - destruct fuel' as [|fuel']; simpl; [reflexivity|].
    destruct (Z.ltb_spec c m); [lia | reflexivity].
  - destruct fuel' as [|fuel']; simpl.
    + destruct (Z.ltb_spec c m); [lia | reflexivity].
    + destruct (Z.ltb_spec c m); [|reflexivity].
      f_equal; apply IH; unfold addDays; lia.
Qed.

Lemma weekly_grid_nonempty (fuel : nat) v m c k :
  (1 <= length (weekly_grid fuel v m c k))%nat.
Proof.
  destruct fuel; simpl; [lia|].
  destruct (c <? m)%Z; simpl; lia.
Qed.

Lemma generateTimeGrid_length (valDate matDate : Z) :
  (2 <= length (generateTimeGrid valDate matDate))%nat.
Proof.
  unfold generateTimeGrid.
  destruct (Z.leb_spec matDate valDate) as [Hle|Hlt]; [simpl; lia|].
  destruct (Z.to_nat (matDate - valDate)) eqn:Hfuel; [lia|].
  simpl.
  destruct (Z.ltb_spec valDate matDate); [|lia].
  simpl. pose proof (weekly_grid_nonempty n valDate matDate (addDays valDate 7) 1).
  lia.
Qed.

(** The fuel that [generateTimeGrid] passes is enough. *)
Lemma generateTimeGrid_fuel (valDate matDate : Z) (fuel : nat) :
  (valDate < matDate)%Z -> (Z.to_nat (matDate - valDate) <= fuel)%nat ->
  weekly_grid fuel valDate matDate valDate 0 = generateTimeGrid valDate matDate.
Proof.
  intros Hlt Hfuel; unfold generateTimeGrid.
  destruct (Z.leb_spec matDate valDate); [lia|].
  apply weekly_grid_fuel; lia.
Qed.

(** The last node of the weekly grid is the maturity date with its true
    year fraction, and the steps are numbered consecutively. *)
Lemma weekly_grid_last (fuel : nat) :
  forall v m c k,
    let grid := weekly_grid fuel v m c k in
    nth (length grid - 1) grid (mkTimeStep 0 0 0)
    = mkTimeStep (k + length grid - 1) m (getDateDiffYears v m).
Proof.
  induction fuel as [|fuel IH]; intros v m c k; cbv zeta;
    cbn [weekly_grid].
  - cbn [length nth Nat.sub]; f_equal; lia.
  - destruct (c <? m)%Z; [|cbn [length nth Nat.sub]; f_equal; lia].
    specialize (IH v m (addDays c 7) (S k)); cbv zeta in IH.
    pose proof (weekly_grid_nonempty fuel v m (addDays c 7) (S k)) as Hne.
    set (rest := weekly_grid fuel v m (addDays c 7) (S k)) in *.
    cbn [length].
    replace (S (length rest) - 1)%nat with (S (length rest - 1)) by lia.
    cbn [nth]; rewrite IH; f_equal; lia.
Qed.

Lemma generateTimeGrid_last (valDate matDate : Z) :
  (valDate < matDate)%Z ->
  let grid := generateTimeGrid valDate matDate in
  grid_at grid (length grid - 1)
  = mkTimeStep (length grid - 1) matDate (getDateDiffYears valDate matDate).
Proof.
  intros Hlt; cbv zeta; unfold generateTimeGrid, grid_at.
  destruct (Z.leb_spec matDate valDate); [lia|].
  rewrite weekly_grid_last; f_equal.
Qed.

Example grid_of_ten_days :
  map (fun ts => (step ts, date ts)) (generateTimeGrid 0 10)
  = [(0%nat, 0%Z); (1%nat, 7%Z); (2%nat, 10%Z)].
Proof. reflexivity. Qed.

Example grid_of_two_weeks :
  map (fun ts => (step ts, date ts)) (generateTimeGrid 100 114)
  = [(0%nat, 100%Z); (1%nat, 107%Z); (2%nat, 114%Z)].
Proof. reflexivity. Qed.

Example grid_of_three_years_length :
  length (generateTimeGrid 0 1095) = 158%nat.
Proof. reflexivity. Qed.

Example grid_after_maturity :
  generateTimeGrid 10 3 = [mkTimeStep 0 10 0; mkTimeStep 1 10 (27 / 10000)].
Proof. reflexivity. Qed.

(** the sort by date keeps events of one date in their order *)
Example sort_events_is_stable :
  map issue_price_new
    (sort_events [mkResetEvent 30 15000 1 None; mkResetEvent 10 18000 1 None;
                  mkResetEvent 30 16000 1 None])
  = [18000; 15000; 16000].
Proof. reflexivity. Qed.

(** The grid has at least two points, so the [N <= 0] branch of the entry
    point is never taken. *)
Lemma engine_N_pos (s : SecuritySchema) : (1 <= engine_N s)%nat.
Proof.
  unfold engine_N, engine_grid.
  pose proof (generateTimeGrid_length (valuation_date s) (maturity_date s)).
  lia.
Qed.

Lemma runPricingEngine_dispatch (s : SecuritySchema) :
  runPricingEngine s
  = match security_type s with
    | ESO => calculateESO s (engine_grid s) (engine_rf_t s) (engine_dt s)
               (engine_u s) (engine_d s) (engine_N s)
    | _ => calculateTF s (engine_grid s) (engine_rf_t s) (engine_cs_t s)
             (engine_dt s) (engine_u s) (engine_d s) (engine_N s)
    end.
Proof.
  unfold runPricingEngine.
  pose proof (engine_N_pos s) as HN.
  destruct (Nat.leb_spec (engine_N s) 0); [lia | reflexivity].
Qed.

(** ** Host / derivative split and the unit components *)

Lemma calculateTF_split s g rf cs dt u d N :
  let r := calculateTF s g rf cs dt u d N in
  fair_value_total r = fair_value_host r + fair_value_deriv r.
Proof.
  cbv zeta; unfold calculateTF; cbn [fair_value_total fair_value_host fair_value_deriv].
  unfold total_hybrid_long, total_host_long, total_deriv_long, deriv_val_unit.
  destruct (isPerShare s); ring.
Qed.

Lemma calculateESO_split s g rf dt u d N :
  let r := calculateESO s g rf dt u d N in
  fair_value_total r = fair_value_host r + fair_value_deriv r.
Proof.
  cbv zeta; unfold calculateESO; cbn [fair_value_total fair_value_host fair_value_deriv].
  ring.
Qed.

(** C1.  Every result of the engine, for a TF security as for an ESO, splits
    exactly into host and derivative:
    [fair_value_total = fair_value_host + fair_value_deriv]. *)
Theorem C1_total_is_host_plus_deriv (security : SecuritySchema) :
  fair_value_total (runPricingEngine security)
  = fair_value_host (runPricingEngine security)
    + fair_value_deriv (runPricingEngine security).
Proof.
  rewrite runPricingEngine_dispatch.
  destruct (security_type security);
    first [apply calculateTF_split | apply calculateESO_split].
Qed.

(** The lattice is built for the long position: it does not read the
    position field. *)
Lemma tf_lattice_position p s g rf cs dt u d N :
  tf_lattice (set_position p s) g rf cs dt u d N = tf_lattice s g rf cs dt u d N.
Proof. reflexivity. Qed.

Lemma engine_params_position p s :
  engine_grid (set_position p s) = engine_grid s /\
  engine_N (set_position p s) = engine_N s /\
  engine_dt (set_position p s) = engine_dt s /\
  engine_u (set_position p s) = engine_u s /\
  engine_d (set_position p s) = engine_d s /\
  engine_rf_t (set_position p s) = engine_rf_t s /\
  engine_cs_t (set_position p s) = engine_cs_t s.
Proof. repeat split; reflexivity. Qed.

Lemma calculateTF_components s g rf cs dt u d N :
  let r := calculateTF s g rf cs dt u d N in
  tf_debt_component r = D_at s g rf cs dt u d N 0 0 /\
  tf_equity_component r = E_at s g rf cs dt u d N 0 0 /\
  (tf_debt_component r + tf_equity_component r) * unit_count s
    * position_sign s = fair_value_total r.
Proof.
  cbv zeta; unfold calculateTF;
    cbn [tf_debt_component tf_equity_component fair_value_total].
  repeat split.
  unfold total_hybrid_long, hybrid_val_unit, isPerShare, isCB, unit_count.
  destruct (security_type s); cbn [SecurityType_eqb negb]; ring.
Qed.

(** C10.  For a TF security the two output components are [D[0][0]] and
    [E[0][0]] of the long position per calculation unit: they do not change
    with the position, and scaled by the share count ([1] for a bond) and
    the position sign, [-1] for an issuer and [1] for a holder, they give
    [fair_value_total]: the holder's total is [(D + E) * count], the
    issuer's total is its negation. *)
Theorem C10_unit_components (security : SecuritySchema) :
  security_type security <> ESO ->
  let r := runPricingEngine security in
  let D00 := D_at security (engine_grid security) (engine_rf_t security)
               (engine_cs_t security) (engine_dt security) (engine_u security)
               (engine_d security) (engine_N security) 0 0 in
  let E00 := E_at security (engine_grid security) (engine_rf_t security)
               (engine_cs_t security) (engine_dt security) (engine_u security)
               (engine_d security) (engine_N security) 0 0 in
  let count := match security_type security with
               | CB => 1
               | _ => num_issued_shares security
               end in
  tf_debt_component r = D00 /\
  tf_equity_component r = E00 /\
  (forall p,
     tf_debt_component (runPricingEngine (set_position p security)) = D00 /\
     tf_equity_component (runPricingEngine (set_position p security)) = E00) /\
  (tf_debt_component r + tf_equity_component r) * count
    * match position security with ISSUER => -1 | HOLDER => 1 end
  = fair_value_total r /\
  fair_value_total (runPricingEngine (set_position HOLDER security))
  = (D00 + E00) * count /\
  fair_value_total (runPricingEngine (set_position ISSUER security))
  = - ((D00 + E00) * count).
Proof.
  intros Hty; cbv zeta.
  assert (Hrun : forall s, security_type s <> ESO ->
            runPricingEngine s
            = calculateTF s (engine_grid s) (engine_rf_t s) (engine_cs_t s)
                (engine_dt s) (engine_u s) (engine_d s) (engine_N s)).
  { intros s Hs; rewrite runPricingEngine_dispatch.
    destruct (security_type s); congruence. }
  assert (Htotal : forall s, security_type s <> ESO ->
            fair_value_total (runPricingEngine s)
            = (D_at s (engine_grid s) (engine_rf_t s) (engine_cs_t s)
                 (engine_dt s) (engine_u s) (engine_d s) (engine_N s) 0 0
               + E_at s (engine_grid s) (engine_rf_t s) (engine_cs_t s)
                   (engine_dt s) (engine_u s) (engine_d s) (engine_N s) 0 0)
              * match security_type s with
                | CB => 1
                | _ => num_issued_shares s
                end
              * match position s with ISSUER => -1 | HOLDER => 1 end).
  { intros s Hs; rewrite (Hrun s Hs).
    destruct (calculateTF_components s (engine_grid s) (engine_rf_t s)
                (engine_cs_t s) (engine_dt s) (engine_u s) (engine_d s)
                (engine_N s)) as (HD & HE & Htot).
    rewrite <- Htot, HD, HE; reflexivity. }
  assert (Hpos : forall p, security_type (set_position p security) <> ESO)
    by (intros p; exact Hty).
  rewrite (Htotal security Hty), (Htotal _ (Hpos HOLDER)),
    (Htotal _ (Hpos ISSUER)).
  rewrite (Hrun security Hty).
  destruct (calculateTF_components security (engine_grid security)
              (engine_rf_t security) (engine_cs_t security)
              (engine_dt security) (engine_u security) (engine_d security)
              (engine_N security)) as (HD & HE & _).
  split; [exact HD|]. split; [exact HE|].
  split; [intros p; rewrite (Hrun _ (Hpos p)); split; reflexivity|].
  split; [rewrite HD, HE; reflexivity|].
  split.
  - change (position (set_position HOLDER security)) with HOLDER.
    change (security_type (set_position HOLDER security))
      with (security_type security).
    change (num_issued_shares (set_position HOLDER security))
      with (num_issued_shares security).
    cbv iota; rewrite Rmult_1_r; reflexivity.
  - change (position (set_position ISSUER security)) with ISSUER.
    change (security_type (set_position ISSUER security))
      with (security_type security).
    change (num_issued_shares (set_position ISSUER security))
      with (num_issued_shares security).
    cbv iota.
    match goal with
    | |- ?a * ?c * -1 = - (?b * ?c) => change a with b; ring
    end.
Qed.

(** ** The aggregator *)

Lemma Rmax_pos_part (v : R) : (if Rgtb v 0 then v else 0) = Rmax v 0.
Proof.
  case_cmp; unfold Rmax; destruct (Rle_dec v 0); lra.
Qed.

Lemma Rmax_neg_part (v : R) : (if Rltb v 0 then - v else 0) = Rmax (- v) 0.
Proof.
  case_cmp; unfold Rmax; destruct (Rle_dec (- v) 0); lra.
Qed.

(** what the reducer has accumulated after a list of results *)
Lemma fold_agg_step (l : list PricingResult) :
  forall acc,
    let a := fold_left agg_step l acc in
    agg_total a = agg_total acc + Rsum (map fair_value_total l) /\
    agg_asset a
      = agg_asset acc + Rsum (map (fun r => Rmax (fair_value_total r) 0) l) /\
    agg_liab a
      = agg_liab acc + Rsum (map (fun r => Rmax (- fair_value_total r) 0) l).
Proof.
  induction l as [|r l IH]; intros acc; cbn [fold_left map Rsum fold_right].
  - repeat split; ring.
  - destruct (IH (agg_step acc r)) as (Ht & Ha & Hl).
    cbv zeta; rewrite Ht, Ha, Hl; cbn [agg_step agg_total agg_asset agg_liab].
    rewrite Rmax_pos_part, Rmax_neg_part.
    fold (Rsum (map fair_value_total l)).
    fold (Rsum (map (fun r => Rmax (fair_value_total r) 0) l)).
    fold (Rsum (map (fun r => Rmax (- fair_value_total r) 0) l)).
    repeat split; ring.
Qed.

Lemma pos_minus_neg_part (l : list R) :
  Rsum (map (fun v => Rmax v 0) l) - Rsum (map (fun v => Rmax (- v) 0) l)
  = Rsum l.
Proof.
  induction l as [|v l IH]; cbn [map Rsum fold_right]; [ring|].
  fold (Rsum (map (fun v => Rmax v 0) l)).
  fold (Rsum (map (fun v => Rmax (- v) 0) l)).
  fold (Rsum l).
  unfold Rmax at 1 3.
  destruct (Rle_dec v 0), (Rle_dec (- v) 0); lra.
Qed.

(** C8.  In every deal result the asset total sums [max (v, 0)] and the
    liability total sums [max (-v, 0)] over the fair values [v] of the
    securities that were priced, and asset minus liability is the signed
    total. *)
Theorem C8_asset_minus_liab
    (curve_pipeline :
       DealSchema -> SecuritySchema -> option (option (list R) * option (list R)))
    (deal : DealSchema) :
  let res := calculateDeal curve_pipeline deal in
  deal_total_asset res
    = Rsum (map (fun r => Rmax (fair_value_total r) 0) (results res)) /\
  deal_total_liab res
    = Rsum (map (fun r => Rmax (- fair_value_total r) 0) (results res)) /\
  deal_total_value res = Rsum (map fair_value_total (results res)) /\
  deal_total_asset res - deal_total_liab res = deal_total_value res.
Proof.
  cbv zeta; unfold calculateDeal;
    cbn [deal_total_asset deal_total_liab deal_total_value results].
  destruct (fold_agg_step (price_all curve_pipeline deal (securities deal)) agg_zero)
    as (Ht & Ha & Hl).
  cbv zeta in Ht, Ha, Hl; rewrite Ht, Ha, Hl.
  cbn [agg_zero agg_total agg_asset agg_liab].
  repeat split; try ring.
  pose proof (pos_minus_neg_part
                (map fair_value_total (price_all curve_pipeline deal (securities deal))))
    as H.
  rewrite !map_map in H.
  lra.
Qed.

(** ** The issuer call and the holder put *)

Lemma stage_call_spec (c conv : R) (st : Decision) :
  let called := stage_call true (Some c) conv st in
  (Rmax c conv < V_hold st ->
     V_hold called = Rmax c conv /\
     (conv > c ->
        D_final called = 0 /\ E_final called = conv /\
        flag called = CALLED_FORCE_CONV) /\
     (conv <= c ->
        D_final called = c /\ E_final called = 0 /\ flag called = CALLED)) /\
  (V_hold st <= Rmax c conv -> called = st).
Proof.
  cbv zeta; unfold stage_call; split.
  - intros Hlt.
    destruct (Rltb (Rmax c conv) (V_hold st)) eqn:H1;
      [|apply Rltb_false in H1; lra].
    destruct (Rgtb conv c) eqn:H2;
      [apply Rgtb_true in H2 | apply Rgtb_false in H2];
      cbn [V_hold D_final E_final flag]; repeat split; intros; try lra; reflexivity.
  - intros Hge.
    destruct (Rltb (Rmax c conv) (V_hold st)) eqn:H1;
      [apply Rltb_true in H1; lra | reflexivity].
Qed.

Lemma in_window_no_start has_option price end_date maturity stepDate :
  in_window has_option price None end_date maturity stepDate = false.
Proof.
  unfold in_window.
  destruct (has_option && match price with Some _ => true | None => false end);
    reflexivity.
Qed.

Lemma sweep_back_ext {A : Type} (dflt : A)
    (backward backward' : nat -> nat -> A -> A -> A) :
  (forall t i up down, backward t i up down = backward' t i up down) ->
  forall t next acc,
    sweep_back dflt backward t next acc = sweep_back dflt backward' t next acc.
Proof.
  intros Hback t; induction t as [|t IH]; intros next acc; simpl; [reflexivity|].
  assert (Hrow : backward_row dflt backward t next
                 = backward_row dflt backward' t next).
  { unfold backward_row; apply map_ext; intros; apply Hback. }
  rewrite Hrow; apply IH.
Qed.

Lemma build_lattice_ext {A : Type} (dflt : A) (terminal terminal' : nat -> A)
    (backward backward' : nat -> nat -> A -> A -> A) (N : nat) :
  (forall i, terminal i = terminal' i) ->
  (forall t i up down, backward t i up down = backward' t i up down) ->
  build_lattice dflt terminal backward N = build_lattice dflt terminal' backward' N.
Proof.
  intros Hterm Hback; unfold build_lattice.
  assert (Htr : terminal_row terminal N = terminal_row terminal' N).
  { unfold terminal_row; apply map_ext; exact Hterm. }
  rewrite Htr; apply sweep_back_ext; exact Hback.
Qed.

Lemma tf_terminal_flag s g dt u d N i :
  let f := tf_flag (tf_terminal s g dt u d N i) in
  is_called f = false /\ is_put f = false.
Proof.
  cbv zeta; unfold tf_terminal.
  destruct (Rgtb _ _); cbn [tf_flag]; [destruct (is_participating s)|]; auto.
Qed.

Lemma stage_convert_flag conv st :
  flag st = HOLD ->
  flag (stage_convert conv st) = HOLD \/ flag (stage_convert conv st) = CONVERT.
Proof.
  intros H; unfold stage_convert; destruct (Rgtb _ _); cbn [flag]; auto.
Qed.

Lemma stage_put_flag can price st :
  is_called (flag st) = false ->
  is_called (flag (stage_put can price st)) = false.
Proof.
  intros H; unfold stage_put; destruct can, price; try exact H.
  destruct (Rgtb _ _); [reflexivity | exact H].
Qed.

Lemma stage_call_flag can price conv st :
  is_put (flag st) = false ->
  is_put (flag (stage_call can price conv st)) = false.
Proof.
  intros H; unfold stage_call; destruct can, price; try exact H.
  destruct (Rltb _ _); [|exact H].
  destruct (Rgtb _ _); reflexivity.
Qed.

Section CallPut.
Variable s : SecuritySchema.
Variable g : list TimeStep.
Variables rf cs : list R.
Variables dt u d : R.
Variable N : nat.

Lemma can_call_no_start :
  call_start_date s = None -> forall t, can_call s g t = false.
Proof.
  intros H t; unfold can_call; rewrite H; apply in_window_no_start.
Qed.

Lemma can_put_no_start :
  put_start_date s = None -> forall t, can_put s g t = false.
Proof.
  intros H t; unfold can_put; rewrite H; apply in_window_no_start.
Qed.

Lemma tf_lattice_call_off :
  call_start_date s = None ->
  tf_lattice s g rf cs dt u d N
  = tf_lattice (set_has_call_option false s) g rf cs dt u d N.
Proof.
  intros H; unfold tf_lattice.
  apply build_lattice_ext; [reflexivity|].
  intros t i up down; unfold tf_backward, tf_decide.
  rewrite (can_call_no_start H).
  reflexivity.
Qed.

Lemma tf_lattice_put_off :
  put_start_date s = None ->
  tf_lattice s g rf cs dt u d N
  = tf_lattice (set_has_put_option false s) g rf cs dt u d N.
Proof.
  intros H; unfold tf_lattice.
  apply build_lattice_ext; [reflexivity|].
  intros t i up down; unfold tf_backward, tf_decide.
  rewrite (can_put_no_start H).
  reflexivity.
Qed.

(** The result only reads the option switches through the lattice. *)
Lemma calculateTF_call_off :
  call_start_date s = None ->
  calculateTF s g rf cs dt u d N
  = calculateTF (set_has_call_option false s) g rf cs dt u d N.
Proof.
  intros H; pose proof (tf_lattice_call_off H) as Hlat.
  unfold calculateTF, tf_node_logs, log_row, total_hybrid_long, total_host_long,
    total_deriv_long, deriv_val_unit, hybrid_val_unit, D_at, E_at, Flags_at.
  rewrite <- Hlat; reflexivity.
Qed.

Lemma calculateTF_put_off :
  put_start_date s = None ->
  calculateTF s g rf cs dt u d N
  = calculateTF (set_has_put_option false s) g rf cs dt u d N.
Proof.
  intros H; pose proof (tf_lattice_put_off H) as Hlat.
  unfold calculateTF, tf_node_logs, log_row, total_hybrid_long, total_host_long,
    total_deriv_long, deriv_val_unit, hybrid_val_unit, D_at, E_at, Flags_at.
  rewrite <- Hlat; reflexivity.
Qed.

Lemma flags_never_called :
  call_start_date s = None ->
  forall t i, (t <= N)%nat -> (i <= t)%nat ->
    is_called (Flags_at s g rf cs dt u d N t i) = false.
Proof.
  intros H; unfold Flags_at, tf_lattice.
  apply (lattice_invariant (tf_dflt s) (tf_terminal s g dt u d N)
           (tf_backward s g rf cs dt u d N)
           (fun n => is_called (tf_flag n) = false)).
  - intros i _; apply tf_terminal_flag.
  - intros t i up down _ _ _ _; unfold tf_backward, tf_decide; cbn [tf_flag].
    rewrite (can_call_no_start H).
    apply stage_put_flag; cbn [stage_call].
    destruct (stage_convert_flag (val_convert_opt s g u d N t i)
                (tf_rollback s rf cs dt u d t up down) eq_refl) as [-> | ->];
      reflexivity.
Qed.

Lemma flags_never_put :
  put_start_date s = None ->
  forall t i, (t <= N)%nat -> (i <= t)%nat ->
    is_put (Flags_at s g rf cs dt u d N t i) = false.
Proof.
  intros H; unfold Flags_at, tf_lattice.
  apply (lattice_invariant (tf_dflt s) (tf_terminal s g dt u d N)
           (tf_backward s g rf cs dt u d N)
           (fun n => is_put (tf_flag n) = false)).
  - intros i _; apply tf_terminal_flag.
  - intros t i up down _ _ _ _; unfold tf_backward, tf_decide; cbn [tf_flag].
    rewrite (can_put_no_start H); cbn [stage_put].
    apply stage_call_flag.
    destruct (stage_convert_flag (val_convert_opt s g u d N t i)
                (tf_rollback s rf cs dt u d t up down) eq_refl) as [-> | ->];
      reflexivity.
Qed.
End CallPut.

(** The window of an option that is switched on, priced and dated: the end
    date defaults to maturity, the start date has no default. *)
Lemma in_window_spec (price : R) (start : Z) (end_date : option Z)
    (maturity stepDate : Z) :
  in_window true (Some price) (Some start) end_date maturity stepDate = true
  <-> (start <= stepDate <= with_default end_date maturity)%Z.
Proof.
  unfold in_window; cbn [andb].
  rewrite andb_true_iff, !Z.leb_le; tauto.
Qed.

(** the window test, spelled out *)
Lemma can_call_in_window (s : SecuritySchema) (g : list TimeStep) (t : nat)
    (c : R) (start : Z) :
  has_call_option s = true -> call_price s = Some c ->
  call_start_date s = Some start ->
  (start <= date (grid_at g t)
   <= with_default (call_end_date s) (maturity_date s))%Z ->
  can_call s g t = true.
Proof.
  intros Hhas Hprice Hstart [Hlo Hhi]; unfold can_call, in_window.
  rewrite Hhas, Hprice, Hstart; cbn [andb].
  apply andb_true_intro; split; apply Z.leb_le; assumption.
Qed.

(** C6.  At a non-terminal node [(t, i)] whose step date lies in the call
    window [[start, end]] (the end date defaulting to maturity), let [held]
    be the cascade after the holder's conversion decision and [called] the
    cascade after the call stage.  If [max (call_price, conv) < V_hold] the
    node value drops to [max (call_price, conv)], with [(D, E) = (0, conv)]
    and flag [CALLED_FORCE_CONV] when [conv > call_price], and
    [(D, E) = (call_price, 0)] and flag [CALLED] otherwise; if
    [max (call_price, conv) >= V_hold] the call leaves the cascade as it
    was.  The node stored in the lattice is [called] after the put stage,
    hence [called] itself where the put is not active. *)
Theorem C6_issuer_call (s : SecuritySchema) (g : list TimeStep)
    (rf cs : list R) (dt u d : R) (N t i : nat) (c : R) (start : Z) :
  (t < N)%nat -> (i <= t)%nat ->
  has_call_option s = true -> call_price s = Some c ->
  call_start_date s = Some start ->
  (start <= date (grid_at g t)
   <= with_default (call_end_date s) (maturity_date s))%Z ->
  let conv := val_convert_opt s g u d N t i in
  let up := at_node (tf_dflt s) (tf_lattice s g rf cs dt u d N) (S t) (S i) in
  let down := at_node (tf_dflt s) (tf_lattice s g rf cs dt u d N) (S t) i in
  let held := stage_convert conv (tf_rollback s rf cs dt u d t up down) in
  let called := stage_call (can_call s g t) (call_price s) conv held in
  let stored := stage_put (can_put s g t) (put_price s) called in
  (Rmax c conv < V_hold held ->
     V_hold called = Rmax c conv /\
     (conv > c ->
        D_final called = 0 /\ E_final called = conv /\
        flag called = CALLED_FORCE_CONV) /\
     (conv <= c ->
        D_final called = c /\ E_final called = 0 /\ flag called = CALLED)) /\
  (V_hold held <= Rmax c conv -> called = held) /\
  (D_at s g rf cs dt u d N t i = D_final stored /\
   E_at s g rf cs dt u d N t i = E_final stored /\
   Flags_at s g rf cs dt u d N t i = flag stored) /\
  (can_put s g t = false -> stored = called).
Proof.
  intros Ht Hi Hhas Hprice Hstart Hwin; cbv zeta.
  pose proof (can_call_in_window s g t c start Hhas Hprice Hstart Hwin) as Hcan.
  rewrite Hcan, Hprice.
  destruct (stage_call_spec c (val_convert_opt s g u d N t i)
              (stage_convert (val_convert_opt s g u d N t i)
                 (tf_rollback s rf cs dt u d t
                    (at_node (tf_dflt s) (tf_lattice s g rf cs dt u d N) (S t) (S i))
                    (at_node (tf_dflt s) (tf_lattice s g rf cs dt u d N) (S t) i))))
    as [Hcall Hkeep].
  split; [exact Hcall|].
  split; [exact Hkeep|].
  split.
  - unfold D_at, E_at, Flags_at, tf_lattice.
    rewrite at_node_backward by assumption.
    unfold tf_backward, tf_decide; cbn [tf_D tf_E tf_flag].
    rewrite Hcan, Hprice. repeat split.
  - intros Hput; rewrite Hput; reflexivity.
Qed.

(** C9.  A security without a call start date is never callable, whatever
    its call switch, call price and call end date: no node is flagged
    [CALLED] or [CALLED_FORCE_CONV], and the result is the result of the same
    security with the call switched off.  Likewise a put without a put start
    date is never exercised. *)
Theorem C9_missing_start_date (s : SecuritySchema) (g : list TimeStep)
    (rf cs : list R) (dt u d : R) (N : nat) :
  (call_start_date s = None ->
     (forall t, can_call s g t = false) /\
     (forall t i, (t <= N)%nat -> (i <= t)%nat ->
        is_called (Flags_at s g rf cs dt u d N t i) = false) /\
     calculateTF s g rf cs dt u d N
       = calculateTF (set_has_call_option false s) g rf cs dt u d N /\
     runPricingEngine s = runPricingEngine (set_has_call_option false s)) /\
  (put_start_date s = None ->
     (forall t, can_put s g t = false) /\
     (forall t i, (t <= N)%nat -> (i <= t)%nat ->
        is_put (Flags_at s g rf cs dt u d N t i) = false) /\
     calculateTF s g rf cs dt u d N
       = calculateTF (set_has_put_option false s) g rf cs dt u d N /\
     runPricingEngine s = runPricingEngine (set_has_put_option false s)).
Proof.
  split; intros H.
  - split; [apply can_call_no_start; exact H|].
    split; [apply flags_never_called; exact H|].
    split; [apply calculateTF_call_off; exact H|].
    rewrite !runPricingEngine_dispatch.
    change (security_type (set_has_call_option false s)) with (security_type s).
    destruct (security_type s);
      first [exact (calculateTF_call_off s _ _ _ _ _ _ _ H) | reflexivity].
  - split; [apply can_put_no_start; exact H|].
    split; [apply flags_never_put; exact H|].
    split; [apply calculateTF_put_off; exact H|].
    rewrite !runPricingEngine_dispatch.
    change (security_type (set_has_put_option false s)) with (security_type s).
    destruct (security_type s);
      first [exact (calculateTF_put_off s _ _ _ _ _ _ _ H) | reflexivity].
Qed.

(** C6 at the root node of the callable sample, priced by the engine: the
    call window [[0, 1095]] is open at step 0, no put is active, and the
    stored node is the cascade after the call stage. *)
Lemma C6_issuer_call_witness :
  let s := callable_rcps in
  let g := engine_grid s in
  let N := engine_N s in
  let conv := val_convert_opt s g (engine_u s) (engine_d s) N 0 0 in
  let lat := tf_lattice s g (engine_rf_t s) (engine_cs_t s) (engine_dt s)
               (engine_u s) (engine_d s) N in
  let held :=
    stage_convert conv
      (tf_rollback s (engine_rf_t s) (engine_cs_t s) (engine_dt s)
         (engine_u s) (engine_d s) 0
         (at_node (tf_dflt s) lat 1 1) (at_node (tf_dflt s) lat 1 0)) in
  let called := stage_call (can_call s g 0) (call_price s) conv held in
  ((0 < N)%nat /\ (0 <= 0)%nat /\ has_call_option s = true
   /\ call_price s = Some 24000 /\ call_start_date s = Some 0%Z
   /\ (0 <= date (grid_at g 0)
       <= with_default (call_end_date s) (maturity_date s))%Z) /\
  (V_hold held <= Rmax 24000 conv -> called = held) /\
  stage_put (can_put s g 0) (put_price s) called = called.
Proof.
  cbv zeta.
  assert (HN : (0 < engine_N callable_rcps)%nat) by apply engine_N_pos.
  assert (Hi : (0 <= 0)%nat) by lia.
  assert (Hhas : has_call_option callable_rcps = true) by reflexivity.
  assert (Hprice : call_price callable_rcps = Some 24000) by reflexivity.
  assert (Hstart : call_start_date callable_rcps = Some 0%Z) by reflexivity.
  assert (Hwin : (0 <= date (grid_at (engine_grid callable_rcps) 0)
                  <= with_default (call_end_date callable_rcps)
                       (maturity_date callable_rcps))%Z)
    by (split; apply Z.leb_le; reflexivity).
  pose proof (C6_issuer_call callable_rcps (engine_grid callable_rcps)
                (engine_rf_t callable_rcps) (engine_cs_t callable_rcps)
                (engine_dt callable_rcps) (engine_u callable_rcps)
                (engine_d callable_rcps) (engine_N callable_rcps) 0 0 24000 0%Z
                HN Hi Hhas Hprice Hstart Hwin) as W.
  cbv zeta in W; destruct W as (_ & Hkeep & _ & Hput).
  split; [repeat split; try assumption; apply Hwin|].
  split; [exact Hkeep|].
  apply Hput; reflexivity.
Defined.

(** C9 on the sample whose call and put carry a price and an end date but
    no start date. *)
Lemma C9_missing_start_date_witness :
  let s := undated_options_rcps in
  (has_call_option s = true /\ call_price s = Some 24000
   /\ call_start_date s = None /\ put_start_date s = None) /\
  runPricingEngine s = runPricingEngine (set_has_call_option false s) /\
  runPricingEngine s = runPricingEngine (set_has_put_option false s) /\
  (forall t i, (t <= engine_N s)%nat -> (i <= t)%nat ->
     is_called (Flags_at s (engine_grid s) (engine_rf_t s) (engine_cs_t s)
                  (engine_dt s) (engine_u s) (engine_d s) (engine_N s) t i)
     = false).
Proof.
  cbv zeta.
  destruct (C9_missing_start_date undated_options_rcps
              (engine_grid undated_options_rcps)
              (engine_rf_t undated_options_rcps)
              (engine_cs_t undated_options_rcps)
              (engine_dt undated_options_rcps) (engine_u undated_options_rcps)
              (engine_d undated_options_rcps) (engine_N undated_options_rcps))
    as [Hcall Hput].
  destruct (Hcall eq_refl) as (_ & Hflags & _ & Hrun).
  destruct (Hput eq_refl) as (_ & _ & _ & Hrun').
  split; [repeat split|].
  split; [exact Hrun|].
  split; [exact Hrun'|exact Hflags].
Defined.

(** C10 on the sample RCPS, held and issued: 50,000 shares, and the
    issuer's total is the negated holder's total. *)
Lemma C10_unit_components_witness :
  let issued := set_position ISSUER sample_rcps in
  security_type issued <> ESO /\
  (tf_debt_component (runPricingEngine issued)
   + tf_equity_component (runPricingEngine issued)) * 50000 * -1
  = fair_value_total (runPricingEngine issued) /\
  (tf_debt_component (runPricingEngine sample_rcps)
   + tf_equity_component (runPricingEngine sample_rcps)) * 50000 * 1
  = fair_value_total (runPricingEngine sample_rcps).
Proof.
  cbv zeta.
  assert (H : security_type (set_position ISSUER sample_rcps) <> ESO)
    by discriminate.
  assert (H' : security_type sample_rcps <> ESO) by discriminate.
  split; [exact H|].
  pose proof (C10_unit_components (set_position ISSUER sample_rcps) H) as W.
  pose proof (C10_unit_components sample_rcps H') as W'.
  cbv zeta in W, W'.
  destruct W as (_ & _ & _ & W & _); destruct W' as (_ & _ & _ & W' & _).
  split; [exact W | exact W'].
Defined.

(** ** The refixing schedule *)

Lemma or_default_pos (x : option R) (fallback : R) :
  (forall v, x = Some v -> 0 <= v) -> 0 < fallback -> 0 < or_default x fallback.
Proof.
  intros Hx Hf; unfold or_default; destruct x as [v|]; [|exact Hf].
  destruct (truthy v) eqn:Hv; [|exact Hf].
  apply truthy_true in Hv; specialize (Hx v eq_refl); lra.
Qed.

(** the broad-based weighted average lies between [0] and the old price *)
Lemma weighted_average_bounds (CP SP SO SN : R) :
  0 <= SP -> SP < CP -> 0 < SO -> 0 <= SN ->
  0 <= CP * ((SO + (SP / CP) * SN) / (SO + SN)) <= CP.
Proof.
  intros HSP Hlt HSO HSN.
  assert (HCP : 0 < CP) by lra.
  assert (Hrho : 0 <= SP / CP < 1).
  { split.
    - apply Rmult_le_pos; [lra | left; apply Rinv_0_lt_compat; lra].
    - apply (Rmult_lt_reg_r CP); [lra|].
      unfold Rdiv; rewrite Rmult_assoc, Rinv_l by lra; lra. }
  set (rho := SP / CP) in *.
  assert (Hden : 0 < SO + SN) by lra.
  assert (Hnum : 0 < SO + rho * SN <= SO + SN) by nra.
  assert (Hq : 0 <= (SO + rho * SN) / (SO + SN) <= 1).
  { split.
    - apply Rmult_le_pos; [lra | left; apply Rinv_0_lt_compat; lra].
    - apply (Rmult_le_reg_r (SO + SN)); [lra|].
      unfold Rdiv; rewrite Rmult_assoc, Rinv_l by lra; lra. }
  nra.
Qed.

Section Refixing.
Variable s : SecuritySchema.
Variable g : list TimeStep.

Lemma refix_sweep_length (ts : list nat) :
  forall cp pending, length (refix_sweep s g ts cp pending) = length ts.
Proof.
  induction ts as [|t ts IH]; intros cp pending; simpl; [reflexivity|].
  destruct (consume_events s (date (grid_at g t)) cp pending) as [cp' pending'].
  simpl; now rewrite IH.
Qed.

Lemma cp_at_step_length (N : nat) : length (cp_at_step s g N) = S N.
Proof.
  unfold cp_at_step.
  destruct (negb _ && _).
  - now rewrite refix_sweep_length, length_seq.
  - apply repeat_length.
Qed.

(** *** The floor *)

Lemma apply_floor_ge (fl cp : R) :
  refixing_floor_price s = Some fl -> fl <> 0 -> fl <= apply_floor s cp.
Proof.
  intros Hfl Hnz; unfold apply_floor; rewrite Hfl.
  rewrite (proj2 (truthy_true fl) Hnz); cbn [andb].
  case_cmp; lra.
Qed.

Lemma apply_floor_ge_self (cp : R) : cp <= apply_floor s cp.
Proof.
  unfold apply_floor; destruct (refixing_floor_price s) as [fl|]; [|lra].
  destruct (truthy fl); cbn [andb]; [case_cmp|]; lra.
Qed.

Lemma apply_floor_monotone (x y : R) :
  x <= y -> apply_floor s x <= apply_floor s y.
Proof.
  intros Hxy; unfold apply_floor.
  destruct (refixing_floor_price s) as [fl|]; [|lra].
  destruct (truthy fl); cbn [andb]; [|lra].
  do 2 case_cmp; lra.
Qed.

Lemma apply_floor_idem (x : R) : apply_floor s (apply_floor s x) = apply_floor s x.
Proof.
  unfold apply_floor.
  destruct (refixing_floor_price s) as [fl|]; [|reflexivity].
  destruct (truthy fl); cbn [andb]; [|reflexivity].
  case_cmp; case_cmp; try reflexivity; lra.
Qed.

(** an event leaves the price alone or leaves it at or above the floor *)
Lemma apply_event_floor (fl cp : R) (e : ResetEvent) :
  refixing_floor_price s = Some fl -> fl <> 0 ->
  apply_event s cp e = cp \/ fl <= apply_event s cp e.
Proof.
  intros Hfl Hnz; unfold apply_event.
  destruct (Rltb (issue_price_new e) cp); [right | left; reflexivity].
  now apply apply_floor_ge.
Qed.

Lemma consume_events_floor (fl : R) (stepDate : Z) (pending : list ResetEvent) :
  refixing_floor_price s = Some fl -> fl <> 0 ->
  forall cp,
    fst (consume_events s stepDate cp pending) = cp \/
    fl <= fst (consume_events s stepDate cp pending).
Proof.
  intros Hfl Hnz; induction pending as [|e rest IH]; intros cp; simpl;
    [left; reflexivity|].
  destruct (event_date e <=? stepDate)%Z; [|left; reflexivity].
  destruct (IH (apply_event s cp e)) as [Heq|Hge]; [|right; exact Hge].
  rewrite Heq; now apply apply_event_floor.
Qed.

Lemma refix_sweep_floor (fl cp0 : R) (ts : list nat) :
  refixing_floor_price s = Some fl -> fl <> 0 ->
  forall cp pending,
    cp = cp0 \/ fl <= cp ->
    Forall (fun x => x = cp0 \/ fl <= x) (refix_sweep s g ts cp pending).
Proof.
  intros Hfl Hnz; induction ts as [|t ts IH]; intros cp pending Hcp; simpl;
    [constructor|].
  pose proof (consume_events_floor fl (date (grid_at g t)) pending Hfl Hnz cp)
    as Hstep.
  destruct (consume_events s (date (grid_at g t)) cp pending) as [cp' pending'].
  cbn [fst] in Hstep.
  assert (Hcp' : cp' = cp0 \/ fl <= cp').
  { destruct Hstep as [->|Hge]; [exact Hcp | right; exact Hge]. }
  constructor; [exact Hcp' | apply IH; exact Hcp'].
Qed.

Lemma cp_eff_floor (N : nat) (fl : R) :
  refixing_floor_price s = Some fl -> fl <> 0 ->
  forall t, (t <= N)%nat ->
    cp_eff s g N t = conversion_price s \/ fl <= cp_eff s g N t.
Proof.
  intros Hfl Hnz t Ht.
  assert (Hall : Forall (fun x => x = conversion_price s \/ fl <= x)
                   (cp_at_step s g N)).
  { unfold cp_at_step; destruct (negb _ && _).
    - apply refix_sweep_floor; auto.
    - apply Forall_forall; intros x Hx; apply repeat_spec in Hx; now left. }
  unfold cp_eff.
  apply (proj1 (Forall_forall _ _) Hall), nth_In.
  rewrite cp_at_step_length; lia.
Qed.

(** where the floor does not exceed the initial price, it never binds on a
    price of the schedule *)
Lemma apply_floor_cp_eff (N : nat) :
  floor_below_cp s ->
  forall t, (t <= N)%nat -> apply_floor s (cp_eff s g N t) = cp_eff s g N t.
Proof.
  intros Hfloor t Ht; unfold apply_floor.
  destruct (refixing_floor_price s) as [fl|] eqn:Hfl; [|reflexivity].
  destruct (truthy fl) eqn:Htr; cbn [andb]; [|reflexivity].
  apply truthy_true in Htr.
  pose proof (Hfloor fl Hfl Htr) as Hcp.
  destruct (cp_eff_floor N fl Hfl Htr t Ht) as [Heq|Hge];
    case_cmp; try reflexivity; lra.
Qed.

(** *** Down rounds only lower the price, up to the floor *)

Lemma apply_event_le (cp : R) (e : ResetEvent) :
  (anti_dilution_type s = WA_DOWN_ONLY -> 0 <= cp /\ event_ok e) ->
  apply_event s cp e <= apply_floor s cp /\
  (anti_dilution_type s = WA_DOWN_ONLY -> 0 <= apply_event s cp e).
Proof.
  intros Hwa; unfold apply_event.
  case_cmp;
    [|split; [apply apply_floor_ge_self | intros Ha; exact (proj1 (Hwa Ha))]].
  assert (Hcp1 :
    match anti_dilution_type s with
    | NONE => cp
    | FULL_RATCHET => issue_price_new e
    | WA_DOWN_ONLY =>
        cp * ((or_default (shares_outstanding_before_reset e) 1000000
               + issue_price_new e / cp * issue_shares_new e)
              / (or_default (shares_outstanding_before_reset e) 1000000
                 + issue_shares_new e))
    end <= cp /\
    (anti_dilution_type s = WA_DOWN_ONLY ->
     0 <= match anti_dilution_type s with
          | NONE => cp
          | FULL_RATCHET => issue_price_new e
          | WA_DOWN_ONLY =>
              cp * ((or_default (shares_outstanding_before_reset e) 1000000
                     + issue_price_new e / cp * issue_shares_new e)
                    / (or_default (shares_outstanding_before_reset e) 1000000
                       + issue_shares_new e))
          end)).
  { destruct (anti_dilution_type s) eqn:Ha.
    - split; [lra | discriminate].
    - split; [lra | discriminate].
    - destruct (Hwa eq_refl) as (Hcp & HSP & HSN & HSO).
      assert (HSO' : 0 < or_default (shares_outstanding_before_reset e) 1000000).
      { apply or_default_pos; [exact HSO | lra]. }
      pose proof (weighted_average_bounds cp (issue_price_new e)
                    (or_default (shares_outstanding_before_reset e) 1000000)
                    (issue_shares_new e) HSP Hcmp HSO' HSN) as Hb.
      split; [lra | intros _; lra]. }
  cbv zeta; destruct Hcp1 as [Hle Hpos]; split.
  - now apply apply_floor_monotone.
  - intros Ha; eapply Rle_trans; [exact (Hpos Ha) | apply apply_floor_ge_self].
Qed.

Lemma consume_events_le (stepDate : Z) (pending : list ResetEvent) :
  forall cp,
    (anti_dilution_type s = WA_DOWN_ONLY ->
     0 <= cp /\ Forall event_ok pending) ->
    fst (consume_events s stepDate cp pending) <= apply_floor s cp /\
    (anti_dilution_type s = WA_DOWN_ONLY ->
     0 <= fst (consume_events s stepDate cp pending) /\
     Forall event_ok (snd (consume_events s stepDate cp pending))).
Proof.
  induction pending as [|e rest IH]; intros cp Hwa; simpl.
  - split; [apply apply_floor_ge_self | exact Hwa].
  - destruct (event_date e <=? stepDate)%Z;
      [|split; [apply apply_floor_ge_self | exact Hwa]].
    destruct (apply_event_le cp e) as [Hle Hpos].
    { intros Ha; destruct (Hwa Ha) as [Hcp Hok]; split;
        [exact Hcp | now inversion Hok]. }
    destruct (IH (apply_event s cp e)) as [Hle' Hrest].
    { intros Ha; destruct (Hwa Ha) as [_ Hok]; split;
        [exact (Hpos Ha) | now inversion Hok]. }
    split; [|exact Hrest].
    eapply Rle_trans; [exact Hle'|].
    rewrite <- (apply_floor_idem cp); now apply apply_floor_monotone.
Qed.

(** each swept price is at most the one before it, lifted to the floor *)
Lemma refix_sweep_le (ts : list nat) :
  forall cp pending,
    (anti_dilution_type s = WA_DOWN_ONLY ->
     0 <= cp /\ Forall event_ok pending) ->
    let l := refix_sweep s g ts cp pending in
    nth 0 l cp <= apply_floor s cp /\
    forall t, (S t < length l)%nat -> nth (S t) l 0 <= apply_floor s (nth t l 0).
Proof.
  induction ts as [|t0 ts IH]; intros cp pending Hwa; simpl.
  - split; [apply apply_floor_ge_self | intros; simpl in *; lia].
  - destruct (consume_events_le (date (grid_at g t0)) pending cp Hwa)
      as [Hle Hwa'].
    destruct (consume_events s (date (grid_at g t0)) cp pending)
      as [cp' pending'] eqn:Hc; cbn [fst snd] in *.
    destruct (IH cp' pending' Hwa') as [Hhead Hadj].
    split; [exact Hle|].
    intros t Ht; destruct t as [|t]; cbn [nth].
    + cbn [length] in Ht.
      rewrite (nth_indep _ 0 cp') by lia.
      exact Hhead.
    + apply Hadj; cbn [length] in Ht; lia.
Qed.

Lemma sort_events_ok (l : list ResetEvent) :
  Forall event_ok l -> Forall event_ok (sort_events l).
Proof.
  assert (Hins : forall e l', event_ok e -> Forall event_ok l' ->
                              Forall event_ok (insert_event e l')).
  { intros e l' He; induction l' as [|x l' IH]; intros Hl'; simpl.
    - now constructor.
    - destruct (event_date e <=? event_date x)%Z.
      + now constructor.
      + inversion Hl'; subst; constructor; auto. }
  induction l as [|e l IH]; intros Hl; simpl; [constructor|].
  inversion Hl; subst; auto.
Qed.

Lemma cp_eff_step (N : nat) :
  wa_inputs_ok s ->
  forall t, (t < N)%nat ->
    cp_eff s g N (S t) <= apply_floor s (cp_eff s g N t).
Proof.
  intros Hwa t Ht; unfold cp_eff, cp_at_step.
  destruct (negb _ && _).
  - destruct (refix_sweep_le (seq 0 (S N)) (conversion_price s)
                (sort_events (with_default (reset_events s) []))) as [_ Hadj].
    { intros Ha; destruct (Hwa Ha) as [Hcp Hok]; split;
        [exact Hcp | now apply sort_events_ok]. }
    apply Hadj; rewrite refix_sweep_length, length_seq; lia.
  - rewrite !(nth_indep _ 0 (conversion_price s)) by (rewrite repeat_length; lia).
    rewrite !nth_repeat; apply apply_floor_ge_self.
Qed.
End Refixing.

(** C5 (as amended).  When a floor is set, the effective conversion price of
    a step is the initial conversion price (no reset event has lowered it
    yet) or lies at or above the floor; hence it lies at or above the floor
    at every step when the initial conversion price does. *)
Theorem C5_floor_clamp (s : SecuritySchema) (g : list TimeStep) (N : nat) (fl : R) :
  refixing_floor_price s = Some fl -> fl <> 0 ->
  forall t, (t <= N)%nat ->
    (cp_eff s g N t = conversion_price s \/ fl <= cp_eff s g N t) /\
    (fl <= conversion_price s -> fl <= cp_eff s g N t).
Proof.
  intros Hfl Hnz t Ht.
  pose proof (cp_eff_floor s g N fl Hfl Hnz t Ht) as H.
  split; [exact H|].
  intros Hcp; destruct H as [->|Hge]; assumption.
Qed.

(** C4 (as amended).  Under the weighted-average policy let the initial
    conversion price, the prices and the share counts of the reset events
    be non-negative.  Then from one step to the next the effective
    conversion price does not rise above [max (cp_eff[t], floor)] (above
    [cp_eff[t]] when no floor is set); hence the schedule is monotone
    non-increasing when the floor, if set, does not exceed the initial
    conversion price. *)
Theorem C4_refixing_monotone (s : SecuritySchema) (g : list TimeStep) (N : nat) :
  wa_inputs_ok s ->
  forall t, (t < N)%nat ->
    cp_eff s g N (S t) <= apply_floor s (cp_eff s g N t) /\
    (floor_below_cp s -> cp_eff s g N (S t) <= cp_eff s g N t).
Proof.
  intros Hwa t Ht.
  pose proof (cp_eff_step s g N Hwa t Ht) as Hstep.
  split; [exact Hstep|].
  intros Hfloor.
  rewrite (apply_floor_cp_eff s g N Hfloor t) in Hstep by lia.
  exact Hstep.
Qed.

(** Evaluate the comparisons of concrete numbers that stand in the goal. *)
Ltac decide_cmp :=
  repeat match goal with
  | |- context [Rltb ?a ?b] =>
      first [rewrite (proj2 (Rltb_true a b)) by lra
            |rewrite (proj2 (Rltb_false a b)) by lra]
  | |- context [Rgtb ?a ?b] =>
      first [rewrite (proj2 (Rgtb_true a b)) by lra
            |rewrite (proj2 (Rgtb_false a b)) by lra]
  | |- context [truthy ?a] =>
      rewrite (proj2 (truthy_true a)) by (intro; lra)
  end.

(** The schedule of [floor_above_cp_rcps]: 10,000 at the valuation date;
    at the next step the down round at 5,000 has fired and the floor has
    lifted the price to 14,000. *)
Lemma floor_above_cp_schedule :
  cp_at_step floor_above_cp_rcps (engine_grid floor_above_cp_rcps)
    (engine_N floor_above_cp_rcps) = [10000; 14000].
Proof.
  change (engine_N floor_above_cp_rcps) with 1%nat.
  change (engine_grid floor_above_cp_rcps)
    with [mkTimeStep 0 0 (getDateDiffYears 0 0);
          mkTimeStep 1 7 (getDateDiffYears 0 7)].
  unfold cp_at_step.
  cbn [floor_above_cp_rcps anti_dilution_type reset_events with_default
       AntiDilutionType_eqb negb andb length Nat.ltb Nat.leb conversion_price
       sort_events fold_right insert_event seq refix_sweep grid_at nth date
       consume_events event_date Z.leb Z.compare Pos.compare Pos.compare_cont].
  unfold apply_event, apply_floor.
  cbn [floor_above_cp_rcps anti_dilution_type issue_price_new
       refixing_floor_price].
  decide_cmp; cbn [andb].
  reflexivity.
Qed.

(** Scenario S3 of the specification: a full ratchet from 20,000 to a new
    issue at 15,000, above the floor of 14,000; and the same down round at
    12,000, which the floor stops at 14,000. *)
Example full_ratchet_to_15000 :
  apply_event sample_rcps 20000 (mkResetEvent 30 15000 10000 None) = 15000.
Proof.
  unfold apply_event, apply_floor.
  cbn [sample_rcps anti_dilution_type issue_price_new refixing_floor_price].
  decide_cmp; cbn [andb]; reflexivity.
Qed.

Example full_ratchet_stops_at_floor :
  apply_event sample_rcps 20000 (mkResetEvent 30 12000 10000 None) = 14000.
Proof.
  unfold apply_event, apply_floor.
  cbn [sample_rcps anti_dilution_type issue_price_new refixing_floor_price].
  decide_cmp; cbn [andb]; reflexivity.
Qed.

(** The broad-based weighted average of 20,000 with 1,000,000 shares
    outstanding and 10,000 new shares at 15,000. *)
Example weighted_average_of_sample :
  apply_event weighted_average_rcps 20000
    (mkResetEvent 30 15000 10000 (Some 1000000))
  = 2015000 / 101.
Proof.
  unfold apply_event, apply_floor, or_default.
  cbn [weighted_average_rcps anti_dilution_type issue_price_new
       issue_shares_new shares_outstanding_before_reset refixing_floor_price].
  decide_cmp; cbv zeta.
  assert (E : 20000 * ((1000000 + 15000 / 20000 * 10000) / (1000000 + 10000))
              = 2015000 / 101) by (field; lra).
  rewrite E; decide_cmp; cbn [andb]; reflexivity.
Qed.

(** The cascade on numbers: a holder who would convert at 30,000 against a
    continuation of 35,000 is called at 24,000 and converts; against a
    continuation of 28,000 the holder has already converted and the call
    changes nothing. *)
Example call_forces_conversion :
  stage_call true (Some 24000) 30000
    (stage_convert 30000 (mkDecision 35000 21000 14000 HOLD))
  = mkDecision 30000 0 30000 CALLED_FORCE_CONV.
Proof.
  unfold stage_convert, stage_call; cbn [V_hold].
  decide_cmp; cbn [V_hold].
  rewrite Rmax_right by lra.
  decide_cmp; reflexivity.
Qed.

Example call_after_conversion :
  stage_call true (Some 24000) 30000
    (stage_convert 30000 (mkDecision 28000 21000 7000 HOLD))
  = mkDecision 30000 0 30000 CONVERT.
Proof.
  unfold stage_convert, stage_call; cbn [V_hold].
  decide_cmp; cbn [V_hold].
  rewrite Rmax_right by lra.
  decide_cmp; reflexivity.
Qed.

Example call_pays_cash :
  stage_call true (Some 24000) 18000
    (stage_convert 18000 (mkDecision 26000 21000 5000 HOLD))
  = mkDecision 24000 24000 0 CALLED.
Proof.
  unfold stage_convert, stage_call; cbn [V_hold].
  decide_cmp; cbn [V_hold].
  rewrite Rmax_left by lra.
  decide_cmp; reflexivity.
Qed.

(** C4 as stated fails: with the floor above the initial conversion price,
    the first down round lifts the effective price from 10,000 to 14,000. *)
Lemma C4_refixing_monotone_counterexample :
  (0 < engine_N floor_above_cp_rcps)%nat /\
  cp_eff floor_above_cp_rcps (engine_grid floor_above_cp_rcps)
    (engine_N floor_above_cp_rcps) 0
  < cp_eff floor_above_cp_rcps (engine_grid floor_above_cp_rcps)
      (engine_N floor_above_cp_rcps) 1.
Proof.
  split; [apply engine_N_pos|].
  unfold cp_eff; rewrite floor_above_cp_schedule; cbn [nth]; lra.
Qed.

(** C5 as stated fails: before the down round the effective price is the
    initial 10,000, below the floor of 14,000. *)
Lemma C5_floor_clamp_counterexample :
  refixing_floor_price floor_above_cp_rcps = Some 14000 /\
  cp_eff floor_above_cp_rcps (engine_grid floor_above_cp_rcps)
    (engine_N floor_above_cp_rcps) 0 < 14000.
Proof.
  split; [reflexivity|].
  unfold cp_eff; rewrite floor_above_cp_schedule; cbn [nth]; lra.
Qed.

Lemma weighted_average_rcps_ok :
  floor_below_cp weighted_average_rcps /\ wa_inputs_ok weighted_average_rcps.
Proof.
  split.
  - intros fl H _; cbn [weighted_average_rcps refixing_floor_price] in H.
    injection H as <-; cbn [weighted_average_rcps conversion_price]; lra.
  - intros _; split; [cbn [weighted_average_rcps conversion_price]; lra|].
    cbn [weighted_average_rcps reset_events with_default].
    constructor; [|constructor].
    unfold event_ok;
      cbn [issue_price_new issue_shares_new shares_outstanding_before_reset].
    split; [lra | split; [lra|]].
    intros so H; injection H as <-; lra.
Qed.

(** C4 on the weighted-average sample, between the steps of day 28 and of
    day 35, where its down round of day 30 fires. *)
Lemma C4_refixing_monotone_witness :
  (wa_inputs_ok weighted_average_rcps
   /\ (4 < engine_N weighted_average_rcps)%nat
   /\ floor_below_cp weighted_average_rcps) /\
  cp_eff weighted_average_rcps (engine_grid weighted_average_rcps)
    (engine_N weighted_average_rcps) 5
  <= cp_eff weighted_average_rcps (engine_grid weighted_average_rcps)
       (engine_N weighted_average_rcps) 4.
Proof.
  destruct weighted_average_rcps_ok as [Hfloor Hwa].
  assert (HN : (4 < engine_N weighted_average_rcps)%nat).
  { assert (E : engine_N weighted_average_rcps = 157%nat) by reflexivity.
    rewrite E; lia. }
  split; [split; [exact Hwa | split; [exact HN | exact Hfloor]]|].
  exact (proj2 (C4_refixing_monotone weighted_average_rcps
                  (engine_grid weighted_average_rcps)
                  (engine_N weighted_average_rcps) Hwa 4%nat HN) Hfloor).
Defined.

(** C5 on the sample RCPS: floor 14,000, conversion price 20,000. *)
Lemma C5_floor_clamp_witness :
  (refixing_floor_price sample_rcps = Some 14000 /\ 14000 <> 0
   /\ (0 <= engine_N sample_rcps)%nat
   /\ 14000 <= conversion_price sample_rcps) /\
  14000 <= cp_eff sample_rcps (engine_grid sample_rcps) (engine_N sample_rcps) 0.
Proof.
  assert (H1 : refixing_floor_price sample_rcps = Some 14000) by reflexivity.
  assert (H2 : 14000 <> 0) by lra.
  assert (H3 : 14000 <= conversion_price sample_rcps)
    by (cbn [sample_rcps conversion_price]; lra).
  assert (H4 : (0 <= engine_N sample_rcps)%nat) by lia.
  split; [repeat split; assumption|].
  exact (proj2 (C5_floor_clamp sample_rcps (engine_grid sample_rcps)
                  (engine_N sample_rcps) 14000 H1 H2 0%nat H4) H3).
Defined.

(** ** The sampled node logs *)

Lemma map_flat_map {A B C : Type} (f : B -> C) (k : A -> list B) (l : list A) :
  map f (flat_map k l) = flat_map (fun x => map f (k x)) l.
Proof.
  induction l as [|x l IH]; simpl; [reflexivity|].
  now rewrite map_app, IH.
Qed.

Lemma in_nodes_upto (m t i : nat) :
  In (t, i) (nodes_upto m) <-> (t <= m)%nat /\ (i <= t)%nat.
Proof.
  unfold nodes_upto; rewrite in_flat_map; split.
  - intros (t' & Ht' & Hin).
    apply in_map_iff in Hin; destruct Hin as (i' & Heq & Hi').
    inversion Heq; subst.
    apply in_seq in Ht'; apply in_seq in Hi'; lia.
  - intros [Ht Hi]; exists t; split; [apply in_seq; lia|].
    apply in_map_iff; exists i; split; [reflexivity | apply in_seq; lia].
Qed.

Lemma nodes_upto_S (m : nat) :
  nodes_upto (S m) = nodes_upto m ++ map (pair (S m)) (seq 0 (S (S m))).
Proof.
  unfold nodes_upto.
  assert (E : seq 0 (S (S m)) = seq 0 (S m) ++ [S m]) by apply seq_S.
  rewrite E at 1; rewrite flat_map_app; cbn [flat_map].
  now rewrite app_nil_r.
Qed.

Lemma NoDup_nodes_upto (m : nat) : NoDup (nodes_upto m).
Proof.
  assert (Hrow : forall t n : nat, NoDup (map (pair t) (seq 0 n))).
  { intros t n; generalize (seq_NoDup n 0).
    induction 1 as [|x l Hx Hl IHl]; cbn [map]; constructor; [|exact IHl].
    intros Hin; apply in_map_iff in Hin; destruct Hin as (y & Heq & Hy).
    inversion Heq; subst; contradiction. }
  induction m as [|m IH].
  - unfold nodes_upto; cbn [seq flat_map]; rewrite app_nil_r; apply (Hrow 0%nat 1%nat).
  - rewrite nodes_upto_S; apply NoDup_app; [exact IH | apply Hrow |].
    intros [t i] Hin Hin'.
    apply in_nodes_upto in Hin.
    apply in_map_iff in Hin'; destruct Hin' as (i' & Heq & _).
    inversion Heq; lia.
Qed.

Lemma tf_node_logs_nodes s g rf cs dt u d N :
  map (fun row => (log_t row, log_i row)) (tf_node_logs s g rf cs dt u d N)
  = nodes_upto (Nat.min N 5).
Proof.
  unfold tf_node_logs, nodes_upto; rewrite map_flat_map.
  apply flat_map_ext; intros t; rewrite map_map.
  apply map_ext; intros i; reflexivity.
Qed.

(** C7 (as amended).  The result of a TF security (RCPS, CB, CPS) logs
    exactly the nodes [(t, i)] with [t <= min (N, 5)] and [i <= t], each
    once; the result of an ESO carries no node log. *)
Theorem C7_node_logs (s : SecuritySchema) :
  let logged :=
    map (fun row => (log_t row, log_i row)) (node_logs (runPricingEngine s)) in
  match security_type s with
  | ESO => node_logs (runPricingEngine s) = []
  | _ =>
      logged = nodes_upto (Nat.min (engine_N s) 5) /\
      (forall t i,
         In (t, i) logged <-> (t <= Nat.min (engine_N s) 5)%nat /\ (i <= t)%nat) /\
      NoDup logged
  end.
Proof.
  cbv zeta; rewrite runPricingEngine_dispatch.
  destruct (security_type s); try reflexivity;
    cbn [calculateTF node_logs]; rewrite tf_node_logs_nodes;
    (split; [reflexivity | split; [intros; apply in_nodes_upto | apply NoDup_nodes_upto]]).
Qed.

(** C7 as stated fails for an ESO: the lattice has a root node, the log is
    empty. *)
Lemma C7_node_logs_counterexample :
  security_type sample_eso = ESO /\
  (0 <= Nat.min (engine_N sample_eso) 5)%nat /\
  node_logs (runPricingEngine sample_eso) = [].
Proof.
  split; [reflexivity | split; [lia|]].
  rewrite runPricingEngine_dispatch; reflexivity.
Qed.

(** ** A security valued at or after its maturity *)

Lemma matured_grid (s : SecuritySchema) :
  (maturity_date s <= valuation_date s)%Z ->
  engine_grid s
  = [mkTimeStep 0 (valuation_date s) 0;
     mkTimeStep 1 (valuation_date s) (27 / 10000)].
Proof.
  intros H; unfold engine_grid, generateTimeGrid.
  destruct (Z.leb_spec (maturity_date s) (valuation_date s)); [reflexivity | lia].
Qed.

Lemma matured_params (s : SecuritySchema) :
  (maturity_date s <= valuation_date s)%Z ->
  engine_N s = 1%nat /\ engine_dt s = 27 / 10000.
Proof.
  intros H.
  assert (HN : engine_N s = 1%nat) by (unfold engine_N; now rewrite matured_grid).
  split; [exact HN|].
  unfold engine_dt; rewrite HN, matured_grid by exact H.
  cbn [grid_at nth t_years]; rewrite INR_1; lra.
Qed.

(** C3 (as amended).  A security whose maturity is at or before the
    valuation date gets the two-point grid with year fractions [0] and
    [0.0027]; hence [N = 1] and [dt = 0.0027], the [N <= 0] branch is not
    taken, and the security is priced on a one-step lattice: the result
    records [N = 1] and [dt = 0.0027], and for a TF security it logs the
    three nodes of that lattice. *)
Theorem C3_matured_security (s : SecuritySchema) :
  (maturity_date s <= valuation_date s)%Z ->
  let grid := [mkTimeStep 0 (valuation_date s) 0;
               mkTimeStep 1 (valuation_date s) (27 / 10000)] in
  generateTimeGrid (valuation_date s) (maturity_date s) = grid /\
  runPricingEngine s
  = match security_type s with
    | ESO => calculateESO s grid (engine_rf_t s) (27 / 10000)
               (engine_u s) (engine_d s) 1
    | _ => calculateTF s grid (engine_rf_t s) (engine_cs_t s) (27 / 10000)
             (engine_u s) (engine_d s) 1
    end /\
  meta_N (meta (runPricingEngine s)) = 1%nat /\
  meta_dt (meta (runPricingEngine s)) = 27 / 10000 /\
  (security_type s <> ESO -> length (node_logs (runPricingEngine s)) = 3%nat).
Proof.
  intros H; cbv zeta.
  destruct (matured_params s H) as [HN Hdt].
  pose proof (matured_grid s H) as Hgrid.
  assert (Hrun : runPricingEngine s
                 = match security_type s with
                   | ESO => calculateESO s
                              [mkTimeStep 0 (valuation_date s) 0;
                               mkTimeStep 1 (valuation_date s) (27 / 10000)]
                              (engine_rf_t s) (27 / 10000)
                              (engine_u s) (engine_d s) 1
                   | _ => calculateTF s
                            [mkTimeStep 0 (valuation_date s) 0;
                             mkTimeStep 1 (valuation_date s) (27 / 10000)]
                            (engine_rf_t s) (engine_cs_t s) (27 / 10000)
                            (engine_u s) (engine_d s) 1
                   end).
  { rewrite runPricingEngine_dispatch, Hgrid, HN, Hdt; reflexivity. }
  split; [exact Hgrid|].
  split; [exact Hrun|].
  rewrite Hrun.
  destruct (security_type s); cbn [calculateTF calculateESO meta meta_N meta_dt node_logs];
    (split; [reflexivity | split; [reflexivity|]]); intros Hty;
    try reflexivity; congruence.
Qed.

(** C3 on the convertible bond valued on its maturity date. *)
Lemma C3_matured_security_witness :
  (maturity_date matured_cb <= valuation_date matured_cb)%Z /\
  meta_N (meta (runPricingEngine matured_cb)) = 1%nat /\
  meta_dt (meta (runPricingEngine matured_cb)) = 27 / 10000.
Proof.
  assert (H : (maturity_date matured_cb <= valuation_date matured_cb)%Z)
    by (cbn [matured_cb maturity_date valuation_date]; lia).
  split; [exact H|].
  pose proof (C3_matured_security matured_cb H) as W.
  cbv zeta in W; destruct W as (_ & _ & HN & Hdt & _).
  split; [exact HN | exact Hdt].
Defined.

(** ** Signs of the node values *)

Lemma convex_nonneg (q a b : R) :
  0 <= q <= 1 -> 0 <= a -> 0 <= b -> 0 <= q * a + (1 - q) * b.
Proof. intros; nra. Qed.

Lemma convex_pos (q a b : R) :
  0 <= q <= 1 -> 0 < a -> 0 < b -> 0 < q * a + (1 - q) * b.
Proof.
  intros Hq Ha Hb.
  destruct (Rle_lt_dec q 0) as [Hq0|Hq0]; [assert (q = 0) by lra; subst; lra|].
  assert (0 < q * a) by (apply Rmult_lt_0_compat; lra).
  assert (0 <= (1 - q) * b) by (apply Rmult_le_pos; lra).
  lra.
Qed.

Lemma discounted_pos (D E dfr dff : R) :
  0 <= D -> 0 <= E -> 0 < D + E -> 0 < dfr -> 0 < dff ->
  0 < D * dfr + E * dff.
Proof.
  intros HD HE Hsum Hr Hf.
  assert (0 <= D * dfr) by (apply Rmult_le_pos; lra).
  assert (0 <= E * dff) by (apply Rmult_le_pos; lra).
  destruct (Rle_lt_dec D 0) as [HD0|HD0].
  - assert (0 < E * dff) by (apply Rmult_lt_0_compat; lra). lra.
  - assert (0 < D * dfr) by (apply Rmult_lt_0_compat; lra). lra.
Qed.

Section Signs.
Variable s : SecuritySchema.
Variable g : list TimeStep.
Variables rf cs : list R.
Variables dt u d : R.
Variable N : nat.
Variable strict : Prop.

Hypothesis Hq : forall t, (t < N)%nat -> 0 <= tf_q rf dt u d t <= 1.
Hypothesis Hcf : 0 <= unit_periodic_cf s dt.
Hypothesis Hhold : 0 <= unit_redemption_value s + unit_periodic_cf s dt.
Hypothesis Hcall : forall c, call_price s = Some c -> 0 <= c.
Hypothesis Hstrict :
  strict ->
  0 < unit_redemption_value s + unit_periodic_cf s dt /\
  forall c, call_price s = Some c -> 0 < c.

Lemma tf_terminal_ok (i : nat) : tf_node_ok strict (tf_terminal s g dt u d N i).
Proof.
  unfold tf_terminal, tf_node_ok; cbv zeta.
  case_cmp; cbn [tf_D tf_E]; repeat split; try lra.
  intros Hs; destruct (Hstrict Hs); lra.
Qed.

Lemma tf_rollback_ok (t : nat) (up down : TfNode) :
  (t < N)%nat -> tf_node_ok strict up -> tf_node_ok strict down ->
  decision_ok strict (tf_rollback s rf cs dt u d t up down).
Proof.
  intros Ht (HDu & HEu & Hsu) (HDd & HEd & Hsd).
  pose proof (Hq t Ht) as Hqt.
  assert (Hr : 0 < tf_df_risky rf cs dt t) by apply exp_pos.
  assert (Hf : 0 < tf_df_rf rf dt t) by apply exp_pos.
  unfold tf_rollback, decision_ok; cbv zeta; cbn [V_hold D_final E_final].
  set (q := tf_q rf dt u d t) in *.
  assert (HED : 0 <= q * tf_D up + (1 - q) * tf_D down)
    by (apply convex_nonneg; assumption).
  assert (HEE : 0 <= q * tf_E up + (1 - q) * tf_E down)
    by (apply convex_nonneg; assumption).
  assert (HD : 0 <= (q * tf_D up + (1 - q) * tf_D down) * tf_df_risky rf cs dt t)
    by (apply Rmult_le_pos; lra).
  assert (HE : 0 <= (q * tf_E up + (1 - q) * tf_E down) * tf_df_rf rf dt t)
    by (apply Rmult_le_pos; lra).
  split; [reflexivity|].
  split; [lra|].
  split; [lra|].
  intros Hs.
  pose proof (discounted_pos _ _ _ _ HDu HEu (Hsu Hs) Hr Hf) as Hup.
  pose proof (discounted_pos _ _ _ _ HDd HEd (Hsd Hs) Hr Hf) as Hdown.
  pose proof (convex_pos q _ _ Hqt Hup Hdown) as Hc.
  lra.
Qed.

Lemma stage_convert_ok (conv : R) (st : Decision) :
  decision_ok strict st -> decision_ok strict (stage_convert conv st).
Proof.
  intros (HV & HD & HE & Hs); unfold stage_convert.
  case_cmp; [|repeat split; assumption].
  unfold decision_ok; cbn [V_hold D_final E_final].
  repeat split; intros; lra.
Qed.

Lemma stage_call_ok (can : bool) (conv : R) (st : Decision) :
  decision_ok strict st ->
  decision_ok strict (stage_call can (call_price s) conv st).
Proof.
  intros (HV & HD & HE & Hs); unfold stage_call.
  destruct can; [|repeat split; assumption].
  destruct (call_price s) as [c|] eqn:Hc; [|repeat split; assumption].
  pose proof (Hcall c eq_refl) as Hc0.
  case_cmp; [|repeat split; assumption].
  case_cmp; unfold decision_ok; cbn [V_hold D_final E_final].
  - rewrite Rmax_right by lra.
    repeat split; intros; lra.
  - rewrite Rmax_left by lra.
    repeat split; try lra.
    intros Hst; destruct (Hstrict Hst) as [_ Hpos]; apply Hpos; reflexivity.
Qed.

Lemma stage_put_ok (can : bool) (st : Decision) :
  decision_ok strict st ->
  decision_ok strict (stage_put can (put_price s) st).
Proof.
  intros (HV & HD & HE & Hs); unfold stage_put.
  destruct can; [|repeat split; assumption].
  destruct (put_price s) as [p|]; [|repeat split; assumption].
  case_cmp; [|repeat split; assumption].
  unfold decision_ok; cbn [V_hold D_final E_final].
  repeat split; intros; lra.
Qed.

Lemma tf_backward_ok (t i : nat) (up down : TfNode) :
  (t < N)%nat -> tf_node_ok strict up -> tf_node_ok strict down ->
  tf_node_ok strict (tf_backward s g rf cs dt u d N t i up down).
Proof.
  intros Ht Hup Hdown.
  assert (Hdec : decision_ok strict (tf_decide s g rf cs dt u d N t i up down)).
  { unfold tf_decide.
    apply stage_put_ok, stage_call_ok, stage_convert_ok, tf_rollback_ok;
      assumption. }
  destruct Hdec as (HV & HD & HE & Hs).
  unfold tf_backward, tf_node_ok; cbv zeta; cbn [tf_D tf_E].
  repeat split; try assumption.
  intros Hst; specialize (Hs Hst); lra.
Qed.

Lemma tf_lattice_ok (t i : nat) :
  (t <= N)%nat -> (i <= t)%nat ->
  tf_node_ok strict (at_node (tf_dflt s) (tf_lattice s g rf cs dt u d N) t i).
Proof.
  unfold tf_lattice; apply lattice_invariant.
  - intros; apply tf_terminal_ok.
  - intros t' i' up down Ht' _; now apply tf_backward_ok.
Qed.

Lemma eso_lattice_ok (t i : nat) :
  (t <= N)%nat -> (i <= t)%nat -> 0 <= eso_E_at s g rf dt u d N t i.
Proof.
  unfold eso_E_at, eso_lattice.
  apply (lattice_invariant (mkEsoNode 0 NO_FLAG) (eso_terminal s u d N)
           (eso_backward s g rf dt u d) (fun n => 0 <= eso_E n)).
  - intros i' _; unfold eso_terminal; cbv zeta; cbn [eso_E]; apply Rmax_r.
  - intros t' i' up down Ht' _ Hup Hdown.
    pose proof (Hq t' Ht') as Hqt.
    assert (Hdf : 0 < exp (- nth t' rf 0 * dt)) by apply exp_pos.
    assert (Hsv : 0 < eso_survival_factor_step s dt) by apply exp_pos.
    assert (Hcont : 0 <= (eso_q rf dt u d t' * eso_E up
                          + (1 - eso_q rf dt u d t') * eso_E down)
                         * exp (- nth t' rf 0 * dt)).
    { apply Rmult_le_pos; [apply convex_nonneg; assumption | lra]. }
    unfold eso_backward; cbv zeta.
    destruct (eso_vestingEnd s <=? date (grid_at g t'))%Z.
    + destruct (Rgeb _ _ && Rgtb _ _); cbn [eso_E];
        apply Rmult_le_pos; try lra; apply Rmax_r.
    + cbn [eso_E]; apply Rmult_le_pos; lra.
Qed.
End Signs.

(** The up-probability of a CRR step lies in [[0, 1]] as soon as the step's
    drift [r * dt] does not exceed the step's volatility [sigma * sqrt dt]
    in absolute value. *)
Lemma crr_q_bounds (r dt sigma : R) :
  0 < sigma * sqrt dt ->
  - (sigma * sqrt dt) <= r * dt <= sigma * sqrt dt ->
  let u := exp (sigma * sqrt dt) in
  let d := 1 / u in
  0 <= (exp (r * dt) - d) / (u - d) <= 1.
Proof.
  intros Hx [Hlo Hhi]; cbv zeta.
  set (x := sigma * sqrt dt) in *.
  assert (Hu : 1 < exp x) by (rewrite <- exp_0; apply exp_increasing; lra).
  assert (Hd : 1 / exp x = exp (- x)) by (rewrite exp_Ropp; lra).
  rewrite Hd.
  assert (Hd1 : exp (- x) < 1) by (rewrite <- exp_0; apply exp_increasing; lra).
  assert (Ha1 : exp (- x) <= exp (r * dt)).
  { destruct Hlo as [Hlt|Heq]; [left; now apply exp_increasing | rewrite Heq; lra]. }
  assert (Ha2 : exp (r * dt) <= exp x).
  { destruct Hhi as [Hlt|Heq]; [left; now apply exp_increasing | rewrite Heq; lra]. }
  assert (Hden : 0 < / (exp x - exp (- x))) by (apply Rinv_0_lt_compat; lra).
  unfold Rdiv; split.
  - apply Rmult_le_pos; lra.
  - apply (Rmult_le_reg_r (exp x - exp (- x))); [lra|].
    rewrite Rmult_assoc, Rinv_l by lra; lra.
Qed.

(** With flat rates, a step shorter than a year and a risk-free rate within
    the volatility, every step of the engine has its up-probability in
    [[0, 1]]. *)
Lemma engine_q_bounds (s : SecuritySchema) :
  stepwise_risk_free_rates s = None ->
  0 < volatility s ->
  0 < engine_dt s < 1 ->
  - volatility s <= risk_free_rate s <= volatility s ->
  forall t, (t < engine_N s)%nat ->
    0 <= tf_q (engine_rf_t s) (engine_dt s) (engine_u s) (engine_d s) t <= 1.
Proof.
  intros Hflat Hvol Hdt Hr t Ht.
  unfold tf_q, engine_rf_t, stepwise_or_flat; rewrite Hflat.
  rewrite nth_repeat_lt by exact Ht.
  unfold engine_d, engine_u.
  assert (Hsq : engine_dt s < sqrt (engine_dt s)) by (apply sqrt_more; lra).
  apply crr_q_bounds; [apply Rmult_lt_0_compat; lra|].
  split; nra.
Qed.

(** C2 (as amended).  Provided the up-probability of every step lies in
    [[0, 1]], the ESO leg is non-negative at every node; provided also that
    the periodic cash flow, the redemption payoff and the call price (if
    any) are not negative, the debt leg and the equity leg of a TF lattice
    are non-negative at every node. *)
Theorem C2_nodes_nonneg (s : SecuritySchema) (g : list TimeStep)
    (rf cs : list R) (dt u d : R) (N : nat) :
  (forall t, (t < N)%nat -> 0 <= (exp (nth t rf 0 * dt) - d) / (u - d) <= 1) ->
  forall t i, (t <= N)%nat -> (i <= t)%nat ->
    0 <= eso_E_at s g rf dt u d N t i /\
    (0 <= unit_periodic_cf s dt ->
     0 <= unit_redemption_value s + unit_periodic_cf s dt ->
     (forall c, call_price s = Some c -> 0 <= c) ->
     0 <= D_at s g rf cs dt u d N t i /\ 0 <= E_at s g rf cs dt u d N t i).
Proof.
  intros Hq t i Ht Hi; split.
  - now apply eso_lattice_ok.
  - intros Hcf Hhold Hcall.
    destruct (tf_lattice_ok s g rf cs dt u d N False Hq Hcf Hhold Hcall
                ltac:(intros []) t i Ht Hi) as (HD & HE & _).
    split; assumption.
Qed.

(** ** The one-week low-volatility bond, node by node *)

Lemma low_vol_params :
  engine_grid low_vol_cb
  = [mkTimeStep 0 0 (getDateDiffYears 0 0); mkTimeStep 1 7 (getDateDiffYears 0 7)]
  /\ engine_N low_vol_cb = 1%nat /\ engine_dt low_vol_cb = 7 / 365.
Proof.
  assert (Hg : engine_grid low_vol_cb
    = [mkTimeStep 0 0 (getDateDiffYears 0 0); mkTimeStep 1 7 (getDateDiffYears 0 7)])
    by reflexivity.
  assert (HN : engine_N low_vol_cb = 1%nat) by reflexivity.
  split; [exact Hg | split; [exact HN|]].
  unfold engine_dt; rewrite HN, Hg.
  cbn [grid_at nth t_years]; unfold getDateDiffYears.
  change (7 - 0)%Z with 7%Z; rewrite INR_1; lra.
Qed.

Lemma low_vol_conv g u d N t i :
  (t <= N)%nat ->
  val_convert_opt low_vol_cb g u d N t i = 1000000000 * (u ^ i * d ^ (t - i)).
Proof.
  intros Ht; unfold val_convert_opt, getEffectiveConversionRatio, S_node.
  cbn [low_vol_cb conversion_ratio share_price_current].
  unfold unit_face_value, cp_eff, cp_at_step.
  cbn [low_vol_cb isPerShare isCB security_type SecurityType_eqb negb
       total_issue_price anti_dilution_type AntiDilutionType_eqb andb
       conversion_price].
  rewrite nth_repeat_lt by lia.
  field.
Qed.

Lemma low_vol_hold dt :
  unit_redemption_value low_vol_cb + unit_periodic_cf low_vol_cb dt = 1000000000
  /\ unit_periodic_cf low_vol_cb dt = 0.
Proof.
  unfold unit_redemption_value, unit_periodic_cf, unit_face_value.
  cbn [low_vol_cb isPerShare isCB security_type SecurityType_eqb negb
       total_issue_price repayment_premium_rate with_default coupon_rate].
  split; ring.
Qed.

Lemma low_vol_terminal g dt u d :
  1 < u -> d <= 1 ->
  let up := tf_terminal low_vol_cb g dt u d 1 1 in
  let down := tf_terminal low_vol_cb g dt u d 1 0 in
  tf_D up = 0 /\ tf_E up = 1000000000 * u /\
  tf_D down = 1000000000 /\ tf_E down = 0.
Proof.
  intros Hu Hd; cbv zeta; unfold tf_terminal; cbv zeta.
  fold (val_convert_opt low_vol_cb g u d 1 1 1).
  fold (val_convert_opt low_vol_cb g u d 1 1 0).
  rewrite !low_vol_conv by lia.
  destruct (low_vol_hold dt) as [-> _].
  cbn [low_vol_cb security_type SecurityType_eqb andb Nat.sub pow].
  decide_cmp; cbn [tf_D tf_E].
  repeat split; ring.
Qed.

Lemma one_step_sign (a u c : R) :
  1 < u -> u < a -> 0 < c -> c <= 1 / u ->
  let d := 1 / u in
  let q := (a - d) / (u - d) in
  1 < q /\ 1 <= (1 - q) * (c * / a) + q * u * / a.
Proof.
  intros Hu Ha Hc Hcd; cbv zeta.
  set (d := 1 / u) in *.
  assert (Hd : 0 < d < 1).
  { unfold d; split.
    - apply Rdiv_lt_0_compat; lra.
    - apply (Rmult_lt_reg_r u); [lra|].
      unfold Rdiv; rewrite Rmult_assoc, Rinv_l by lra; lra. }
  assert (Hud : d * u = 1) by (unfold d; field; lra).
  set (q := (a - d) / (u - d)).
  assert (Hq : q * (u - d) = a - d) by (unfold q; field; lra).
  assert (Hq1 : 1 < q).
  { apply (Rmult_lt_reg_r (u - d)); [lra|]. rewrite Hq; lra. }
  split; [exact Hq1|].
  assert (Hia : 0 < / a) by (apply Rinv_0_lt_compat; lra).
  assert (Haia : a * / a = 1) by (apply Rinv_r; lra).
  assert (H1 : a <= (1 - q) * c + q * u).
  { apply (Rmult_le_reg_r (u - d)); [lra|].
    replace (((1 - q) * c + q * u) * (u - d))
      with (((u - d) - q * (u - d)) * c + q * (u - d) * u) by ring.
    rewrite Hq. nra. }
  replace ((1 - q) * (c * / a) + q * u * / a)
    with (((1 - q) * c + q * u) * / a) by ring.
  rewrite <- Haia at 1.
  apply Rmult_le_compat_r; lra.
Qed.

(** C2 as stated fails: on the one-week low-volatility bond the drift of
    the step exceeds its volatility, the up-probability is above [1], and
    the debt leg at the root, which the result reports as
    [tf_debt_component], is negative. *)
Lemma C2_nodes_nonneg_counterexample :
  (0 < volatility low_vol_cb /\ 0 < risk_free_rate low_vol_cb
   /\ 0 < credit_spread low_vol_cb) /\
  tf_debt_component (runPricingEngine low_vol_cb)
  = D_at low_vol_cb (engine_grid low_vol_cb) (engine_rf_t low_vol_cb)
      (engine_cs_t low_vol_cb) (engine_dt low_vol_cb) (engine_u low_vol_cb)
      (engine_d low_vol_cb) (engine_N low_vol_cb) 0 0 /\
  tf_debt_component (runPricingEngine low_vol_cb) < 0.
Proof.
  split; [cbn [low_vol_cb volatility risk_free_rate credit_spread]; lra|].
  split; [rewrite runPricingEngine_dispatch; reflexivity|].
  destruct low_vol_params as (Hg & HN & Hdt).
  rewrite runPricingEngine_dispatch.
  cbn [low_vol_cb security_type].
  fold low_vol_cb.
  cbn [calculateTF tf_debt_component].
  unfold D_at, tf_lattice.
  assert (Hrf : engine_rf_t low_vol_cb = [5 / 100])
    by (unfold engine_rf_t; rewrite HN; reflexivity).
  assert (Hcs : engine_cs_t low_vol_cb = [5 / 100])
    by (unfold engine_cs_t; rewrite HN; reflexivity).
  rewrite HN, Hrf, Hcs, Hdt.
  rewrite at_node_backward by lia.
  rewrite !at_node_terminal by lia.
  (* the CRR parameters *)
  assert (Hsq : 0 < sqrt (7 / 365) < 14 / 100).
  { split; [apply sqrt_lt_R0; lra|].
    rewrite <- (sqrt_square (14 / 100)) by lra.
    apply sqrt_lt_1_alt; lra. }
  assert (Hu : 1 < engine_u low_vol_cb).
  { unfold engine_u; rewrite Hdt; cbn [low_vol_cb volatility].
    rewrite <- exp_0; apply exp_increasing; nra. }
  assert (Ha : engine_u low_vol_cb < exp (5 / 100 * (7 / 365))).
  { unfold engine_u; rewrite Hdt; cbn [low_vol_cb volatility].
    apply exp_increasing; nra. }
  set (u := engine_u low_vol_cb) in *.
  set (a := exp (5 / 100 * (7 / 365))) in *.
  assert (Hia : 0 < / a) by (apply Rinv_0_lt_compat; unfold a; apply exp_pos).
  assert (Hc : / a <= 1 / u).
  { unfold Rdiv; rewrite Rmult_1_l; left; apply Rinv_lt_contravar; [nra | exact Ha]. }
  destruct (one_step_sign a u (/ a) Hu Ha Hia Hc) as [Hq1 Hkey].
  cbv zeta in Hq1, Hkey.
  unfold engine_d; fold u.
  set (d := 1 / u) in *. 
  assert (Hd : d <= 1).
  { unfold d. apply (Rmult_le_reg_r u); [lra|].
      unfold Rdiv; rewrite Rmult_assoc, Rinv_l by lra; lra. }
  destruct (low_vol_terminal (engine_grid low_vol_cb) (7 / 365) u d Hu Hd)
    as (HDu & HEu & HDd & HEd).
  cbv zeta in HDu, HEu, HDd, HEd.
  unfold tf_backward, tf_decide; cbn [tf_D].
  change (can_put low_vol_cb (engine_grid low_vol_cb) 0) with false.
  change (can_call low_vol_cb (engine_grid low_vol_cb) 0) with false.
  cbn [stage_put stage_call].
  unfold stage_convert, tf_rollback; cbv zeta; cbn [V_hold].
  rewrite HDu, HEu, HDd, HEd.
  rewrite low_vol_conv by lia.
  destruct (low_vol_hold (7 / 365)) as [_ ->].
  unfold tf_q, tf_df_rf, tf_df_risky; cbn [nth Nat.sub pow].
  assert (Hdff : exp (- (5 / 100) * (7 / 365)) = / a).
  { unfold a; rewrite <- exp_Ropp; f_equal; ring. }
  assert (Hdfr : exp (- (5 / 100 + 5 / 100) * (7 / 365)) = / a * / a).
  { unfold a; rewrite <- !exp_Ropp, <- exp_plus; f_equal; ring. }
  rewrite Hdff, Hdfr.
  set (q := (a - d) / (u - d)) in *.
  assert (Hia2 : 0 < / a * / a) by (apply Rmult_lt_0_compat; exact Hia).
  rewrite (proj2 (Rgtb_false _ _)).
  - cbn [D_final]; fold a; fold q.
    assert (Hneg : 0 < (q - 1) * (/ a * / a))
      by (apply Rmult_lt_0_compat; lra).
    replace ((q * 0 + (1 - q) * 1000000000) * (/ a * / a) + 0)
      with (- (1000000000 * ((q - 1) * (/ a * / a)))) by ring.
    lra.
  - fold a; fold q.
    replace ((q * 0 + (1 - q) * 1000000000) * (/ a * / a) + 0
             + (q * (1000000000 * u) + (1 - q) * 0) * / a)
      with (1000000000 * ((1 - q) * (/ a * / a) + q * u * / a)) by ring.
    lra.
Qed.

(** ** The sample RCPS and the matured bond under the engine *)

Lemma sample_rcps_params :
  engine_N sample_rcps = 157%nat /\ engine_dt sample_rcps = 3 / 157.
Proof.
  assert (HN : engine_N sample_rcps = 157%nat) by reflexivity.
  split; [exact HN|].
  unfold engine_dt; rewrite HN.
  assert (Hlast : grid_at (engine_grid sample_rcps) 157
                  = mkTimeStep 157 1095 (getDateDiffYears 0 1095)) by reflexivity.
  rewrite Hlast; cbn [t_years]; unfold getDateDiffYears.
  rewrite INR_IZR_INZ.
  change (Z.of_nat 157) with 157%Z; change (1095 - 0)%Z with 1095%Z.
  lra.
Qed.

Lemma sample_rcps_q (t : nat) :
  (t < engine_N sample_rcps)%nat ->
  0 <= tf_q (engine_rf_t sample_rcps) (engine_dt sample_rcps)
         (engine_u sample_rcps) (engine_d sample_rcps) t <= 1.
Proof.
  destruct sample_rcps_params as [_ Hdt].
  apply engine_q_bounds; [reflexivity | | rewrite Hdt; lra |];
    cbn [sample_rcps volatility risk_free_rate]; lra.
Qed.

(** C2 at the root of the sample RCPS priced by the engine. *)
Lemma C2_nodes_nonneg_witness :
  let s := sample_rcps in
  ((forall t, (t < engine_N s)%nat ->
      0 <= (exp (nth t (engine_rf_t s) 0 * engine_dt s) - engine_d s)
           / (engine_u s - engine_d s) <= 1) /\
   0 <= unit_periodic_cf s (engine_dt s) /\
   0 <= unit_redemption_value s + unit_periodic_cf s (engine_dt s) /\
   (forall c, call_price s = Some c -> 0 <= c)) /\
  0 <= D_at s (engine_grid s) (engine_rf_t s) (engine_cs_t s) (engine_dt s)
         (engine_u s) (engine_d s) (engine_N s) 0 0 /\
  0 <= E_at s (engine_grid s) (engine_rf_t s) (engine_cs_t s) (engine_dt s)
         (engine_u s) (engine_d s) (engine_N s) 0 0.
Proof.
  cbv zeta.
  destruct sample_rcps_params as [_ Hdt].
  assert (Hcf : 0 <= unit_periodic_cf sample_rcps (engine_dt sample_rcps)).
  { rewrite Hdt; unfold unit_periodic_cf, unit_face_value.
    cbn [sample_rcps isPerShare isCB security_type SecurityType_eqb negb
         total_issue_price num_issued_shares coupon_rate dividend_rate].
    lra. }
  assert (Hhold : 0 <= unit_redemption_value sample_rcps
                       + unit_periodic_cf sample_rcps (engine_dt sample_rcps)).
  { rewrite Hdt; unfold unit_redemption_value, unit_periodic_cf, unit_face_value.
    cbn [sample_rcps isPerShare isCB security_type SecurityType_eqb negb
         total_issue_price num_issued_shares coupon_rate dividend_rate
         repayment_premium_rate with_default].
    lra. }
  assert (Hcall : forall c, call_price sample_rcps = Some c -> 0 <= c)
    by (intros c H; discriminate H).
  split; [split; [exact sample_rcps_q | split; [exact Hcf | split; [exact Hhold | exact Hcall]]]|].
  exact (proj2 (C2_nodes_nonneg sample_rcps (engine_grid sample_rcps)
                  (engine_rf_t sample_rcps) (engine_cs_t sample_rcps)
                  (engine_dt sample_rcps) (engine_u sample_rcps)
                  (engine_d sample_rcps) (engine_N sample_rcps)
                  sample_rcps_q 0%nat 0%nat (Nat.le_0_l _) (Nat.le_0_l _))
           Hcf Hhold Hcall).
Defined.

Lemma matured_cb_q (t : nat) :
  (t < engine_N matured_cb)%nat ->
  0 <= tf_q (engine_rf_t matured_cb) (engine_dt matured_cb)
         (engine_u matured_cb) (engine_d matured_cb) t <= 1.
Proof.
  assert (H : (maturity_date matured_cb <= valuation_date matured_cb)%Z)
    by (cbn [matured_cb maturity_date valuation_date]; lia).
  destruct (matured_params matured_cb H) as [_ Hdt].
  apply engine_q_bounds; [reflexivity | | rewrite Hdt; lra |];
    cbn [matured_cb volatility risk_free_rate]; lra.
Qed.

(** C3 as stated fails: for the bond valued on its maturity date the engine
    does not return the all-zero result of the [N <= 0] branch; it prices a
    one-step lattice, logs its three nodes and returns a positive value. *)
Lemma C3_matured_security_counterexample :
  (maturity_date matured_cb <= valuation_date matured_cb)%Z /\
  meta_N (meta (runPricingEngine matured_cb)) = 1%nat /\
  length (node_logs (runPricingEngine matured_cb)) = 3%nat /\
  0 < fair_value_total (runPricingEngine matured_cb).
Proof.
  assert (H : (maturity_date matured_cb <= valuation_date matured_cb)%Z)
    by (cbn [matured_cb maturity_date valuation_date]; lia).
  destruct (matured_params matured_cb H) as [HN Hdt].
  split; [exact H|].
  rewrite runPricingEngine_dispatch.
  cbn [matured_cb security_type]; fold matured_cb.
  cbn [calculateTF meta meta_N node_logs fair_value_total].
  split; [exact HN|].
  split; [rewrite HN; reflexivity|].
  assert (Hcf : 0 <= unit_periodic_cf matured_cb (engine_dt matured_cb)).
  { rewrite Hdt; unfold unit_periodic_cf, unit_face_value.
    cbn [matured_cb isPerShare isCB security_type SecurityType_eqb negb
         total_issue_price coupon_rate].
    lra. }
  assert (Hhold : 0 < unit_redemption_value matured_cb
                      + unit_periodic_cf matured_cb (engine_dt matured_cb)).
  { rewrite Hdt; unfold unit_redemption_value, unit_periodic_cf, unit_face_value.
    cbn [matured_cb isPerShare isCB security_type SecurityType_eqb negb
         total_issue_price coupon_rate repayment_premium_rate with_default].
    lra. }
  assert (Hcall : forall c, call_price matured_cb = Some c -> 0 <= c)
    by (intros c Hc; discriminate Hc).
  assert (Hstrict : True ->
            0 < unit_redemption_value matured_cb
                + unit_periodic_cf matured_cb (engine_dt matured_cb) /\
            forall c, call_price matured_cb = Some c -> 0 < c).
  { intros _; split; [exact Hhold | intros c Hc; discriminate Hc]. }
  destruct (tf_lattice_ok matured_cb (engine_grid matured_cb)
              (engine_rf_t matured_cb) (engine_cs_t matured_cb)
              (engine_dt matured_cb) (engine_u matured_cb)
              (engine_d matured_cb) (engine_N matured_cb) True
              matured_cb_q Hcf (Rlt_le _ _ Hhold) Hcall Hstrict
              0%nat 0%nat (Nat.le_0_l _) (Nat.le_0_l _)) as (_ & _ & Hpos).
  specialize (Hpos I).
  unfold total_hybrid_long, hybrid_val_unit, position_sign, D_at, E_at.
  cbn [matured_cb isPerShare isCB security_type SecurityType_eqb negb position];
    fold matured_cb.
  lra.
Qed.

(** ** The ESO leg under a negative rate

    The condition on the up-probability is needed for the ESO leg as well:
    with a rate of -5% and a volatility of 0.5% the one-week option has a
    negative up-probability and a negative value at the root. *)

Lemma sqrt_week_bounds : 0 < sqrt (7 / 365) < 14 / 100.
Proof.
  split; [apply sqrt_lt_R0; lra|].
  rewrite <- (sqrt_square (14 / 100)) by lra.
  apply sqrt_lt_1_alt; lra.
Qed.

Lemma negative_rate_eso_root :
  eso_E_at negative_rate_eso (engine_grid negative_rate_eso)
    (engine_rf_t negative_rate_eso) (engine_dt negative_rate_eso)
    (engine_u negative_rate_eso) (engine_d negative_rate_eso)
    (engine_N negative_rate_eso) 0 0 < 0 /\
  fair_value_total (runPricingEngine negative_rate_eso) < 0.
Proof.
  assert (HN : engine_N negative_rate_eso = 1%nat) by reflexivity.
  assert (Hg : engine_grid negative_rate_eso
               = [mkTimeStep 0 0 (getDateDiffYears 0 0);
                  mkTimeStep 1 7 (getDateDiffYears 0 7)]) by reflexivity.
  assert (Hdt : engine_dt negative_rate_eso = 7 / 365).
  { unfold engine_dt; rewrite HN, Hg.
    cbn [grid_at nth t_years]; unfold getDateDiffYears.
    change (7 - 0)%Z with 7%Z; rewrite INR_1; lra. }
  assert (Hrf : engine_rf_t negative_rate_eso = [- (5 / 100)])
    by (unfold engine_rf_t; rewrite HN; reflexivity).
  pose proof sqrt_week_bounds as Hsq.
  assert (Hu : 1 < engine_u negative_rate_eso).
  { unfold engine_u; rewrite Hdt; cbn [negative_rate_eso volatility].
    rewrite <- exp_0; apply exp_increasing; nra. }
  assert (Hd : engine_d negative_rate_eso
               = exp (- (5 / 1000 * sqrt (7 / 365)))).
  { unfold engine_d, engine_u; rewrite Hdt; cbn [negative_rate_eso volatility].
    rewrite exp_Ropp; lra. }
  assert (Ha : exp (- (5 / 100) * (7 / 365)) < engine_d negative_rate_eso).
  { rewrite Hd; apply exp_increasing; nra. }
  assert (Hd1 : engine_d negative_rate_eso < 1).
  { rewrite Hd, <- exp_0; apply exp_increasing; nra. }
  assert (Hroot :
    eso_E_at negative_rate_eso (engine_grid negative_rate_eso)
      (engine_rf_t negative_rate_eso) (engine_dt negative_rate_eso)
      (engine_u negative_rate_eso) (engine_d negative_rate_eso)
      (engine_N negative_rate_eso) 0 0 < 0).
  { rewrite HN, Hrf, Hdt.
    set (u := engine_u negative_rate_eso) in *.
    set (d := engine_d negative_rate_eso) in *.
    unfold eso_E_at, eso_lattice.
    rewrite at_node_backward by lia.
    rewrite !at_node_terminal by lia.
    unfold eso_backward, eso_terminal, eso_q, eso_vestingEnd,
      eso_survival_factor_step, S_node; cbv zeta.
    cbn [negative_rate_eso vesting_end_date maturity_date with_default
         share_price_current strike_price employee_exit_rate eso_E nth
         Nat.sub pow].
    rewrite Hg; cbn [grid_at nth date Z.leb Z.compare Pos.compare
                     Pos.compare_cont eso_E].
    rewrite (Rmax_left (20000 * (u * 1) * 1 - 20000) 0) by nra.
    rewrite (Rmax_right (20000 * 1 * (d * 1) - 20000) 0) by nra.
    set (a := exp (- (5 / 100) * (7 / 365))) in *.
    assert (Hq : (a - d) / (u - d) < 0).
    { unfold Rdiv; rewrite <- (Rmult_0_l (/ (u - d))).
      apply Rmult_lt_compat_r; [apply Rinv_0_lt_compat; lra | lra]. }
    set (q := (a - d) / (u - d)) in *.
    assert (Hdf : 0 < exp (- - (5 / 100) * (7 / 365))) by apply exp_pos.
    assert (Hsv : 0 < a) by apply exp_pos.
    assert (Hup : q * (20000 * (u * 1) * 1 - 20000) < 0).
    { rewrite <- (Rmult_0_l (20000 * (u * 1) * 1 - 20000)).
      apply Rmult_lt_compat_r; lra. }
    assert (Hcont : (q * (20000 * (u * 1) * 1 - 20000) + (1 - q) * 0)
                    * exp (- - (5 / 100) * (7 / 365)) < 0).
    { rewrite <- (Rmult_0_l (exp (- - (5 / 100) * (7 / 365)))).
      apply Rmult_lt_compat_r; lra. }
    fold a.
    match goal with
    | |- ?Y * a < 0 =>
        assert (Hneg : 0 < (- Y) * a) by (apply Rmult_lt_0_compat; lra)
    end.
    lra. }
  split; [exact Hroot|].
  rewrite runPricingEngine_dispatch.
  cbn [negative_rate_eso security_type]; fold negative_rate_eso.
  unfold calculateESO; cbv zeta; cbn [fair_value_total].
  cbn [negative_rate_eso num_options with_default position]; fold negative_rate_eso.
  set (E := eso_E_at _ _ _ _ _ _ _ _ _) in *.
  lra.
Qed.

(** * Further properties of the engine *)

(** ** The shape of the time grid *)

Lemma getDateDiffYears_addDays (d n : Z) :
  getDateDiffYears d (addDays d n) = IZR n / 365.
Proof. unfold getDateDiffYears, addDays; f_equal; f_equal; lia. Qed.

(** the number of weekly nodes before the maturity node *)
Lemma weeks_step (c m : Z) :
  (c < m)%Z ->
  Z.to_nat ((m - c + 6) / 7) = S (Z.to_nat ((m - addDays c 7 + 6) / 7)).
Proof.
  intros Hlt; unfold addDays.
  replace (m - c + 6)%Z with ((m - (c + 7) + 6) + 1 * 7)%Z by lia.
  rewrite Z.div_add by lia.
  assert (0 <= (m - (c + 7) + 6) / 7)%Z by (apply Z.div_pos; lia).
  lia.
Qed.

Lemma weeks_done (c m : Z) : (m <= c)%Z -> Z.to_nat ((m - c + 6) / 7) = 0%nat.
Proof.
  intros Hle.
  assert ((m - c + 6) / 7 <= 0)%Z; [|lia].
  apply Z.lt_succ_r, Z.div_lt_upper_bound; lia.
Qed.

Lemma weekly_grid_shape (fuel : nat) :
  forall v m c k,
    (m - c <= Z.of_nat fuel)%Z ->
    let n := Z.to_nat ((m - c + 6) / 7) in
    let grid := weekly_grid fuel v m c k in
    length grid = S n /\
    (forall j, (j < n)%nat ->
       nth j grid (mkTimeStep 0 0 0)
       = mkTimeStep (k + j) (c + 7 * Z.of_nat j)
           (getDateDiffYears v (c + 7 * Z.of_nat j))) /\
    nth n grid (mkTimeStep 0 0 0)
    = mkTimeStep (k + n) m (getDateDiffYears v m).
Proof.
  induction fuel as [|fuel IH]; intros v m c k Hfuel; cbv zeta;
    cbn [weekly_grid].
  - rewrite weeks_done by lia; cbn [length nth].
    repeat split; [intros; lia | f_equal; lia].
  - destruct (Z.ltb_spec c m) as [Hlt|Hge].
    + rewrite (weeks_step c m Hlt).
      destruct (IH v m (addDays c 7) (S k)) as (Hlen & Hnodes & Hlast);
        [unfold addDays; lia|].
      set (n' := Z.to_nat ((m - addDays c 7 + 6) / 7)) in *.
      cbn [length]; split; [now rewrite Hlen|].
      split.
      * intros [|j] Hj; cbn [nth].
        -- f_equal; [lia | lia | f_equal; lia].
        -- rewrite Hnodes by lia; unfold addDays.
           f_equal; [lia | lia | f_equal; lia].
      * cbn [nth]; rewrite Hlast; f_equal; lia.
    + rewrite weeks_done by lia; cbn [length nth].
      repeat split; [intros; lia | f_equal; lia].
Qed.

(** X1.  Between a valuation date and a later maturity date the grid has
    [N = ceil (days / 7)] steps: node [k < N] is step [k], dated [7 k] days
    after the valuation date, with year fraction [7 k / 365]; node [N] is
    step [N], dated at maturity, with year fraction [days / 365]. *)
Theorem X1_time_grid_shape (valDate matDate : Z) :
  (valDate < matDate)%Z ->
  let grid := generateTimeGrid valDate matDate in
  let N := (length grid - 1)%nat in
  Z.of_nat N = ((matDate - valDate + 6) / 7)%Z /\
  (forall k, (k < N)%nat ->
     grid_at grid k
     = mkTimeStep k (valDate + 7 * Z.of_nat k) (IZR (7 * Z.of_nat k) / 365)) /\
  grid_at grid N = mkTimeStep N matDate (IZR (matDate - valDate) / 365).
Proof.
  intros Hlt; cbv zeta; unfold generateTimeGrid, grid_at.
  destruct (Z.leb_spec matDate valDate); [lia|].
  destruct (weekly_grid_shape (Z.to_nat (matDate - valDate)) valDate matDate
              valDate 0) as (Hlen & Hnodes & Hlast); [lia|].
  cbv zeta in Hlen, Hnodes, Hlast.
  rewrite Hlen; cbn [Nat.sub]; rewrite Nat.sub_0_r.
  split; [|split].
  - assert (0 <= (matDate - valDate + 6) / 7)%Z by (apply Z.div_pos; lia). lia.
  - intros k Hk; rewrite Hnodes by exact Hk; cbn [Nat.add].
    f_equal; unfold getDateDiffYears; f_equal; f_equal; lia.
  - rewrite Hlast; reflexivity.
Qed.

(** X1 on a maturity ten days after the valuation date: two steps, dated
    day 7 and day 10. *)
Lemma X1_time_grid_shape_witness :
  (0 < 10)%Z /\
  (length (generateTimeGrid 0 10) - 1)%nat = 2%nat /\
  grid_at (generateTimeGrid 0 10) 1 = mkTimeStep 1 7 (7 / 365) /\
  grid_at (generateTimeGrid 0 10) 2 = mkTimeStep 2 10 (10 / 365).
Proof.
  assert (H : (0 < 10)%Z) by lia.
  pose proof (X1_time_grid_shape 0 10 H) as W; cbv zeta in W.
  destruct W as (HN & Hnodes & Hlast).
  assert (E : (length (generateTimeGrid 0 10) - 1)%nat = 2%nat) by reflexivity.
  split; [exact H | split; [exact E|]].
  rewrite E in Hnodes, Hlast.
  split; [exact (Hnodes 1%nat ltac:(lia)) | exact Hlast].
Defined.

(** The grid of a security that has not matured yet. *)
Lemma live_params (s : SecuritySchema) :
  (valuation_date s < maturity_date s)%Z ->
  let days := (maturity_date s - valuation_date s)%Z in
  Z.of_nat (engine_N s) = ((days + 6) / 7)%Z /\
  (1 <= engine_N s)%nat /\
  (days <= 7 * Z.of_nat (engine_N s))%Z /\
  grid_at (engine_grid s) (engine_N s)
  = mkTimeStep (engine_N s) (maturity_date s)
      (getDateDiffYears (valuation_date s) (maturity_date s)).
Proof.
  intros Hlt; cbv zeta.
  unfold engine_N, engine_grid, generateTimeGrid, grid_at.
  destruct (Z.leb_spec (maturity_date s) (valuation_date s)); [lia|].
  destruct (weekly_grid_shape (Z.to_nat (maturity_date s - valuation_date s))
              (valuation_date s) (maturity_date s) (valuation_date s) 0)
    as (Hlen & _ & Hlast); [lia|].
  cbv zeta in Hlen, Hlast.
  rewrite Hlen; cbn [Nat.sub]; rewrite Nat.sub_0_r.
  set (days := (maturity_date s - valuation_date s)%Z) in *.
  assert (Hdiv : (1 <= (days + 6) / 7)%Z)
    by (apply Z.div_le_lower_bound; lia).
  pose proof (Z.div_mod (days + 6) 7 ltac:(lia)) as Hdm.
  pose proof (Z.mod_pos_bound (days + 6) 7 ltac:(lia)) as Hmod.
  repeat split; try lia.
  exact Hlast.
Qed.

(** X2.  Whatever the dates of the security, the step of its lattice is
    positive and at most one week ([7 / 365] of a year), and the [N] steps
    add up to the horizon: the year fraction from valuation to maturity,
    or [0.0027] for a security at or past its maturity. *)
Theorem X2_step_length (s : SecuritySchema) :
  0 < engine_dt s <= 7 / 365 /\
  engine_dt s * INR (engine_N s)
  = if (maturity_date s <=? valuation_date s)%Z then 27 / 10000
    else getDateDiffYears (valuation_date s) (maturity_date s).
Proof.
  destruct (Z.leb_spec (maturity_date s) (valuation_date s)) as [Hm|Hlive].
  - destruct (matured_params s Hm) as (HN & Hdt).
    rewrite Hdt, HN, INR_1; lra.
  - destruct (live_params s Hlive) as (_ & HN1 & Hdays & Hlast).
    unfold engine_dt; rewrite Hlast; cbn [t_years]; unfold getDateDiffYears.
    set (days := (maturity_date s - valuation_date s)%Z) in *.
    assert (Hn : 1 <= INR (engine_N s)) by (rewrite <- INR_1; now apply le_INR).
    assert (Hd0 : 0 < IZR days) by (apply IZR_lt; lia).
    assert (Hd7 : IZR days <= 7 * INR (engine_N s)).
    { rewrite INR_IZR_INZ, <- mult_IZR; now apply IZR_le. }
    set (n := INR (engine_N s)) in *.
    assert (Hinv : 0 < / n) by (apply Rinv_0_lt_compat; lra).
    split; [split|].
    + unfold Rdiv; apply Rmult_lt_0_compat; [lra | exact Hinv].
    + apply (Rmult_le_reg_r n); [lra|].
      unfold Rdiv; rewrite Rmult_assoc, Rinv_l by lra; lra.
    + unfold Rdiv; rewrite Rmult_assoc, Rinv_l by lra; lra.
Qed.

(** The engine's step is always shorter than a year. *)
Lemma engine_dt_bounds (s : SecuritySchema) : 0 < engine_dt s < 1.
Proof.
  destruct (Z.leb_spec (maturity_date s) (valuation_date s)) as [Hm|Hlive].
  - destruct (matured_params s Hm) as (_ & Hdt); rewrite Hdt; lra.
  - destruct (live_params s Hlive) as (_ & HN1 & Hdays & Hlast).
    unfold engine_dt; rewrite Hlast; cbn [t_years]; unfold getDateDiffYears.
    set (days := (maturity_date s - valuation_date s)%Z) in *.
    assert (Hn : 1 <= INR (engine_N s)) by (rewrite <- INR_1; now apply le_INR).
    assert (Hd0 : 0 < IZR days) by (apply IZR_lt; lia).
    assert (Hd7 : IZR days <= 7 * INR (engine_N s)).
    { rewrite INR_IZR_INZ, <- mult_IZR; now apply IZR_le. }
    set (n := INR (engine_N s)) in *.
    assert (Hinv : 0 < / n) by (apply Rinv_0_lt_compat; lra).
    split.
    + unfold Rdiv; apply Rmult_lt_0_compat; [lra | exact Hinv].
    + apply (Rmult_lt_reg_r n); [lra|].
      unfold Rdiv; rewrite Rmult_assoc, Rinv_l by lra; lra.
Qed.

(** ** Non-negative values for a holder under flat rates *)



(** ** The rate arrays of the engine *)

Lemma stepwise_or_flat_length (arr : option (list R)) (flat : R) (N : nat) :
  length (stepwise_or_flat arr flat N) = N.
Proof.
  unfold stepwise_or_flat; destruct arr as [l|]; [|apply repeat_length].
  destruct (Nat.leb_spec N (length l)); [|apply repeat_length].
  rewrite length_firstn; lia.
Qed.

Lemma stepwise_or_flat_exact (l : list R) (flat : R) :
  stepwise_or_flat (Some l) flat (length l) = l.
Proof.
  unfold stepwise_or_flat; rewrite Nat.leb_refl; apply firstn_all.
Qed.

(** A security with other stepwise arrays has the same grid. *)
Lemma engine_params_stepwise rf cs s :
  engine_grid (set_stepwise rf cs s) = engine_grid s /\
  engine_N (set_stepwise rf cs s) = engine_N s /\
  engine_dt (set_stepwise rf cs s) = engine_dt s /\
  engine_u (set_stepwise rf cs s) = engine_u s /\
  engine_d (set_stepwise rf cs s) = engine_d s.
Proof. repeat split; reflexivity. Qed.

(** X4.  A stepwise risk-free array shorter than the lattice is dropped as a
    whole: the engine prices with the flat risk-free rate, all values and
    logs being those of the same security without the array; yet the result
    is labelled as priced on the bootstrapped curve. *)
Theorem X4_short_array_ignored (s : SecuritySchema) (l : list R) :
  stepwise_risk_free_rates s = Some l ->
  (length l < engine_N s)%nat ->
  let r := runPricingEngine s in
  let r0 := runPricingEngine (set_stepwise None (stepwise_credit_spreads s) s) in
  fair_value_total r = fair_value_total r0 /\
  fair_value_host r = fair_value_host r0 /\
  fair_value_deriv r = fair_value_deriv r0 /\
  tf_debt_component r = tf_debt_component r0 /\
  tf_equity_component r = tf_equity_component r0 /\
  node_logs r = node_logs r0 /\
  used_curve_source (meta r) = Some Bootstrapped_Curve /\
  used_curve_source (meta r0) = Some Flat_Rate.
Proof.
  intros Hl Hshort; cbv zeta.
  assert (Hrf : engine_rf_t s
                = engine_rf_t (set_stepwise None (stepwise_credit_spreads s) s)).
  { unfold engine_rf_t, stepwise_or_flat; rewrite Hl.
    cbn [set_stepwise stepwise_risk_free_rates risk_free_rate].
    change (engine_N (set_stepwise None (stepwise_credit_spreads s) s))
      with (engine_N s).
    destruct (Nat.leb_spec (engine_N s) (length l)); [lia | reflexivity]. }
  rewrite !runPricingEngine_dispatch.
  change (security_type (set_stepwise None (stepwise_credit_spreads s) s))
    with (security_type s).
  change (engine_cs_t (set_stepwise None (stepwise_credit_spreads s) s))
    with (engine_cs_t s).
  rewrite <- Hrf.
  destruct (engine_params_stepwise None (stepwise_credit_spreads s) s)
    as (-> & -> & -> & -> & ->).
  destruct (security_type s);
    unfold calculateTF, calculateESO, curve_source;
    cbn [fair_value_total fair_value_host fair_value_deriv tf_debt_component
         tf_equity_component node_logs meta used_curve_source];
    rewrite Hl; repeat split; reflexivity.
Qed.

(** X4 on the default security with an empty stepwise array. *)
Lemma X4_short_array_ignored_witness :
  let s := set_stepwise (Some []) None sample_rcps in
  fair_value_total (runPricingEngine s)
  = fair_value_total (runPricingEngine (set_stepwise None None s)) /\
  used_curve_source (meta (runPricingEngine s)) = Some Bootstrapped_Curve.
Proof.
  cbv zeta.
  pose proof (engine_N_pos (set_stepwise (Some []) None sample_rcps)) as HN.
  destruct (X4_short_array_ignored (set_stepwise (Some []) None sample_rcps) []
              eq_refl HN) as (Htot & _ & _ & _ & _ & _ & Hsrc & _).
  split; [exact Htot | exact Hsrc].
Defined.

(** ** The stepwise forward rates ([buildStepwiseRates]) *)

Lemma getInterpolatedDF_nonempty (p : ZeroCurvePoint) (zc : list ZeroCurvePoint)
    (t : R) :
  exists v, getInterpolatedDF (p :: zc) t = Some v.
Proof.
  unfold getInterpolatedDF.
  destruct (Rleb t 0); [eauto|].
  destruct (Rleb t (zero_tenor_years p)); [eauto|].
  destruct (Rgeb t _); eauto.
Qed.

Lemma getInterpolatedDF_empty (t : R) :
  0 < t -> getInterpolatedDF [] t = None.
Proof.
  intros Ht; unfold getInterpolatedDF.
  now rewrite (proj2 (Rleb_false t 0)) by lra.
Qed.

Lemma stepwise_loop_length zeroRf_ zeroCs dt ts :
  forall rf cs,
    stepwise_loop zeroRf_ zeroCs dt ts = Some (rf, cs) ->
    length rf = length ts /\ length cs = length ts.
Proof.
  induction ts as [|t ts IH]; intros rf cs H; cbn [stepwise_loop] in H.
  - injection H as <- <-; split; reflexivity.
  - destruct (forward_rate zeroRf_ dt t); [|discriminate].
    destruct (forward_rate zeroCs dt t); [|discriminate].
    destruct (stepwise_loop zeroRf_ zeroCs dt ts) as [[rf' cs']|];
      [|discriminate].
    injection H as <- <-.
    destruct (IH rf' cs' eq_refl) as (Hrf & Hcs).
    cbn [length]; rewrite Hrf, Hcs; split; reflexivity.
Qed.

Lemma forward_rate_nonempty p zc dt t :
  exists f, forward_rate (p :: zc) dt t = Some f.
Proof.
  unfold forward_rate.
  destruct (getInterpolatedDF_nonempty p zc (INR t * dt)) as (v1 & ->).
  destruct (getInterpolatedDF_nonempty p zc (INR (t + 1) * dt)) as (v2 & ->).
  eauto.
Qed.

Lemma stepwise_loop_total p zc p' zc' dt ts :
  exists rf cs, stepwise_loop (p :: zc) (p' :: zc') dt ts = Some (rf, cs).
Proof.
  induction ts as [|t ts (rf & cs & IH)]; cbn [stepwise_loop]; [eauto|].
  destruct (forward_rate_nonempty p zc dt t) as (f & ->).
  destruct (forward_rate_nonempty p' zc' dt t) as (f' & ->).
  rewrite IH; eauto.
Qed.

(** X5.  [buildStepwiseRates] returns one forward rate per step on each
    curve; on two non-empty curves it always returns; on an empty curve it
    fails at the first step (the curve is indexed at [0]) as soon as there
    is a step of positive length. *)
Theorem X5_stepwise_rates_shape (zeroRf_ zeroCs : list ZeroCurvePoint)
    (N : nat) (dt : R) :
  (forall rf cs, buildStepwiseRates zeroRf_ zeroCs N dt = Some (rf, cs) ->
     length rf = N /\ length cs = N) /\
  (zeroRf_ <> [] -> zeroCs <> [] ->
   exists rf cs, buildStepwiseRates zeroRf_ zeroCs N dt = Some (rf, cs)) /\
  ((zeroRf_ = [] \/ zeroCs = []) -> (1 <= N)%nat -> 0 < dt ->
   buildStepwiseRates zeroRf_ zeroCs N dt = None).
Proof.
  unfold buildStepwiseRates; split; [|split].
  - intros rf cs H.
    destruct (stepwise_loop_length _ _ _ _ _ _ H) as (-> & ->).
    now rewrite length_seq.
  - intros Hrf Hcs.
    destruct zeroRf_ as [|p zc]; [congruence|].
    destruct zeroCs as [|p' zc']; [congruence|].
    apply stepwise_loop_total.
  - intros Hempty HN Hdt.
    destruct N as [|N]; [lia|].
    cbn [seq stepwise_loop].
    assert (HT2 : 0 < INR (0 + 1) * dt)
      by (cbn [Nat.add]; rewrite INR_1; lra).
    assert (Hnone : forall zc, zc = [] -> forward_rate zc dt 0 = None).
    { intros zc ->; unfold forward_rate.
      rewrite (getInterpolatedDF_empty _ HT2).
      now destruct (getInterpolatedDF [] (INR 0 * dt)). }
    destruct Hempty as [E|E].
    + now rewrite (Hnone _ E).
    + rewrite (Hnone _ E).
      now destruct (forward_rate zeroRf_ dt 0).
Qed.

(** X5 on a one-point curve and on a missing curve. *)
Lemma X5_stepwise_rates_shape_witness :
  (exists rf cs,
     buildStepwiseRates [mkZeroCurvePoint 1 0 1] [mkZeroCurvePoint 1 0 1] 2 1
     = Some (rf, cs)) /\
  buildStepwiseRates [mkZeroCurvePoint 1 0 1] [] 2 1 = None.
Proof.
  destruct (X5_stepwise_rates_shape [mkZeroCurvePoint 1 0 1]
              [mkZeroCurvePoint 1 0 1] 2 1) as (_ & Htotal & _).
  destruct (X5_stepwise_rates_shape [mkZeroCurvePoint 1 0 1] [] 2 1)
    as (_ & _ & Hfail).
  split.
  - apply Htotal; discriminate.
  - apply Hfail; [now right | lia | lra].
Defined.

(** ** The curves of the application and the engine *)

Lemma app_curve_pipeline_cases auto dc deal secDef :
  app_curve_pipeline auto dc deal secDef = Some (None, None) \/
  app_curve_pipeline auto dc deal secDef = None \/
  exists rf cs,
    app_curve_pipeline auto dc deal secDef = Some (Some rf, Some cs) /\
    auto = true /\
    let grid := generateTimeGrid (deal_valuation_date deal) (maturity_date secDef) in
    let N := (length grid - 1)%nat in
    length rf = N /\ length cs = N.
Proof.
  unfold app_curve_pipeline.
  destruct auto; cbn [andb]; [|now left].
  destruct (0 <? length (with_default (zeroRf dc) []))%nat; [|now left].
  destruct (0 <? _ - 1)%nat; [|now left].
  match goal with
  | |- context [buildStepwiseRates ?a ?b ?n ?x] =>
      destruct (buildStepwiseRates a b n x) as [[rf cs]|] eqn:Hb
  end; [|now right; left].
  right; right; exists rf, cs.
  split; [reflexivity|].
  split; [reflexivity|].
  cbv zeta.
  unfold buildStepwiseRates in Hb.
  destruct (stepwise_loop_length _ _ _ _ _ _ Hb) as (Hrf & Hcs).
  rewrite length_seq in Hrf, Hcs; split; assumption.
Qed.

(** X6.  Whenever the application hands stepwise arrays to the engine, they
    were built on the security's own grid, so they have exactly [N]
    entries: the engine uses them unchanged, as its risk-free rates and its
    credit spreads, and labels the result as priced on the bootstrapped
    curve. *)
Theorem X6_bootstrapped_rates_used (auto : bool) (dc : DebugCurves)
    (deal : DealSchema) (secDef : SecuritySchema) (rf cs : list R) :
  app_curve_pipeline auto dc deal secDef = Some (Some rf, Some cs) ->
  let s := full_schema deal secDef (Some rf) (Some cs) in
  length rf = engine_N s /\
  engine_rf_t s = rf /\
  engine_cs_t s = cs /\
  used_curve_source (meta (runPricingEngine s)) = Some Bootstrapped_Curve.
Proof.
  intros Hp; cbv zeta.
  destruct (app_curve_pipeline_cases auto dc deal secDef)
    as [H|[H|(rf' & cs' & H & _ & Hlen)]]; rewrite H in Hp; try discriminate.
  injection Hp as -> ->; cbv zeta in Hlen; destruct Hlen as (Hrf & Hcs).
  assert (HN : engine_N (full_schema deal secDef (Some rf) (Some cs))
               = length rf) by (rewrite Hrf; reflexivity).
  split; [now rewrite HN|].
  split; [|split].
  - unfold engine_rf_t; rewrite HN.
    cbn [full_schema stepwise_risk_free_rates].
    apply stepwise_or_flat_exact.
  - unfold engine_cs_t; rewrite HN, Hrf, <- Hcs.
    cbn [full_schema stepwise_credit_spreads].
    apply stepwise_or_flat_exact.
  - rewrite runPricingEngine_dispatch.
    destruct (security_type _); reflexivity.
Qed.

Lemma app_curve_pipeline_auto dc deal secDef p zc q cc :
  zeroRf dc = Some (p :: zc) ->
  csCurve dc = Some (q :: cc) ->
  exists rf cs,
    app_curve_pipeline true dc deal secDef = Some (Some rf, Some cs).
Proof.
  intros Hz Hc; unfold app_curve_pipeline; rewrite Hz, Hc.
  cbn [with_default andb bootstrapZeroCurve map].
  change (0 <? length (p :: zc))%nat with true; cbv iota.
  pose proof (generateTimeGrid_length (deal_valuation_date deal)
                (maturity_date secDef)) as Hlen.
  destruct (Nat.ltb_spec 0
              (length (generateTimeGrid (deal_valuation_date deal)
                         (maturity_date secDef)) - 1)) as [_|Hbad]; [|lia].
  unfold buildStepwiseRates.
  match goal with
  | |- context [stepwise_loop (p :: zc) (?p' :: ?zc') ?x ?ts] =>
      destruct (stepwise_loop_total p zc p' zc' x ts) as (rf & cs & Hs)
  end.
  rewrite Hs; eauto.
Qed.

(** X6 on the default security, in automatic mode with one-point curves. *)
Lemma X6_bootstrapped_rates_used_witness :
  let dc := mkDebugCurves None (Some [mkCurvePoint 1 0])
              (Some [mkZeroCurvePoint 1 0 1]) in
  let deal := mkDeal 0 20000 1000000 (35 / 100) (35 / 1000) (2 / 100)
                [sample_rcps] in
  exists rf cs,
    app_curve_pipeline true dc deal sample_rcps = Some (Some rf, Some cs) /\
    engine_rf_t (full_schema deal sample_rcps (Some rf) (Some cs)) = rf.
Proof.
  cbv zeta.
  destruct (app_curve_pipeline_auto
              (mkDebugCurves None (Some [mkCurvePoint 1 0])
                 (Some [mkZeroCurvePoint 1 0 1]))
              (mkDeal 0 20000 1000000 (35 / 100) (35 / 1000) (2 / 100)
                 [sample_rcps])
              sample_rcps _ _ _ _ eq_refl eq_refl) as (rf & cs & Hp).
  exists rf, cs; split; [exact Hp|].
  exact (proj1 (proj2 (X6_bootstrapped_rates_used _ _ _ _ _ _ Hp))).
Defined.

(** ** The standard curves ([buildCurves]) *)

Lemma buildCurves_loop_tenors md ts :
  forall rfc csc,
    buildCurves_loop md ts = Some (rfc, csc) ->
    map curve_tenor_years rfc = ts /\ map curve_tenor_years csc = ts.
Proof.
  induction ts as [|t ts IH]; intros rfc csc H; cbn [buildCurves_loop] in H.
  - injection H as <- <-; split; reflexivity.
  - destruct (getInterpolatedYield (gov_bond_yields md) t); [|discriminate].
    destruct (getInterpolatedYield (corp_bond_yields md) t); [|discriminate].
    destruct (buildCurves_loop md ts) as [[rfc' csc']|]; [|discriminate].
    injection H as <- <-.
    destruct (IH rfc' csc' eq_refl) as (Hrf & Hcs).
    cbn [map curve_tenor_years]; rewrite Hrf, Hcs; split; reflexivity.
Qed.

Lemma fetched_curves_nonempty md dc :
  fetched_curves md = Some dc ->
  exists p zc q cc, zeroRf dc = Some (p :: zc) /\ csCurve dc = Some (q :: cc).
Proof.
  unfold fetched_curves, buildCurves.
  destruct (buildCurves_loop md standard_tenors) as [[rfc csc]|] eqn:Hb;
    [|discriminate].
  intros H; injection H as <-; cbn [zeroRf csCurve].
  destruct (buildCurves_loop_tenors _ _ _ _ Hb) as (Hrf & Hcs).
  destruct rfc as [|p rfc]; [discriminate|].
  destruct csc as [|q csc]; [discriminate|].
  cbn [bootstrapZeroCurve map]; eauto 8.
Qed.

(** ** The derivative as an asset or a liability *)

Lemma deriv_sides (v a l : R) :
  a = Rmax v 0 -> l = Rmax (- v) 0 ->
  a - l = v /\ 0 <= a /\ 0 <= l /\ a * l = 0.
Proof.
  intros -> ->; unfold Rmax.
  destruct (Rle_dec v 0), (Rle_dec (- v) 0); repeat split; try lra; ring.
Qed.

Lemma engine_deriv_sides (s : SecuritySchema) :
  let r := runPricingEngine s in
  fair_value_deriv_asset r = Rmax (fair_value_deriv r) 0 /\
  fair_value_deriv_liab r = Rmax (- fair_value_deriv r) 0.
Proof.
  cbv zeta; rewrite runPricingEngine_dispatch.
  destruct (security_type s);
    unfold calculateTF, calculateESO;
    cbn [fair_value_deriv_asset fair_value_deriv_liab fair_value_deriv];
    rewrite ?Rmax_pos_part, ?Rmax_neg_part; split; reflexivity.
Qed.

(** X7.  In every result of the engine the derivative is booked on one side
    only: [fair_value_deriv_asset] is its positive part and
    [fair_value_deriv_liab] its negative part, so both are non-negative, at
    most one of them is not zero, and their difference is the signed
    [fair_value_deriv]. *)
Theorem X7_deriv_asset_or_liab (s : SecuritySchema) :
  let r := runPricingEngine s in
  fair_value_deriv_asset r - fair_value_deriv_liab r = fair_value_deriv r /\
  0 <= fair_value_deriv_asset r /\
  0 <= fair_value_deriv_liab r /\
  fair_value_deriv_asset r * fair_value_deriv_liab r = 0.
Proof.
  cbv zeta.
  destruct (engine_deriv_sides s) as (Ha & Hl); cbv zeta in Ha, Hl.
  exact (deriv_sides _ _ _ Ha Hl).
Qed.

(** ** The totals of a deal *)

Lemma price_all_engine pipeline deal secs :
  Forall (fun r => exists s, r = runPricingEngine s)
    (price_all pipeline deal secs).
Proof.
  induction secs as [|sd secs IH]; cbn [price_all]; [constructor|].
  unfold price_security.
  destruct (pipeline deal sd) as [[rf cs]|]; [|exact IH].
  constructor; [eauto | exact IH].
Qed.

Lemma fold_agg_engine (l : list PricingResult) :
  Forall (fun r => exists s, r = runPricingEngine s) l ->
  forall acc,
    let a := fold_left agg_step l acc in
    agg_host a + agg_deriv a - agg_total a
    = agg_host acc + agg_deriv acc - agg_total acc /\
    agg_deriv_asset a - agg_deriv_liab a - agg_deriv a
    = agg_deriv_asset acc - agg_deriv_liab acc - agg_deriv acc /\
    (0 <= agg_asset acc -> 0 <= agg_asset a) /\
    (0 <= agg_liab acc -> 0 <= agg_liab a) /\
    (0 <= agg_deriv_asset acc -> 0 <= agg_deriv_asset a) /\
    (0 <= agg_deriv_liab acc -> 0 <= agg_deriv_liab a).
Proof.
  induction 1 as [|r l (s & ->) _ IH]; intros acc; cbn [fold_left].
  - cbv zeta; repeat split; auto.
  - destruct (IH (agg_step acc (runPricingEngine s)))
      as (H1 & H2 & H3 & H4 & H5 & H6).
    cbv zeta in *.
    cbn [agg_step agg_host agg_deriv agg_total agg_deriv_asset agg_deriv_liab
         agg_asset agg_liab] in H1, H2, H3, H4, H5, H6.
    rewrite Rmax_pos_part in H3; rewrite Rmax_neg_part in H4.
    pose proof (runPricingEngine_dispatch s) as Hd.
    assert (Hsplit : fair_value_total (runPricingEngine s)
                     = fair_value_host (runPricingEngine s)
                       + fair_value_deriv (runPricingEngine s)).
    { rewrite Hd; destruct (security_type s);
        first [apply calculateTF_split | apply calculateESO_split]. }
    destruct (engine_deriv_sides s) as (Ha & Hl); cbv zeta in Ha, Hl.
    destruct (deriv_sides _ _ _ Ha Hl) as (Hdiff & Hapos & Hlpos & _).
    pose proof (Rmax_r (fair_value_total (runPricingEngine s)) 0).
    pose proof (Rmax_r (- fair_value_total (runPricingEngine s)) 0).
    split; [lra|]. split; [lra|].
    split; [intros; apply H3; lra|].
    split; [intros; apply H4; lra|].
    split; [intros; apply H5; lra|].
    intros; apply H6; lra.
Qed.

(** X8.  The totals of a deal inherit the splits of its securities, whatever
    was skipped: host plus derivative is the total value, derivative asset
    minus derivative liability is the derivative total, and the four
    asset / liability totals are not negative. *)
Theorem X8_deal_totals
    (curve_pipeline :
       DealSchema -> SecuritySchema -> option (option (list R) * option (list R)))
    (deal : DealSchema) :
  let res := calculateDeal curve_pipeline deal in
  deal_total_host res + deal_total_deriv res = deal_total_value res /\
  deal_total_deriv_asset res - deal_total_deriv_liab res = deal_total_deriv res /\
  0 <= deal_total_asset res /\ 0 <= deal_total_liab res /\
  0 <= deal_total_deriv_asset res /\ 0 <= deal_total_deriv_liab res.
Proof.
  cbv zeta; unfold calculateDeal;
    cbn [deal_total_host deal_total_deriv deal_total_value
         deal_total_deriv_asset deal_total_deriv_liab deal_total_asset
         deal_total_liab].
  destruct (fold_agg_engine _
              (price_all_engine curve_pipeline deal (securities deal)) agg_zero)
    as (H1 & H2 & H3 & H4 & H5 & H6).
  cbv zeta in *.
  cbn [agg_zero agg_host agg_deriv agg_total agg_deriv_asset agg_deriv_liab
       agg_asset agg_liab] in H1, H2, H3, H4, H5, H6.
  split; [lra|]. split; [lra|].
  split; [apply H3; lra|].
  split; [apply H4; lra|].
  split; [apply H5; lra | apply H6; lra].
Qed.

(** ** Which securities the application prices *)

Lemma price_all_total pipeline deal secs :
  (forall sd, In sd secs -> pipeline deal sd <> None) ->
  length (price_all pipeline deal secs) = length secs.
Proof.
  induction secs as [|sd secs IH]; intros Hp; cbn [price_all]; [reflexivity|].
  unfold price_security.
  destruct (pipeline deal sd) as [[rf cs]|] eqn:E.
  - cbn [length]; f_equal; apply IH; intros sd' Hin; apply Hp; now right.
  - exfalso; apply (Hp sd); [now left | exact E].
Qed.

Lemma price_all_flat pipeline deal secs :
  (forall sd, In sd secs -> pipeline deal sd = Some (None, None)) ->
  price_all pipeline deal secs
  = map (fun sd => runPricingEngine (full_schema deal sd None None)) secs.
Proof.
  induction secs as [|sd secs IH]; intros Hp; cbn [price_all map]; [reflexivity|].
  unfold price_security; rewrite (Hp sd) by now left.
  f_equal; apply IH; intros sd' Hin; apply Hp; now right.
Qed.

Lemma app_curve_pipeline_flat auto dc deal secDef :
  auto = false \/ zeroRf dc = None ->
  app_curve_pipeline auto dc deal secDef = Some (None, None).
Proof.
  intros [->| Hz]; unfold app_curve_pipeline; [reflexivity|].
  rewrite Hz; destruct auto; reflexivity.
Qed.

(** X9.  In manual mode, in automatic mode before any curve has arrived, and
    in automatic mode with the curves that [handleAutoFetchToggle] stores,
    the application skips no security: the deal result holds one pricing
    result per security.  In the first two cases each security is priced
    with the flat rates of the deal. *)
Theorem X9_no_security_skipped (auto : bool) (dc : DebugCurves)
    (deal : DealSchema) :
  (auto = false \/ zeroRf dc = None ->
   results (calculateDeal (app_curve_pipeline auto dc) deal)
   = map (fun sd => runPricingEngine (full_schema deal sd None None))
       (securities deal)) /\
  ((exists marketData, fetched_curves marketData = Some dc) ->
   length (results (calculateDeal (app_curve_pipeline auto dc) deal))
   = length (securities deal)).
Proof.
  unfold calculateDeal; cbn [results]; split.
  - intros H; apply price_all_flat; intros sd _.
    now apply app_curve_pipeline_flat.
  - intros (md & Hmd); apply price_all_total; intros sd _.
    destruct (fetched_curves_nonempty md dc Hmd) as (p & zc & q & cc & Hz & Hc).
    destruct auto.
    + destruct (app_curve_pipeline_auto dc deal sd p zc q cc Hz Hc)
        as (rf & cs & ->); discriminate.
    + rewrite app_curve_pipeline_flat by now left. discriminate.
Qed.

Lemma app_curve_pipeline_fetched (rf_curve cs_curve : list CurvePoint)
    (deal : DealSchema) (secDef : SecuritySchema) :
  rf_curve <> [] ->
  app_curve_pipeline true
    (mkDebugCurves (Some rf_curve) (Some cs_curve)
       (Some (bootstrapZeroCurve rf_curve))) deal secDef
  = match buildStepwiseRates (bootstrapZeroCurve rf_curve)
            (bootstrapZeroCurve cs_curve)
            (engine_N (full_schema deal secDef None None))
            (engine_dt (full_schema deal secDef None None)) with
    | Some (rf, cs) => Some (Some rf, Some cs)
    | None => None
    end.
Proof.
  intros Hne; destruct rf_curve as [|p rest]; [congruence|].
  unfold app_curve_pipeline; cbn [zeroRf csCurve with_default andb].
  change (0 <? length (bootstrapZeroCurve (p :: rest)))%nat with true.
  cbv iota.
  pose proof (engine_N_pos (full_schema deal secDef None None)) as HN.
  unfold engine_N, engine_grid in HN.
  cbn [full_schema valuation_date maturity_date] in HN.
  destruct (Nat.ltb_spec 0
              (length (generateTimeGrid (deal_valuation_date deal)
                         (maturity_date secDef)) - 1)) as [_|Hbad]; [|lia].
  reflexivity.
Qed.

(** X10.  In automatic mode with the curves that [handleAutoFetchToggle]
    stores, every security of the deal is priced, in order, on the stepwise
    forward rates that [buildStepwiseRates] derives on the security's own
    grid from the two bootstrapped standard curves, and every result is
    labelled as priced on the bootstrapped curve. *)
Theorem X10_fetched_curves_priced (marketData : MarketData)
    (dc : DebugCurves) (deal : DealSchema) :
  fetched_curves marketData = Some dc ->
  exists rf_curve cs_curve,
    buildCurves marketData = Some (rf_curve, cs_curve) /\
    Forall2
      (fun secDef res =>
         exists rf cs,
           buildStepwiseRates (bootstrapZeroCurve rf_curve)
             (bootstrapZeroCurve cs_curve)
             (engine_N (full_schema deal secDef None None))
             (engine_dt (full_schema deal secDef None None))
           = Some (rf, cs) /\
           res = runPricingEngine (full_schema deal secDef (Some rf) (Some cs)) /\
           used_curve_source (meta res) = Some Bootstrapped_Curve)
      (securities deal)
      (results (calculateDeal (app_curve_pipeline true dc) deal)).
Proof.
  unfold fetched_curves, buildCurves.
  destruct (buildCurves_loop marketData standard_tenors)
    as [[rf_curve cs_curve]|] eqn:Hb; [|discriminate].
  intros H; injection H as <-.
  exists rf_curve, cs_curve; split; [reflexivity|].
  destruct (buildCurves_loop_tenors _ _ _ _ Hb) as (Hrf & Hcs).
  destruct rf_curve as [|p rfc]; [discriminate|].
  destruct cs_curve as [|q csc]; [discriminate|].
  unfold calculateDeal; cbn [results].
  induction (securities deal) as [|sd secs IH]; cbn [price_all];
    [constructor|].
  unfold price_security.
  rewrite (app_curve_pipeline_fetched (p :: rfc) (q :: csc) deal sd)
    by discriminate.
  assert (Hs : exists rf cs,
            buildStepwiseRates (bootstrapZeroCurve (p :: rfc))
              (bootstrapZeroCurve (q :: csc))
              (engine_N (full_schema deal sd None None))
              (engine_dt (full_schema deal sd None None)) = Some (rf, cs)).
  { unfold buildStepwiseRates; cbn [bootstrapZeroCurve map].
    apply stepwise_loop_total. }
  destruct Hs as (rf & cs & Hs); rewrite Hs.
  constructor; [|exact IH].
  exists rf, cs; split; [exact Hs|]. split; [reflexivity|].
  rewrite runPricingEngine_dispatch.
  destruct (security_type _); reflexivity.
Qed.


(** X9 on the default deal in manual mode. *)
Lemma X9_no_security_skipped_witness :
  let deal := mkDeal 0 20000 1000000 (35 / 100) (35 / 1000) (2 / 100)
                [sample_rcps] in
  results (calculateDeal (app_curve_pipeline false cleared_curves) deal)
  = [runPricingEngine (full_schema deal sample_rcps None None)].
Proof.
  cbv zeta.
  apply (proj1 (X9_no_security_skipped false cleared_curves
                  (mkDeal 0 20000 1000000 (35 / 100) (35 / 1000) (2 / 100)
                     [sample_rcps]))).
  now left.
Defined.

(** ** The two sides of a position *)

Ltac mirror_sign :=
  unfold position_sign; cbn [set_position position option_map];
  try reflexivity; try f_equal;
  match goal with
  | |- ?a * _ = - (?b * _) => change a with b; ring
  | |- 0 = - 0 => ring
  end.

(** X11.  The issuer's result mirrors the holder's: total, host, derivative
    and the per-share (or per-option) value change sign, and the derivative
    asset of one side is the derivative liability of the other. *)
Theorem X11_issuer_mirrors_holder (s : SecuritySchema) :
  let h := runPricingEngine (set_position HOLDER s) in
  let i := runPricingEngine (set_position ISSUER s) in
  fair_value_total i = - fair_value_total h /\
  fair_value_host i = - fair_value_host h /\
  fair_value_deriv i = - fair_value_deriv h /\
  fair_value_deriv_asset i = fair_value_deriv_liab h /\
  fair_value_deriv_liab i = fair_value_deriv_asset h /\
  fair_value_per_share i = option_map Ropp (fair_value_per_share h) /\
  eso_val_per_option i = option_map Ropp (eso_val_per_option h).
Proof.
  cbv zeta.
  destruct (engine_deriv_sides (set_position ISSUER s)) as (Hai & Hli).
  destruct (engine_deriv_sides (set_position HOLDER s)) as (Hah & Hlh).
  cbv zeta in Hai, Hli, Hah, Hlh.
  rewrite Hai, Hli, Hah, Hlh.
  assert (Hderiv :
    fair_value_deriv (runPricingEngine (set_position ISSUER s))
    = - fair_value_deriv (runPricingEngine (set_position HOLDER s))).
  { rewrite !runPricingEngine_dispatch.
    change (security_type (set_position ISSUER s)) with (security_type s).
    change (security_type (set_position HOLDER s)) with (security_type s).
    destruct (security_type s);
      unfold calculateTF, calculateESO; cbn [fair_value_deriv]; mirror_sign. }
  rewrite Hderiv, Ropp_involutive.
  rewrite !runPricingEngine_dispatch.
  change (security_type (set_position ISSUER s)) with (security_type s).
  change (security_type (set_position HOLDER s)) with (security_type s).
  destruct (security_type s);
    unfold calculateTF, calculateESO;
    cbn [fair_value_total fair_value_host fair_value_deriv
         fair_value_per_share eso_val_per_option];
    change (isPerShare (set_position ISSUER s)) with (isPerShare s);
    change (isPerShare (set_position HOLDER s)) with (isPerShare s);
    try destruct (isPerShare s);
    repeat (split; [mirror_sign|]); mirror_sign.
Qed.

(** ** The decision cascade of a TF node *)

Lemma stage_convert_value (conv : R) (st : Decision) :
  V_hold (stage_convert conv st) = Rmax (V_hold st) conv.
Proof.
  unfold stage_convert; case_cmp; cbn [V_hold]; unfold Rmax;
    destruct (Rle_dec (V_hold st) conv); lra.
Qed.

Lemma stage_call_value (can : bool) (cprice : option R) (conv : R)
    (st : Decision) :
  V_hold (stage_call can cprice conv st)
  = match can, cprice with
    | true, Some c => Rmin (V_hold st) (Rmax c conv)
    | _, _ => V_hold st
    end.
Proof.
  unfold stage_call; destruct can; [|reflexivity].
  destruct cprice as [c|]; [|reflexivity].
  cbv zeta; case_cmp; [case_cmp|]; cbn [V_hold]; unfold Rmin;
    destruct (Rle_dec (V_hold st) (Rmax c conv)); lra.
Qed.

Lemma stage_put_value (can : bool) (pprice : option R) (st : Decision) :
  V_hold (stage_put can pprice st)
  = match can, pprice with
    | true, Some p => Rmax (V_hold st) p
    | _, _ => V_hold st
    end.
Proof.
  unfold stage_put; destruct can; [|reflexivity].
  destruct pprice as [p|]; [|reflexivity].
  case_cmp; cbn [V_hold]; unfold Rmax;
    destruct (Rle_dec (V_hold st) p); lra.
Qed.

Lemma cascade_value_spec canc cprice canp pprice conv st0 :
  V_hold (stage_put canp pprice
            (stage_call canc cprice conv (stage_convert conv st0)))
  = cascade_value canc cprice canp pprice conv (V_hold st0).
Proof.
  rewrite stage_put_value, stage_call_value, stage_convert_value.
  reflexivity.
Qed.

Lemma stage_convert_legs conv cprice pprice st0 st :
  decision_legs conv cprice pprice st0 st ->
  decision_legs conv cprice pprice st0 (stage_convert conv st).
Proof.
  intros H; unfold stage_convert; case_cmp; [|exact H].
  split; cbn [V_hold D_final E_final flag]; [lra | split; reflexivity].
Qed.

Lemma stage_call_legs can conv cprice pprice st0 st :
  decision_legs conv cprice pprice st0 st ->
  decision_legs conv cprice pprice st0 (stage_call can cprice conv st).
Proof.
  intros H; unfold stage_call; destruct can; [|exact H].
  destruct cprice as [c|] eqn:Hc; [|exact H].
  cbv zeta; case_cmp; [|exact H].
  case_cmp; split; cbn [V_hold D_final E_final flag]; unfold Rmax;
    destruct (Rle_dec c conv); try lra; split; reflexivity.
Qed.

Lemma stage_put_legs can conv cprice pprice st0 st :
  decision_legs conv cprice pprice st0 st ->
  decision_legs conv cprice pprice st0 (stage_put can pprice st).
Proof.
  intros H; unfold stage_put; destruct can; [|exact H].
  destruct pprice as [p|] eqn:Hp; [|exact H].
  case_cmp; [|exact H].
  split; cbn [V_hold D_final E_final flag]; [lra | split; reflexivity].
Qed.

Lemma tf_decide_legs s g rf cs dt u d N t i up down :
  decision_legs (val_convert_opt s g u d N t i) (call_price s) (put_price s)
    (tf_rollback s rf cs dt u d t up down)
    (tf_decide s g rf cs dt u d N t i up down).
Proof.
  unfold tf_decide.
  apply stage_put_legs, stage_call_legs, stage_convert_legs.
  split; [|reflexivity].
  unfold tf_rollback; cbn [V_hold D_final E_final]; reflexivity.
Qed.

Lemma cascade_value_bounds canc cprice canp pprice conv cont :
  let v := cascade_value canc cprice canp pprice conv cont in
  conv <= v /\
  (forall p, canp = true -> pprice = Some p -> p <= v) /\
  (canc = false \/ cprice = None -> canp = false \/ pprice = None ->
   v = Rmax cont conv) /\
  (forall c, canc = true -> cprice = Some c ->
     canp = false \/ pprice = None -> v <= Rmax c conv) /\
  (forall c p, canc = true -> cprice = Some c ->
     canp = true -> pprice = Some p -> v <= Rmax (Rmax c conv) p).
Proof.
  cbv zeta; unfold cascade_value; cbv zeta.
  assert (Hcall : conv <= match canc, cprice with
                          | true, Some c => Rmin (Rmax cont conv) (Rmax c conv)
                          | _, _ => Rmax cont conv
                          end).
  { destruct canc; [destruct cprice as [c|]|]; try apply Rmax_r.
    apply Rmin_glb; apply Rmax_r. }
  split; [|split; [|split; [|split]]].
  - destruct canp; [destruct pprice as [p|]|]; try exact Hcall.
    eapply Rle_trans; [exact Hcall | apply Rmax_l].
  - intros p -> ->; apply Rmax_r.
  - intros [E|E] [E'|E']; rewrite E, E'; try reflexivity;
      destruct canc; try reflexivity; destruct canp; reflexivity.
  - intros c -> -> [E|E]; rewrite E; [|destruct canp]; apply Rmin_r.
  - intros c p -> -> -> ->.
    apply Rmax_lub; [|apply Rmax_r].
    eapply Rle_trans; [apply Rmin_r | apply Rmax_l].
Qed.

Lemma tf_node_backward s g rf cs dt u d N t i :
  (t < N)%nat -> (i <= t)%nat ->
  at_node (tf_dflt s) (tf_lattice s g rf cs dt u d N) t i
  = tf_backward s g rf cs dt u d N t i
      (at_node (tf_dflt s) (tf_lattice s g rf cs dt u d N) (S t) (S i))
      (at_node (tf_dflt s) (tf_lattice s g rf cs dt u d N) (S t) i).
Proof. intros Ht Hi; unfold tf_lattice; now apply at_node_backward. Qed.

Lemma tf_node_terminal s g rf cs dt u d N i :
  (i <= N)%nat ->
  at_node (tf_dflt s) (tf_lattice s g rf cs dt u d N) N i
  = tf_terminal s g dt u d N i.
Proof. intros Hi; unfold tf_lattice; now apply at_node_terminal. Qed.

(** X12.  Before maturity the value [D + E] of a node is the holder's
    better of continuing and converting, capped by an active call at the
    better of call price and conversion value, and floored by an active put
    at the put price.  Hence an active put keeps the node at or above the
    put price, and an active call without an active put keeps it at or
    below the better of call price and conversion value. *)
Theorem X12_node_value (s : SecuritySchema) (g : list TimeStep)
    (rf cs : list R) (dt u d : R) (N t i : nat) :
  (t < N)%nat -> (i <= t)%nat ->
  let node := at_node (tf_dflt s) (tf_lattice s g rf cs dt u d N) in
  let V := D_at s g rf cs dt u d N t i + E_at s g rf cs dt u d N t i in
  let cont := V_hold (tf_rollback s rf cs dt u d t
                        (node (S t) (S i)) (node (S t) i)) in
  let conv := val_convert_opt s g u d N t i in
  V = cascade_value (can_call s g t) (call_price s) (can_put s g t)
        (put_price s) conv cont /\
  (forall p, can_put s g t = true -> put_price s = Some p -> p <= V) /\
  (forall c, can_call s g t = true -> call_price s = Some c ->
     can_put s g t = false -> V <= Rmax c conv) /\
  (can_call s g t = false -> can_put s g t = false -> V = Rmax cont conv).
Proof.
  intros Ht Hi; cbv zeta.
  unfold D_at, E_at; rewrite (tf_node_backward s g rf cs dt u d N t i Ht Hi).
  set (up := at_node _ _ (S t) (S i)); set (down := at_node _ _ (S t) i).
  unfold tf_backward; cbv zeta; cbn [tf_D tf_E].
  destruct (tf_decide_legs s g rf cs dt u d N t i up down) as (HV & _).
  rewrite <- HV; unfold tf_decide; rewrite cascade_value_spec.
  set (cont := V_hold (tf_rollback s rf cs dt u d t up down)).
  set (conv := val_convert_opt s g u d N t i).
  destruct (cascade_value_bounds (can_call s g t) (call_price s)
              (can_put s g t) (put_price s) conv cont)
    as (_ & Hput & Hnone & Hcall & _).
  cbv zeta in Hput, Hnone, Hcall.
  split; [reflexivity|].
  split; [exact Hput|].
  split; [intros c Hc Hcp Hp; apply (Hcall c Hc Hcp); now left|].
  intros Hc Hp; apply Hnone; now left.
Qed.

(** X12 at the root of the callable sample security: the call is active
    from the valuation date on, no put is, and the root is worth at most
    the better of the call price 24,000 and the conversion value. *)
Lemma X12_node_value_witness :
  let s := callable_rcps in
  D_at s (engine_grid s) (engine_rf_t s) (engine_cs_t s) (engine_dt s)
    (engine_u s) (engine_d s) (engine_N s) 0 0
  + E_at s (engine_grid s) (engine_rf_t s) (engine_cs_t s) (engine_dt s)
      (engine_u s) (engine_d s) (engine_N s) 0 0
  <= Rmax 24000 (val_convert_opt s (engine_grid s) (engine_u s) (engine_d s)
                   (engine_N s) 0 0).
Proof.
  cbv zeta.
  pose proof (engine_N_pos callable_rcps) as HN.
  exact (proj1 (proj2 (proj2
           (X12_node_value callable_rcps (engine_grid callable_rcps)
              (engine_rf_t callable_rcps) (engine_cs_t callable_rcps)
              (engine_dt callable_rcps) (engine_u callable_rcps)
              (engine_d callable_rcps) (engine_N callable_rcps) 0 0
              HN (le_n 0)))) 24000 eq_refl eq_refl eq_refl).
Defined.

(** X13.  At every node of the lattice, maturity included, the value
    [D + E] is at least the conversion value [S * ratio] of the node: the
    issuer's call never takes the holder below conversion. *)
Theorem X13_never_below_conversion (s : SecuritySchema) (g : list TimeStep)
    (rf cs : list R) (dt u d : R) (N t i : nat) :
  (t <= N)%nat -> (i <= t)%nat ->
  val_convert_opt s g u d N t i
  <= D_at s g rf cs dt u d N t i + E_at s g rf cs dt u d N t i.
Proof.
  intros Ht Hi; unfold D_at, E_at.
  destruct (Nat.eq_dec t N) as [->|Hne].
  - rewrite tf_node_terminal by exact Hi.
    unfold tf_terminal, val_convert_opt; cbv zeta.
    set (base := S_node (share_price_current s) u d N i
                 * getEffectiveConversionRatio s g N N).
    set (hold := unit_redemption_value s + unit_periodic_cf s dt).
    match goal with
    | |- context [Rgtb ?pc hold] => set (payoff_conv := pc)
    end.
    assert (Hpc : base <= payoff_conv).
    { unfold payoff_conv.
      destruct (SecurityType_eqb (security_type s) RCPS && is_participating s)%bool;
        [apply Rmax_r | lra]. }
    case_cmp; cbn [tf_D tf_E]; lra.
  - rewrite tf_node_backward by (try lia; exact Hi).
    set (up := at_node _ _ (S t) (S i)); set (down := at_node _ _ (S t) i).
    unfold tf_backward; cbv zeta; cbn [tf_D tf_E].
    destruct (tf_decide_legs s g rf cs dt u d N t i up down) as (HV & _).
    rewrite <- HV; unfold tf_decide; rewrite cascade_value_spec.
    exact (proj1 (cascade_value_bounds _ _ _ _ _ _)).
Qed.

(** X13 at the root of the default security. *)
Lemma X13_never_below_conversion_witness :
  let s := sample_rcps in
  val_convert_opt s (engine_grid s) (engine_u s) (engine_d s) (engine_N s) 0 0
  <= D_at s (engine_grid s) (engine_rf_t s) (engine_cs_t s) (engine_dt s)
       (engine_u s) (engine_d s) (engine_N s) 0 0
     + E_at s (engine_grid s) (engine_rf_t s) (engine_cs_t s) (engine_dt s)
         (engine_u s) (engine_d s) (engine_N s) 0 0.
Proof.
  cbv zeta.
  apply (X13_never_below_conversion sample_rcps); [apply Nat.le_0_l | apply le_n].
Defined.

(** X14.  The flag of a node tells which leg carries its value.  At
    maturity the flag is one of the three maturity flags, before maturity
    one of [HOLD], [CONVERT], [CALLED], [CALLED_FORCE_CONV], [PUT].  A node
    flagged as converted (voluntarily, by a forced conversion, or at
    maturity) has no debt leg; a node flagged as called for cash, put or
    redeemed has no equity leg.  A called node carries the call price and a
    put node the put price as debt; a converted node carries the conversion
    value as equity. *)
Theorem X14_flag_tells_leg (s : SecuritySchema) (g : list TimeStep)
    (rf cs : list R) (dt u d : R) (N t i : nat) :
  (t <= N)%nat -> (i <= t)%nat ->
  let f := Flags_at s g rf cs dt u d N t i in
  let D := D_at s g rf cs dt u d N t i in
  let E := E_at s g rf cs dt u d N t i in
  (if (t =? N)%nat then maturity_flag f else step_flag f) = true /\
  (equity_flag f = true -> D = 0) /\
  (debt_flag f = true -> E = 0) /\
  (f = CALLED -> call_price s = Some D) /\
  (f = PUT -> put_price s = Some D) /\
  (f = CONVERT \/ f = CALLED_FORCE_CONV -> E = val_convert_opt s g u d N t i).
Proof.
  intros Ht Hi; cbv zeta; unfold Flags_at, D_at, E_at.
  destruct (Nat.eqb_spec t N) as [->|Hne].
  - rewrite tf_node_terminal by exact Hi.
    unfold tf_terminal; cbv zeta.
    case_cmp; cbn [tf_flag tf_D tf_E];
      [destruct (is_participating s)|];
      cbn [maturity_flag equity_flag debt_flag];
      repeat split; try reflexivity; try discriminate;
      intros [H|H]; discriminate.
  - rewrite tf_node_backward by (try lia; exact Hi).
    set (up := at_node _ _ (S t) (S i)); set (down := at_node _ _ (S t) i).
    unfold tf_backward; cbv zeta; cbn [tf_flag tf_D tf_E].
    destruct (tf_decide_legs s g rf cs dt u d N t i up down) as (_ & Hlegs).
    destruct (flag (tf_decide s g rf cs dt u d N t i up down));
      try contradiction;
      cbn [step_flag equity_flag debt_flag];
      repeat split; try reflexivity; try discriminate;
      try (intros [H|H]; discriminate); intros; tauto.
Qed.

(** X14 at a maturity node of the default security. *)
Lemma X14_flag_tells_leg_witness :
  let s := sample_rcps in
  maturity_flag
    (Flags_at s (engine_grid s) (engine_rf_t s) (engine_cs_t s) (engine_dt s)
       (engine_u s) (engine_d s) (engine_N s) (engine_N s) 0) = true.
Proof.
  cbv zeta.
  pose proof (proj1 (X14_flag_tells_leg sample_rcps (engine_grid sample_rcps)
                (engine_rf_t sample_rcps) (engine_cs_t sample_rcps)
                (engine_dt sample_rcps) (engine_u sample_rcps)
                (engine_d sample_rcps) (engine_N sample_rcps)
                (engine_N sample_rcps) 0 (le_n _) (Nat.le_0_l _))) as W.
  rewrite Nat.eqb_refl in W; exact W.
Defined.

(** ** The host contract as a discounted cash flow *)

Lemma Rsum_app (l l' : list R) : Rsum (l ++ l') = Rsum l + Rsum l'.
Proof.
  induction l as [|x l IH]; cbn [app].
  - change (Rsum []) with 0; ring.
  - change (Rsum (x :: l ++ l')) with (x + Rsum (l ++ l')).
    change (Rsum (x :: l)) with (x + Rsum l).
    rewrite IH; ring.
Qed.

Lemma Rsum_cons (x : R) (l : list R) : Rsum (x :: l) = x + Rsum l.
Proof. reflexivity. Qed.

Lemma risky_df_S rf cs dt k :
  risky_df rf cs dt (S k) = risky_df rf cs dt k * tf_df_risky rf cs dt k.
Proof. reflexivity. Qed.

Lemma risky_df_pos rf cs dt k : 0 < risky_df rf cs dt k.
Proof.
  induction k as [|k IH]; [cbn [risky_df]; lra|].
  rewrite risky_df_S; apply Rmult_lt_0_compat; [exact IH | apply exp_pos].
Qed.

Lemma risky_df_exp rf cs dt k :
  risky_df rf cs dt k
  = exp (- Rsum (map (fun t => (nth t rf 0 + nth t cs 0) * dt) (seq 0 k))).
Proof.
  induction k as [|k IH].
  - cbn [risky_df seq map Rsum fold_right]; rewrite Ropp_0, exp_0; reflexivity.
  - rewrite risky_df_S, IH, seq_S, map_app, Rsum_app.
    cbn [Nat.add map]; rewrite Rsum_cons.
    unfold tf_df_risky; rewrite <- exp_plus; f_equal.
    change (Rsum []) with 0; ring.
Qed.

Lemma host_loop_spec s rf cs dt n :
  forall a h,
    host_loop s rf cs dt (seq a n) (risky_df rf cs dt a, h)
    = (risky_df rf cs dt (a + n),
       h + unit_periodic_cf s dt
           * Rsum (map (risky_df rf cs dt) (seq (S a) n))).
Proof.
  induction n as [|n IH]; intros a h; cbn [seq host_loop].
  - rewrite Nat.add_0_r; cbn [map]; change (Rsum []) with 0; f_equal; ring.
  - rewrite <- risky_df_S, IH; cbn [map]; rewrite Rsum_cons.
    f_equal; [f_equal; lia | ring].
Qed.

Lemma host_val_unit_spec s rf cs dt N :
  host_val_unit s rf cs dt N
  = unit_periodic_cf s dt * Rsum (map (risky_df rf cs dt) (seq 1 N))
    + unit_redemption_value s * risky_df rf cs dt N.
Proof.
  unfold host_val_unit.
  change (1, 0) with (risky_df rf cs dt 0, 0).
  rewrite host_loop_spec; cbn [Nat.add]; ring.
Qed.

(** X15.  The host value per unit is the discounted cash flow of the
    straight instrument: [N] periodic cash flows, paid at the steps
    [1 .. N], and the redemption value at step [N], each discounted by the
    risky factor to its step; that factor is the exponential of minus the
    accumulated [(rf + cs) * dt], so it does not depend on the lattice. *)
Theorem X15_host_is_dcf (s : SecuritySchema) (rf cs : list R) (dt : R)
    (N : nat) :
  host_val_unit s rf cs dt N
  = unit_periodic_cf s dt * Rsum (map (risky_df rf cs dt) (seq 1 N))
    + unit_redemption_value s * risky_df rf cs dt N /\
  forall k,
    risky_df rf cs dt k
    = exp (- Rsum (map (fun t => (nth t rf 0 + nth t cs 0) * dt) (seq 0 k))).
Proof.
  split; [|intros k; apply risky_df_exp].
  unfold host_val_unit.
  change (1, 0) with (risky_df rf cs dt 0, 0).
  rewrite host_loop_spec; cbn [Nat.add]; ring.
Qed.

(** ** A security whose conversion is worthless *)

Section Worthless.
Variable s : SecuritySchema.
Variable g : list TimeStep.
Variables rf cs : list R.
Variables dt u d : R.
Variable N : nat.

Hypothesis HS0 : share_price_current s = 0.
Hypothesis Hnocall : has_call_option s = false.
Hypothesis Hnoput : has_put_option s = false.
Hypothesis Hcf : 0 <= unit_periodic_cf s dt.
Hypothesis Hhold : 0 <= unit_redemption_value s + unit_periodic_cf s dt.

(** the node at step [t] holds the cash flows of the steps [t .. N] and the
    redemption, discounted to step [t] *)
Local Abbreviation straight_node t n :=
  (tf_E n = 0 /\ 0 <= tf_D n /\
   risky_df rf cs dt t * tf_D n
   = unit_periodic_cf s dt
     * Rsum (map (risky_df rf cs dt) (seq t (S N - t)))
     + unit_redemption_value s * risky_df rf cs dt N).

Lemma worthless_conv (t i : nat) : val_convert_opt s g u d N t i = 0.
Proof. unfold val_convert_opt, S_node; rewrite HS0; ring. Qed.

Lemma worthless_terminal (i : nat) :
  straight_node N (tf_terminal s g dt u d N i).
Proof.
  unfold tf_terminal; cbv zeta.
  set (ratio := getEffectiveConversionRatio s g N N).
  assert (Hbase : S_node (share_price_current s) u d N i * ratio = 0)
    by (unfold S_node; rewrite HS0; ring).
  rewrite Hbase.
  set (hold := unit_redemption_value s + unit_periodic_cf s dt) in *.
  match goal with
  | |- context [Rgtb ?pc hold] => set (payoff_conv := pc)
  end.
  assert (Hpc : payoff_conv <= hold).
  { unfold payoff_conv.
    destruct (SecurityType_eqb (security_type s) RCPS && is_participating s)%bool;
      [|lra].
    apply Rmax_lub; [|lra].
    destruct (participation_cap_multiple s) as [cap|]; [|lra].
    destruct (truthy cap); [|lra].
    eapply Rle_trans; [apply Rmin_l | lra]. }
  rewrite (proj2 (Rgtb_false payoff_conv hold)) by lra.
  cbn [tf_E tf_D].
  replace (S N - N)%nat with 1%nat by lia.
  cbn [seq map]; rewrite Rsum_cons; change (Rsum []) with 0.
  repeat split; [lra|]. unfold hold; ring.
Qed.

Lemma worthless_backward (t i : nat) (up down : TfNode) :
  (t < N)%nat ->
  straight_node (S t) up -> straight_node (S t) down ->
  straight_node t (tf_backward s g rf cs dt u d N t i up down) /\
  tf_flag (tf_backward s g rf cs dt u d N t i up down) = HOLD.
Proof.
  intros Ht (HEu & HDu & Hu) (HEd & HDd & Hd).
  pose proof (risky_df_pos rf cs dt (S t)) as Hpos.
  assert (Hsame : tf_D down = tf_D up).
  { apply (Rmult_eq_reg_l (risky_df rf cs dt (S t))); [|lra].
    rewrite Hu, Hd; reflexivity. }
  assert (Hdf : 0 < tf_df_risky rf cs dt t) by apply exp_pos.
  assert (Hroll : tf_rollback s rf cs dt u d t up down
                  = mkDecision (tf_D up * tf_df_risky rf cs dt t
                                + unit_periodic_cf s dt)
                      (tf_D up * tf_df_risky rf cs dt t
                       + unit_periodic_cf s dt) 0 HOLD).
  { unfold tf_rollback; cbv zeta; rewrite HEu, HEd, Hsame; f_equal; ring. }
  assert (Hnn : 0 <= tf_D up * tf_df_risky rf cs dt t + unit_periodic_cf s dt).
  { apply Rplus_le_le_0_compat; [apply Rmult_le_pos; lra | exact Hcf]. }
  assert (Hdec : tf_decide s g rf cs dt u d N t i up down
                 = tf_rollback s rf cs dt u d t up down).
  { unfold tf_decide, can_call, can_put, in_window.
    rewrite Hnocall, Hnoput; cbn [andb stage_call stage_put].
    unfold stage_convert; rewrite worthless_conv, Hroll; cbn [V_hold].
    now rewrite (proj2 (Rgtb_false 0 _)) by lra. }
  unfold tf_backward; cbv zeta; rewrite Hdec, Hroll.
  cbn [D_final E_final flag tf_E tf_D tf_flag].
  split; [|reflexivity].
  split; [reflexivity|]. split; [exact Hnn|].
  replace (S N - t)%nat with (S (S N - S t)) by lia.
  cbn [seq map]; rewrite Rsum_cons.
  rewrite risky_df_S in Hu.
  replace (risky_df rf cs dt t
           * (tf_D up * tf_df_risky rf cs dt t + unit_periodic_cf s dt))
    with (risky_df rf cs dt t * tf_df_risky rf cs dt t * tf_D up
          + unit_periodic_cf s dt * risky_df rf cs dt t) by ring.
  rewrite Hu; ring.
Qed.

Lemma worthless_lattice (k : nat) :
  forall t i, (t <= N)%nat -> (i <= t)%nat -> (N - t)%nat = k ->
    straight_node t (at_node (tf_dflt s) (tf_lattice s g rf cs dt u d N) t i) /\
    ((t < N)%nat -> Flags_at s g rf cs dt u d N t i = HOLD).
Proof.
  induction k as [|k IH]; intros t i Ht Hi Hk.
  - assert (t = N) by lia; subst t.
    rewrite tf_node_terminal by exact Hi.
    split; [apply worthless_terminal | lia].
  - unfold Flags_at; rewrite tf_node_backward by (try lia; exact Hi).
    destruct (IH (S t) (S i)) as (Hup & _); try lia.
    destruct (IH (S t) i) as (Hdown & _); try lia.
    destruct (worthless_backward t i _ _ ltac:(lia) Hup Hdown) as (Hn & Hf).
    split; [exact Hn | intros _; exact Hf].
Qed.
End Worthless.

(** X16.  When the share is worthless (spot price zero), there is no call
    and no put, and the cash flows are not negative, the lattice never
    leaves [HOLD] before maturity, the equity leg is zero, and the debt leg
    at the root is the host value plus one periodic cash flow: the lattice
    pays the periodic cash flow at the steps [0 .. N], the host contract at
    the steps [1 .. N].  The derivative per unit is therefore exactly one
    periodic cash flow. *)
Theorem X16_worthless_conversion (s : SecuritySchema) (g : list TimeStep)
    (rf cs : list R) (dt u d : R) (N : nat) :
  share_price_current s = 0 ->
  has_call_option s = false ->
  has_put_option s = false ->
  0 <= unit_periodic_cf s dt ->
  0 <= unit_redemption_value s + unit_periodic_cf s dt ->
  E_at s g rf cs dt u d N 0 0 = 0 /\
  D_at s g rf cs dt u d N 0 0
  = host_val_unit s rf cs dt N + unit_periodic_cf s dt /\
  deriv_val_unit s g rf cs dt u d N = unit_periodic_cf s dt /\
  forall t i, (t < N)%nat -> (i <= t)%nat ->
    Flags_at s g rf cs dt u d N t i = HOLD.
Proof.
  intros HS0 Hnocall Hnoput Hcf Hhold.
  destruct (worthless_lattice s g rf cs dt u d N HS0 Hnocall Hnoput Hcf Hhold
              (N - 0) 0 0 (Nat.le_0_l _) (le_n _) eq_refl)
    as ((HE & _ & HD) & _).
  fold (E_at s g rf cs dt u d N 0 0) in HE.
  fold (D_at s g rf cs dt u d N 0 0) in HD.
  assert (HD0 : D_at s g rf cs dt u d N 0 0
                = host_val_unit s rf cs dt N + unit_periodic_cf s dt).
  { rewrite host_val_unit_spec.
    rewrite Nat.sub_0_r in HD; cbn [seq map risky_df] in HD.
    rewrite Rsum_cons in HD; lra. }
  split; [exact HE|]. split; [exact HD0|].
  split.
  - unfold deriv_val_unit, hybrid_val_unit; rewrite HE, HD0; ring.
  - intros t i Ht Hi.
    apply (worthless_lattice s g rf cs dt u d N HS0 Hnocall Hnoput Hcf Hhold
             (N - t) t i); [lia | exact Hi | reflexivity | exact Ht].
Qed.

(** X16 on the default security under a deal whose share is worthless. *)
Lemma X16_worthless_conversion_witness :
  let s := full_schema (mkDeal 0 0 1000000 (35 / 100) (35 / 1000) (2 / 100)
                          [sample_rcps]) sample_rcps None None in
  deriv_val_unit s (engine_grid s) (engine_rf_t s) (engine_cs_t s)
    (engine_dt s) (engine_u s) (engine_d s) (engine_N s)
  = unit_periodic_cf s (engine_dt s).
Proof.
  cbv zeta.
  set (s := full_schema _ sample_rcps None None).
  pose proof (engine_dt_bounds s) as Hdt.
  assert (Hface : unit_face_value s = 20000).
  { unfold unit_face_value, isPerShare, isCB, s.
    cbn [full_schema sample_rcps security_type SecurityType_eqb negb
         total_issue_price num_issued_shares]. lra. }
  assert (Hcf : 0 <= unit_periodic_cf s (engine_dt s)).
  { unfold unit_periodic_cf; rewrite Hface.
    unfold isPerShare, isCB, s.
    cbn [full_schema sample_rcps security_type SecurityType_eqb negb
         coupon_rate dividend_rate].
    fold s; nra. }
  assert (Hred : 0 <= unit_redemption_value s).
  { unfold unit_redemption_value; rewrite Hface.
    unfold s; cbn [full_schema sample_rcps repayment_premium_rate with_default].
    lra. }
  refine (proj1 (proj2 (proj2
            (X16_worthless_conversion s (engine_grid s) (engine_rf_t s)
               (engine_cs_t s) (engine_dt s) (engine_u s) (engine_d s)
               (engine_N s) eq_refl eq_refl eq_refl Hcf _)))).
  lra.
Defined.

(** ** The refixing schedule, in closed form *)

Lemma insert_event_sorted (e : ResetEvent) (l : list ResetEvent) :
  sorted_by_date l -> sorted_by_date (insert_event e l).
Proof.
  induction l as [|x l IH]; intros Hs; cbn [insert_event].
  - split; [constructor | exact I].
  - destruct Hs as (Hx & Hl).
    destruct (Z.leb_spec (event_date e) (event_date x)) as [Hle|Hgt].
    + split; [|split; assumption].
      constructor; [exact Hle|].
      eapply Forall_impl; [|exact Hx]; cbv beta; intros; lia.
    + split; [|apply IH; exact Hl].
      assert (Hin : forall y, In y (insert_event e l) -> y = e \/ In y l).
      { clear; induction l as [|z l IHl]; intros y; cbn [insert_event].
        - intros [<-|[]]; now left.
        - destruct (event_date e <=? event_date z)%Z.
          + intros [<-|H]; [now left | now right].
          + intros [<-|H]; [right; now left|].
            destruct (IHl y H) as [->|H']; [now left | right; now right]. }
      apply Forall_forall; intros y Hy.
      destruct (Hin y Hy) as [->|Hy']; [lia|].
      rewrite Forall_forall in Hx; now apply Hx.
Qed.

Lemma sort_events_sorted (l : list ResetEvent) : sorted_by_date (sort_events l).
Proof.
  induction l as [|e l IH]; cbn [sort_events fold_right]; [exact I|].
  now apply insert_event_sorted.
Qed.

(** case analysis on nested minima and maxima, innermost first *)
Ltac rmin_cases :=
  unfold Rmin, Rmax;
  repeat match goal with
         | |- context [Rle_dec ?a ?b] =>
             lazymatch a with
             | context [Rle_dec _ _] => fail
             | _ => lazymatch b with
                    | context [Rle_dec _ _] => fail
                    | _ => destruct (Rle_dec a b)
                    end
             end
         end;
  lra.

Lemma lowest_price_min (l : list ResetEvent) :
  forall c c', lowest_price (Rmin c c') l = Rmin (lowest_price c l) c'.
Proof.
  unfold lowest_price.
  induction l as [|e l IH]; intros c c'; cbn [fold_left]; [reflexivity|].
  rewrite <- IH; f_equal; rmin_cases.
Qed.

Lemma lowest_price_cons (c : R) (e : ResetEvent) (l : list ResetEvent) :
  lowest_price c (e :: l) = Rmin (lowest_price c l) (issue_price_new e).
Proof.
  change (lowest_price c (e :: l))
    with (lowest_price (Rmin c (issue_price_new e)) l).
  apply lowest_price_min.
Qed.

(** the lowest price does not depend on the order of the events *)
Lemma lowest_price_insert (f : ResetEvent -> bool) (e : ResetEvent)
    (l : list ResetEvent) (c : R) :
  lowest_price c (filter f (insert_event e l))
  = lowest_price c (filter f (e :: l)).
Proof.
  induction l as [|x l IH]; cbn [insert_event]; [reflexivity|].
  destruct (event_date e <=? event_date x)%Z; [reflexivity|].
  cbn [filter] in *.
  destruct (f x), (f e); rewrite ?lowest_price_cons, ?IH, ?lowest_price_cons;
    try reflexivity.
  rmin_cases.
Qed.

Lemma lowest_price_sort (f : ResetEvent -> bool) (l : list ResetEvent) (c : R) :
  lowest_price c (filter f (sort_events l)) = lowest_price c (filter f l).
Proof.
  induction l as [|e l IH]; cbn [sort_events fold_right]; [reflexivity|].
  fold (sort_events l); rewrite lowest_price_insert.
  cbn [filter]; destruct (f e); rewrite ?lowest_price_cons, IH; reflexivity.
Qed.

Section RefixClosed.
Variable s : SecuritySchema.
Variable g : list TimeStep.

(** the [while] loop consumes the events dated up to the step date, in
    order, and stops at the first later one *)
Lemma consume_events_sorted (stepDate : Z) (pending : list ResetEvent) :
  sorted_by_date pending ->
  forall cp,
    consume_events s stepDate cp pending
    = (fold_left (apply_event s) (events_until stepDate pending) cp,
       filter (fun e => negb (event_date e <=? stepDate)%Z) pending).
Proof.
  unfold events_until.
  induction pending as [|e rest IH]; intros Hs cp; cbn [consume_events filter];
    [reflexivity|].
  destruct Hs as (He & Hrest).
  destruct (Z.leb_spec (event_date e) stepDate) as [Hle|Hgt]; cbn [negb].
  - rewrite (IH Hrest); reflexivity.
  - assert (Hlater : Forall (fun x => (stepDate < event_date x)%Z) rest).
    { eapply Forall_impl; [|exact He]; cbv beta; intros; lia. }
    assert (Hnone : filter (fun e0 => (event_date e0 <=? stepDate)%Z) rest = []).
    { clear - Hlater; induction Hlater as [|x l Hx _ IHl]; cbn [filter];
        [reflexivity|].
      destruct (Z.leb_spec (event_date x) stepDate); [lia | exact IHl]. }
    assert (Hall : filter (fun e0 => negb (event_date e0 <=? stepDate)%Z) rest
                   = rest).
    { clear - Hlater; induction Hlater as [|x l Hx _ IHl]; cbn [filter];
        [reflexivity|].
      destruct (Z.leb_spec (event_date x) stepDate); [lia|].
      cbn [negb]; now rewrite IHl. }
    rewrite Hnone, Hall; reflexivity.
Qed.

Lemma filter_later_sorted (stepDate : Z) (l : list ResetEvent) :
  sorted_by_date l ->
  sorted_by_date (filter (fun e => negb (event_date e <=? stepDate)%Z) l).
Proof.
  induction l as [|e l IH]; intros Hs; cbn [filter]; [exact I|].
  destruct Hs as (He & Hl).
  destruct (negb _); [|now apply IH].
  split; [|now apply IH].
  rewrite Forall_forall in *; intros x Hx.
  apply filter_In in Hx; now apply He.
Qed.

Lemma events_until_none (d : Z) (l : list ResetEvent) :
  Forall (fun x => (d < event_date x)%Z) l ->
  events_until d l = [] /\
  filter (fun e => negb (event_date e <=? d)%Z) l = l.
Proof.
  unfold events_until.
  induction 1 as [|x l Hx _ (IH1 & IH2)]; cbn [filter]; [now split|].
  destruct (Z.leb_spec (event_date x) d); [lia|].
  cbn [negb]; rewrite IH1, IH2; now split.
Qed.

(** the events up to a later date: those up to an earlier date, then those
    left over *)
Lemma events_until_split (d1 d2 : Z) (l : list ResetEvent) :
  (d1 <= d2)%Z -> sorted_by_date l ->
  events_until d2 l
  = events_until d1 l
    ++ events_until d2 (filter (fun e => negb (event_date e <=? d1)%Z) l).
Proof.
  intros Hd; induction l as [|e l IH]; intros Hs; [reflexivity|].
  destruct Hs as (He & Hl).
  destruct (Z.leb_spec (event_date e) d1) as [Hle|Hgt].
  - unfold events_until in *; cbn [filter].
    destruct (Z.leb_spec (event_date e) d1); [|lia].
    destruct (Z.leb_spec (event_date e) d2); [|lia].
    cbn [negb app]; now rewrite (IH Hl).
  - assert (Hlater : Forall (fun x => (d1 < event_date x)%Z) (e :: l)).
    { constructor; [exact Hgt|].
      eapply Forall_impl; [|exact He]; cbv beta; intros; lia. }
    destruct (events_until_none d1 (e :: l) Hlater) as (-> & ->).
    reflexivity.
Qed.

Lemma refix_sweep_closed (N n : nat) :
  grid_monotone g N ->
  forall a cp pending,
    (a + n <= S N)%nat -> sorted_by_date pending ->
    forall j, (j < n)%nat ->
      nth j (refix_sweep s g (seq a n) cp pending) 0
      = fold_left (apply_event s)
          (events_until (date (grid_at g (a + j))) pending) cp.
Proof.
  intros Hmono; induction n as [|n IH]; intros a cp pending Ha Hs j Hj; [lia|].
  cbn [seq refix_sweep].
  rewrite (consume_events_sorted _ _ Hs).
  destruct j as [|j]; cbn [nth].
  - now rewrite Nat.add_0_r.
  - rewrite IH; [|lia | now apply filter_later_sorted | lia].
    rewrite <- fold_left_app.
    replace (S a + j)%nat with (a + S j)%nat by lia.
    rewrite <- events_until_split; [reflexivity | | exact Hs].
    apply Hmono; lia.
Qed.

(** the schedule at a step is the initial price after the events dated up
    to the step, taken in order of date *)
Lemma cp_eff_fold (N : nat) :
  grid_monotone g N ->
  forall t, (t <= N)%nat ->
    cp_eff s g N t
    = if negb (AntiDilutionType_eqb (anti_dilution_type s) NONE)
      then fold_left (apply_event s)
             (events_until (date (grid_at g t))
                (sort_events (with_default (reset_events s) [])))
             (conversion_price s)
      else conversion_price s.
Proof.
  intros Hmono t Ht; unfold cp_eff, cp_at_step.
  destruct (negb (AntiDilutionType_eqb (anti_dilution_type s) NONE));
    cbn [andb].
  - destruct (with_default (reset_events s) []) as [|e l] eqn:He.
    + cbn [length Nat.ltb Nat.leb sort_events fold_right events_until filter
           fold_left].
      rewrite (nth_indep _ 0 (conversion_price s)) by (rewrite repeat_length; lia).
      apply nth_repeat.
    + change (0 <? length (e :: l))%nat with true; cbv iota.
      rewrite (refix_sweep_closed N (S N) Hmono 0); try lia;
        [reflexivity | apply sort_events_sorted].
  - rewrite (nth_indep _ 0 (conversion_price s)) by (rewrite repeat_length; lia).
    apply nth_repeat.
Qed.

Lemma lowest_price_form (l : list ResetEvent) :
  l = [] \/ exists m, forall c, lowest_price c l = Rmin c m.
Proof.
  induction l as [|e l [->|(m & Hm)]]; [now left | right | right].
  - exists (issue_price_new e); intros c; reflexivity.
  - exists (Rmin (issue_price_new e) m); intros c.
    change (lowest_price c (e :: l))
      with (lowest_price (Rmin c (issue_price_new e)) l).
    rewrite Hm; rmin_cases.
Qed.

Lemma floor_lowest (x : R) (evs : list ResetEvent) :
  apply_floor s (lowest_price (apply_floor s x) evs)
  = apply_floor s (lowest_price x evs).
Proof.
  destruct (lowest_price_form evs) as [->|(m & Hm)].
  - cbn [lowest_price fold_left]; apply apply_floor_idem.
  - rewrite !Hm; unfold apply_floor.
    destruct (refixing_floor_price s) as [fl|]; [|reflexivity].
    destruct (truthy fl); cbn [andb]; [|reflexivity].
    destruct (Rltb x fl) eqn:Hx;
      [apply Rltb_true in Hx | apply Rltb_false in Hx];
      unfold Rmin; destruct (Rle_dec fl m), (Rle_dec x m);
      repeat case_cmp; lra.
Qed.

Lemma ratchet_fold (evs : list ResetEvent) :
  anti_dilution_type s = FULL_RATCHET ->
  forall cp, apply_floor s cp = cp ->
    fold_left (apply_event s) evs cp = apply_floor s (lowest_price cp evs).
Proof.
  intros Hfr; induction evs as [|e evs IH]; intros cp Hcp; cbn [fold_left].
  - cbn [lowest_price fold_left]; now rewrite Hcp.
  - change (lowest_price cp (e :: evs))
      with (lowest_price (Rmin cp (issue_price_new e)) evs).
    unfold apply_event at 2; rewrite Hfr.
    case_cmp.
    + rewrite IH by apply apply_floor_idem.
      rewrite floor_lowest; f_equal; f_equal.
      unfold Rmin; destruct (Rle_dec cp (issue_price_new e)); lra.
    + rewrite IH by exact Hcp; f_equal; f_equal.
      unfold Rmin; destruct (Rle_dec cp (issue_price_new e)); lra.
Qed.

Lemma no_down_round_fold (evs : list ResetEvent) (cp : R) :
  Forall (fun e => cp <= issue_price_new e) evs ->
  fold_left (apply_event s) evs cp = cp.
Proof.
  induction 1 as [|e evs He _ IH]; cbn [fold_left]; [reflexivity|].
  unfold apply_event at 2.
  rewrite (proj2 (Rltb_false (issue_price_new e) cp)) by lra.
  exact IH.
Qed.
End RefixClosed.

Lemma sort_events_Forall (P : ResetEvent -> Prop) (l : list ResetEvent) :
  Forall P l -> Forall P (sort_events l).
Proof.
  assert (Hins : forall e l', P e -> Forall P l' -> Forall P (insert_event e l')).
  { intros e l' He; induction l' as [|x l' IH]; intros Hl'; cbn [insert_event].
    - now constructor.
    - destruct (event_date e <=? event_date x)%Z.
      + now constructor.
      + inversion Hl'; subst; constructor; auto. }
  induction 1 as [|e l He _ IH]; cbn [sort_events fold_right]; [constructor|].
  now apply Hins.
Qed.

Lemma consume_no_down_round s (stepDate : Z) (pending : list ResetEvent) (cp : R) :
  Forall (fun e => cp <= issue_price_new e) pending ->
  fst (consume_events s stepDate cp pending) = cp /\
  Forall (fun e => cp <= issue_price_new e)
    (snd (consume_events s stepDate cp pending)).
Proof.
  induction 1 as [|e rest He Hrest IH]; cbn [consume_events].
  - split; [reflexivity | constructor].
  - destruct (event_date e <=? stepDate)%Z.
    + unfold apply_event.
      now rewrite (proj2 (Rltb_false (issue_price_new e) cp)) by lra.
    + split; [reflexivity | now constructor].
Qed.

Lemma refix_sweep_no_down_round s g (ts : list nat) (cp : R) :
  forall pending,
    Forall (fun e => cp <= issue_price_new e) pending ->
    forall j, (j < length ts)%nat ->
      nth j (refix_sweep s g ts cp pending) 0 = cp.
Proof.
  induction ts as [|t ts IH]; intros pending Hp j Hj; cbn [length] in Hj;
    [lia|].
  cbn [refix_sweep].
  destruct (consume_no_down_round s (date (grid_at g t)) pending cp Hp)
    as (Hcp & Hrest).
  destruct (consume_events s (date (grid_at g t)) cp pending) as [cp' pending'].
  cbn [fst snd] in Hcp, Hrest; subst cp'.
  destruct j as [|j]; cbn [nth]; [reflexivity|].
  apply IH; [exact Hrest | lia].
Qed.

(** X17.  Reset events priced at or above the initial conversion price never
    refix, under any anti-dilution policy and whatever the floor: the
    effective conversion price of every step is the initial one, and the
    effective conversion ratio is the same at every step. *)
Theorem X17_no_down_round (s : SecuritySchema) (g : list TimeStep) (N : nat) :
  Forall (fun e => conversion_price s <= issue_price_new e)
    (with_default (reset_events s) []) ->
  forall t, (t <= N)%nat ->
    cp_eff s g N t = conversion_price s /\
    getEffectiveConversionRatio s g N t = getEffectiveConversionRatio s g N 0.
Proof.
  intros Hup.
  assert (Hcp : forall t, (t <= N)%nat -> cp_eff s g N t = conversion_price s).
  { intros t Ht; unfold cp_eff, cp_at_step.
    destruct (negb _ && _)%bool.
    - apply refix_sweep_no_down_round;
        [now apply sort_events_Forall | rewrite length_seq; lia].
    - rewrite (nth_indep _ 0 (conversion_price s))
        by (rewrite repeat_length; lia).
      apply nth_repeat. }
  intros t Ht; split; [now apply Hcp|].
  unfold getEffectiveConversionRatio.
  rewrite (Hcp t Ht), (Hcp 0%nat (Nat.le_0_l N)); reflexivity.
Qed.

(** X17 on the default security after an up round. *)
Lemma X17_no_down_round_witness :
  cp_eff up_round_rcps (engine_grid up_round_rcps) (engine_N up_round_rcps)
    (engine_N up_round_rcps)
  = 20000.
Proof.
  refine (proj1 (X17_no_down_round up_round_rcps (engine_grid up_round_rcps)
                   (engine_N up_round_rcps) _ (engine_N up_round_rcps)
                   (le_n _))).
  cbn [up_round_rcps reset_events with_default conversion_price].
  constructor; [cbn [issue_price_new]; lra | constructor].
Defined.

Lemma engine_grid_monotone (s : SecuritySchema) :
  grid_monotone (engine_grid s) (engine_N s).
Proof.
  intros a b Hab Hb.
  destruct (Z.leb_spec (maturity_date s) (valuation_date s)) as [Hm|Hlive].
  - destruct (matured_params s Hm) as (HN & _).
    rewrite HN in Hb; rewrite (matured_grid s Hm).
    destruct a as [|[|a]], b as [|[|b]]; cbn [grid_at nth date]; lia.
  - unfold engine_N, engine_grid, generateTimeGrid, grid_at in *.
    destruct (Z.leb_spec (maturity_date s) (valuation_date s)); [lia|].
    destruct (weekly_grid_shape (Z.to_nat (maturity_date s - valuation_date s))
                (valuation_date s) (maturity_date s) (valuation_date s) 0)
      as (Hlen & Hnodes & Hlast); [lia|].
    cbv zeta in Hlen, Hnodes, Hlast.
    rewrite Hlen in Hb; cbn [Nat.sub] in Hb; rewrite Nat.sub_0_r in Hb.
    set (days := (maturity_date s - valuation_date s)%Z) in *.
    set (n := Z.to_nat ((days + 6) / 7)) in *.
    assert (Hn : (7 * Z.of_nat n <= days + 6)%Z).
    { unfold n; rewrite Z2Nat.id by (apply Z.div_pos; lia).
      apply Z.mul_div_le; lia. }
    assert (Hdate : forall k, (k <= n)%nat ->
              date (nth k (weekly_grid (Z.to_nat days) (valuation_date s)
                             (maturity_date s) (valuation_date s) 0)
                      (mkTimeStep 0 0 0))
              = if (k <? n)%nat then (valuation_date s + 7 * Z.of_nat k)%Z
                else maturity_date s).
    { intros k Hk; destruct (Nat.ltb_spec k n) as [Hlt|Hge].
      - now rewrite Hnodes.
      - assert (k = n) by lia; subst k; now rewrite Hlast. }
    rewrite (Hdate a) by lia; rewrite (Hdate b) by lia.
    destruct (Nat.ltb_spec a n), (Nat.ltb_spec b n); unfold days in *; lia.
Qed.

(** X18.  Under the full-ratchet policy, with a floor (if any) not above the
    initial conversion price and step dates that do not decrease, the
    effective conversion price of a step is the lowest of the initial price
    and the new-issue prices of all events dated up to the step, whatever
    the order in which the events were entered, raised to the floor. *)
Theorem X18_full_ratchet_schedule (s : SecuritySchema) (g : list TimeStep)
    (N : nat) :
  anti_dilution_type s = FULL_RATCHET ->
  floor_below_cp s ->
  grid_monotone g N ->
  forall t, (t <= N)%nat ->
    cp_eff s g N t
    = apply_floor s
        (lowest_price (conversion_price s)
           (events_until (date (grid_at g t))
              (with_default (reset_events s) []))).
Proof.
  intros Hfr Hfloor Hmono t Ht.
  rewrite (cp_eff_fold s g N Hmono t Ht), Hfr; cbn [AntiDilutionType_eqb negb].
  assert (Hcp0 : apply_floor s (conversion_price s) = conversion_price s).
  { unfold apply_floor.
    destruct (refixing_floor_price s) as [fl|] eqn:Hfl; [|reflexivity].
    destruct (truthy fl) eqn:Htr; cbn [andb]; [|reflexivity].
    apply truthy_true in Htr.
    pose proof (Hfloor fl Hfl Htr).
    now rewrite (proj2 (Rltb_false (conversion_price s) fl)) by lra. }
  rewrite (ratchet_fold s _ Hfr _ Hcp0).
  unfold events_until; now rewrite lowest_price_sort.
Qed.

(** X18 on the security with two down rounds entered out of order: at
    maturity the conversion price is the lower of the two prices. *)
Lemma X18_full_ratchet_schedule_witness :
  cp_eff ratchet_rcps (engine_grid ratchet_rcps) (engine_N ratchet_rcps)
    (engine_N ratchet_rcps)
  = 15000.
Proof.
  assert (Hfloor : floor_below_cp ratchet_rcps).
  { intros fl Hfl _; cbn [ratchet_rcps refixing_floor_price conversion_price]
      in *.
    injection Hfl as <-; lra. }
  rewrite (X18_full_ratchet_schedule ratchet_rcps (engine_grid ratchet_rcps)
             (engine_N ratchet_rcps) eq_refl Hfloor
             (engine_grid_monotone ratchet_rcps) (engine_N ratchet_rcps)
             (le_n _)).
  destruct (live_params ratchet_rcps ltac:(reflexivity)) as (_ & _ & _ & Hlast).
  rewrite Hlast; cbn [date].
  unfold apply_floor, events_until.
  cbn [ratchet_rcps reset_events with_default maturity_date conversion_price
       refixing_floor_price].
  assert (Hlow : lowest_price 20000
                   (filter (fun e => (event_date e <=? 1095)%Z)
                      [mkResetEvent 30 15000 1000 None;
                       mkResetEvent 10 18000 1000 None])
                 = 15000).
  { change (Rmin (Rmin 20000 15000) 18000 = 15000); rmin_cases. }
  rewrite Hlow, (proj2 (truthy_true 14000)) by lra; cbn [andb].
  now rewrite (proj2 (Rltb_false 15000 14000)) by lra.
Defined.

(** ** Employee options before vesting *)

Lemma engine_grid_dates (s : SecuritySchema) :
  (valuation_date s < maturity_date s)%Z ->
  forall k, (k < engine_N s)%nat ->
    date (grid_at (engine_grid s) k) = (valuation_date s + 7 * Z.of_nat k)%Z /\
    (date (grid_at (engine_grid s) k) < maturity_date s)%Z.
Proof.
  intros Hlive k Hk.
  unfold engine_N, engine_grid, generateTimeGrid, grid_at in *.
  destruct (Z.leb_spec (maturity_date s) (valuation_date s)); [lia|].
  destruct (weekly_grid_shape (Z.to_nat (maturity_date s - valuation_date s))
              (valuation_date s) (maturity_date s) (valuation_date s) 0)
    as (Hlen & Hnodes & _); [lia|].
  cbv zeta in Hlen, Hnodes.
  rewrite Hlen in Hk; cbn [Nat.sub] in Hk; rewrite Nat.sub_0_r in Hk.
  set (days := (maturity_date s - valuation_date s)%Z) in *.
  set (n := Z.to_nat ((days + 6) / 7)) in *.
  assert (Hn : (7 * Z.of_nat n <= days + 6)%Z).
  { unfold n; rewrite Z2Nat.id by (apply Z.div_pos; lia).
    apply Z.mul_div_le; lia. }
  rewrite (Hnodes k Hk); cbn [date]; unfold days in *; lia.
Qed.

Lemma eso_node_backward s g rf dt u d N t i :
  (t < N)%nat -> (i <= t)%nat ->
  at_node (mkEsoNode 0 NO_FLAG) (eso_lattice s g rf dt u d N) t i
  = eso_backward s g rf dt u d t i
      (at_node (mkEsoNode 0 NO_FLAG) (eso_lattice s g rf dt u d N) (S t) (S i))
      (at_node (mkEsoNode 0 NO_FLAG) (eso_lattice s g rf dt u d N) (S t) i).
Proof. intros Ht Hi; unfold eso_lattice; now apply at_node_backward. Qed.

(** X19.  An employee option without a vesting end date vests at maturity:
    valued before maturity, every node before the last step is flagged
    [UNVESTED] and holds the discounted expected value of its two
    successors, reduced by the exit rate of one step.  The option is priced
    as a European one, and the early-exercise multiple is never read. *)
Theorem X19_unvested_until_maturity (s : SecuritySchema) (t i : nat) :
  vesting_end_date s = None ->
  (valuation_date s < maturity_date s)%Z ->
  (t < engine_N s)%nat -> (i <= t)%nat ->
  let rows := eso_lattice s (engine_grid s) (engine_rf_t s) (engine_dt s)
                (engine_u s) (engine_d s) (engine_N s) in
  let E := eso_E_at s (engine_grid s) (engine_rf_t s) (engine_dt s)
             (engine_u s) (engine_d s) (engine_N s) in
  let q := eso_q (engine_rf_t s) (engine_dt s) (engine_u s) (engine_d s) t in
  eso_flag_at rows t i = UNVESTED /\
  E t i = (q * E (S t) (S i) + (1 - q) * E (S t) i)
          * exp (- nth t (engine_rf_t s) 0 * engine_dt s)
          * exp (- with_default (employee_exit_rate s) 0 * engine_dt s).
Proof.
  intros Hvest Hlive Ht Hi; cbv zeta.
  unfold eso_flag_at, eso_E_at.
  rewrite (eso_node_backward s _ _ _ _ _ _ t i Ht Hi).
  set (up := at_node _ _ (S t) (S i)); set (down := at_node _ _ (S t) i).
  unfold eso_backward; cbv zeta.
  destruct (engine_grid_dates s Hlive t Ht) as (_ & Hdate).
  unfold eso_vestingEnd; rewrite Hvest; cbn [with_default].
  destruct (Z.leb_spec (maturity_date s) (date (grid_at (engine_grid s) t)));
    [lia|].
  cbn [eso_flag eso_E]; split; reflexivity.
Qed.

(** X19 at the root of an option without a vesting date. *)
Lemma X19_unvested_until_maturity_witness :
  eso_flag_at
    (eso_lattice negative_rate_eso (engine_grid negative_rate_eso)
       (engine_rf_t negative_rate_eso) (engine_dt negative_rate_eso)
       (engine_u negative_rate_eso) (engine_d negative_rate_eso)
       (engine_N negative_rate_eso)) 0 0
  = UNVESTED.
Proof.
  exact (proj1 (X19_unvested_until_maturity negative_rate_eso 0 0
                  eq_refl eq_refl (engine_N_pos negative_rate_eso) (le_n 0))).
Defined.

(** ** Interpolation of a yield curve *)

Lemma interpolate_between (x x0 y0 x1 y1 lo hi : R) :
  x0 <= x <= x1 -> lo <= y0 <= hi -> lo <= y1 <= hi ->
  lo <= interpolate x x0 y0 x1 y1 <= hi.
Proof.
  intros Hx H0 H1; unfold interpolate.
  destruct (Reqb x1 x0) eqn:He; [lra|].
  assert (Hne : x1 <> x0).
  { intros E; apply Reqb_true in E; congruence. }
  assert (Hlt : 0 < x1 - x0) by lra.
  set (w := (x - x0) / (x1 - x0)).
  assert (Hw : 0 <= w <= 1).
  { unfold w; split.
    - apply Rmult_le_pos; [lra | left; now apply Rinv_0_lt_compat].
    - apply (Rmult_le_reg_r (x1 - x0)); [exact Hlt|].
      unfold Rdiv; rewrite Rmult_assoc, Rinv_l by lra; lra. }
  replace (y0 + (x - x0) * (y1 - y0) / (x1 - x0))
    with (y0 + w * (y1 - y0)) by (unfold w; field; lra).
  split; nra.
Qed.

Lemma yield_bracket_between (curve : list YieldPoint) (t lo hi : R) :
  Forall (fun p => lo <= yield p <= hi) curve ->
  forall y, yield_bracket curve t = Some y -> lo <= y <= hi.
Proof.
  induction curve as [|a rest IH]; intros Hall y; cbn [yield_bracket];
    [discriminate|].
  destruct rest as [|b rest']; [discriminate|].
  inversion Hall as [|? ? Ha Hrest]; subst.
  inversion Hrest as [|? ? Hb _]; subst.
  destruct (Rgeb t (yield_tenor_years a)) eqn:Hge; cbn [andb];
    [|now apply IH].
  destruct (Rleb t (yield_tenor_years b)) eqn:Hle; [|now apply IH].
  intros H; injection H as <-.
  apply Rgeb_true in Hge; apply Rleb_true in Hle.
  apply interpolate_between; [lra | exact Ha | exact Hb].
Qed.

Lemma last_cons_default {A : Type} (l : list A) (b d d' : A) :
  last (b :: l) d = last (b :: l) d'.
Proof.
  revert b; induction l as [|x l IH]; intros b; [reflexivity|].
  change (last (b :: x :: l) d) with (last (x :: l) d).
  change (last (b :: x :: l) d') with (last (x :: l) d').
  apply IH.
Qed.

Lemma last_in_cons {A : Type} (l : list A) (a d : A) :
  In (last (a :: l) d) (a :: l).
Proof.
  revert a; induction l as [|x l IH]; intros a; [now left|].
  change (last (a :: x :: l) d) with (last (x :: l) d).
  right; apply IH.
Qed.

(** a target between the first and the last tenor of a curve of at least
    two points lies in one of the brackets the loop visits, whatever the
    order of the tenors *)
Lemma yield_bracket_found (rest : list YieldPoint) (t : R) :
  forall a b,
    yield_tenor_years a <= t ->
    t <= yield_tenor_years (last (b :: rest) a) ->
    exists y, yield_bracket (a :: b :: rest) t = Some y.
Proof.
  induction rest as [|c rest IH]; intros a b Ha Hlast;
    cbn [yield_bracket];
    rewrite (proj2 (Rgeb_true t (yield_tenor_years a))) by lra; cbn [andb].
  - cbn [last] in Hlast.
    rewrite (proj2 (Rleb_true _ _)) by lra; eauto.
  - destruct (Rleb t (yield_tenor_years b)) eqn:Hle; [eauto|].
    apply Rleb_false in Hle.
    apply IH; [lra|].
    change (last (b :: c :: rest) a) with (last (c :: rest) a) in Hlast.
    now rewrite (last_cons_default rest c b a).
Qed.

Lemma getInterpolatedYield_range (a : YieldPoint) (rest : list YieldPoint)
    (t lo hi : R) :
  Forall (fun p => lo <= yield p <= hi) (a :: rest) ->
  exists y, getInterpolatedYield (a :: rest) t = Some y /\ lo <= y <= hi.
Proof.
  intros Hall; unfold getInterpolatedYield.
  assert (Ha : lo <= yield a <= hi) by (inversion Hall; assumption).
  assert (Hl : lo <= yield (last (a :: rest) a) <= hi).
  { rewrite Forall_forall in Hall; apply Hall, last_in_cons. }
  destruct (Rleb t (yield_tenor_years a)); [eauto|].
  destruct (Rgeb t (yield_tenor_years (last (a :: rest) a))); [eauto|].
  destruct (yield_bracket (a :: rest) t) as [y|] eqn:Hb; cbn [with_default];
    [|eauto].
  exists y; split; [reflexivity|].
  exact (yield_bracket_between _ _ _ _ Hall y Hb).
Qed.

(** X20.  Interpolating a non-empty yield curve never leaves the range of
    its yields, whatever the target tenor and whatever the order of the
    points; the loop over the brackets always finds one when it is reached,
    so the final fallback to the first yield is never taken; an empty curve
    makes the lookup fail. *)
Theorem X20_interpolated_yield (curve : list YieldPoint) (t lo hi : R) :
  Forall (fun p => lo <= yield p <= hi) curve ->
  (curve = [] -> getInterpolatedYield curve t = None) /\
  (curve <> [] ->
   exists y, getInterpolatedYield curve t = Some y /\ lo <= y <= hi) /\
  (forall first, yield_tenor_years first < t ->
     t < yield_tenor_years (last curve first) ->
     hd_error curve = Some first ->
     exists y, yield_bracket curve t = Some y /\
               getInterpolatedYield curve t = Some y).
Proof.
  intros Hall; split; [intros ->; reflexivity|].
  split.
  - intros Hne; destruct curve as [|a rest]; [congruence|].
    now apply getInterpolatedYield_range.
  - intros first Hlo Hhi Hfirst.
    destruct curve as [|a rest]; [discriminate|].
    cbn [hd_error] in Hfirst; injection Hfirst as ->.
    destruct rest as [|b rest]; [cbn [last] in Hhi; lra|].
    change (last (first :: b :: rest) first) with (last (b :: rest) first)
      in Hhi.
    destruct (yield_bracket_found rest t first b ltac:(lra) ltac:(lra))
      as (y & Hy).
    exists y; split; [exact Hy|].
    unfold getInterpolatedYield.
    rewrite (proj2 (Rleb_false t (yield_tenor_years first))) by lra.
    change (last (first :: b :: rest) first) with (last (b :: rest) first).
    assert (Hge : Rgeb t (yield_tenor_years (last (b :: rest) first)) = false).
    { destruct (Rgeb t _) eqn:E; [apply Rgeb_true in E; lra | reflexivity]. }
    now rewrite Hge, Hy.
Qed.


(** X20 on a two-point curve, between its tenors. *)
Lemma X20_interpolated_yield_witness :
  exists y,
    getInterpolatedYield
      [mkYieldPoint 1 (3 / 100); mkYieldPoint 2 (4 / 100)] (3 / 2) = Some y /\
    3 / 100 <= y <= 4 / 100.
Proof.
  apply (X20_interpolated_yield
           [mkYieldPoint 1 (3 / 100); mkYieldPoint 2 (4 / 100)] (3 / 2)
           (3 / 100) (4 / 100)).
  - repeat constructor; cbn [yield]; lra.
  - discriminate.
Defined.

(** ** The standard curves *)

Lemma yield_bracket_shift (c : R) (curve : list YieldPoint) (t : R) :
  yield_bracket (shift_yields c curve) t
  = option_map (fun y => y + c) (yield_bracket curve t).
Proof.
  induction curve as [|a rest IH]; [reflexivity|].
  destruct rest as [|b rest']; [reflexivity|].
  change (shift_yields c (a :: b :: rest'))
    with (mkYieldPoint (yield_tenor_years a) (yield a + c)
          :: shift_yields c (b :: rest')).
  change (shift_yields c (b :: rest'))
    with (mkYieldPoint (yield_tenor_years b) (yield b + c)
          :: shift_yields c rest') at 1.
  cbn [yield_bracket yield_tenor_years yield].
  change (mkYieldPoint (yield_tenor_years b) (yield b + c)
          :: shift_yields c rest')
    with (shift_yields c (b :: rest')).
  destruct (Rgeb t (yield_tenor_years a) && Rleb t (yield_tenor_years b))%bool.
  - cbn [option_map]; f_equal; unfold interpolate.
    destruct (Reqb (yield_tenor_years b) (yield_tenor_years a)) eqn:He;
      [reflexivity|].
    assert (yield_tenor_years b <> yield_tenor_years a)
      by (intros E; apply Reqb_true in E; congruence).
    field; lra.
  - exact IH.
Qed.

Lemma last_shift (c : R) (curve : list YieldPoint) (a : YieldPoint) :
  last (shift_yields c (a :: curve)) (mkYieldPoint (yield_tenor_years a) (yield a + c))
  = mkYieldPoint (yield_tenor_years (last (a :: curve) a))
      (yield (last (a :: curve) a) + c).
Proof.
  revert a; induction curve as [|b rest IH]; intros a; [reflexivity|].
  change (last (a :: b :: rest) a) with (last (b :: rest) a).
  rewrite (last_cons_default rest b a b), <- IH.
  change (shift_yields c (a :: b :: rest))
    with (mkYieldPoint (yield_tenor_years a) (yield a + c)
          :: shift_yields c (b :: rest)).
  change (shift_yields c (b :: rest))
    with (mkYieldPoint (yield_tenor_years b) (yield b + c)
          :: shift_yields c rest).
  set (b' := mkYieldPoint (yield_tenor_years b) (yield b + c)).
  set (a' := mkYieldPoint (yield_tenor_years a) (yield a + c)).
  change (last (a' :: b' :: shift_yields c rest) a')
    with (last (b' :: shift_yields c rest) a').
  apply last_cons_default.
Qed.

(** interpolation commutes with a parallel shift of the curve *)
Lemma getInterpolatedYield_shift (c : R) (curve : list YieldPoint) (t : R) :
  getInterpolatedYield (shift_yields c curve) t
  = option_map (fun y => y + c) (getInterpolatedYield curve t).
Proof.
  destruct curve as [|a rest]; [reflexivity|].
  unfold getInterpolatedYield.
  change (shift_yields c (a :: rest))
    with (mkYieldPoint (yield_tenor_years a) (yield a + c)
          :: shift_yields c rest) at 1.
  cbv iota.
  change (mkYieldPoint (yield_tenor_years a) (yield a + c)
          :: shift_yields c rest)
    with (shift_yields c (a :: rest)).
  rewrite last_shift, yield_bracket_shift.
  cbn [yield_tenor_years yield].
  destruct (Rleb t (yield_tenor_years a)); [reflexivity|].
  destruct (Rgeb t (yield_tenor_years (last (a :: rest) a))); [reflexivity|].
  destruct (yield_bracket (a :: rest) t); reflexivity.
Qed.

Lemma getInterpolatedYield_nonempty (a : YieldPoint) (rest : list YieldPoint)
    (t : R) :
  exists y, getInterpolatedYield (a :: rest) t = Some y.
Proof.
  unfold getInterpolatedYield.
  destruct (Rleb t _); [eauto|]. destruct (Rgeb t _); eauto.
Qed.

Lemma buildCurves_loop_total md ts a rest b rest' :
  gov_bond_yields md = a :: rest -> corp_bond_yields md = b :: rest' ->
  exists rf cs, buildCurves_loop md ts = Some (rf, cs).
Proof.
  intros Hg Hc; induction ts as [|t ts (rf & cs & IH)]; cbn [buildCurves_loop];
    [eauto|].
  rewrite Hg, Hc.
  destruct (getInterpolatedYield_nonempty a rest t) as (y & ->).
  destruct (getInterpolatedYield_nonempty b rest' t) as (y' & ->).
  rewrite IH; eauto.
Qed.

Lemma buildCurves_loop_shift md ts c :
  corp_bond_yields md = shift_yields c (gov_bond_yields md) ->
  forall rf cs, buildCurves_loop md ts = Some (rf, cs) ->
    Forall (fun p => rate p = c) cs.
Proof.
  intros Hc; induction ts as [|t ts IH]; intros rf cs H;
    cbn [buildCurves_loop] in H.
  - injection H as <- <-; constructor.
  - rewrite Hc, getInterpolatedYield_shift in H.
    destruct (getInterpolatedYield (gov_bond_yields md) t) as [y|];
      cbn [option_map] in H; [|discriminate].
    destruct (buildCurves_loop md ts) as [[rf' cs']|]; [|discriminate].
    injection H as <- <-.
    constructor; [cbn [rate]; ring | now apply (IH rf')].
Qed.

(** X21.  [buildCurves] fails when one of the two yield curves is empty;
    otherwise it returns the risk-free curve and the spread curve on the
    twelve standard tenors, in order.  When the corporate curve is the
    government curve moved up by a constant, the spread curve is that
    constant at every tenor. *)
Theorem X21_standard_curves (md : MarketData) :
  (gov_bond_yields md = [] \/ corp_bond_yields md = [] ->
   buildCurves md = None) /\
  (gov_bond_yields md <> [] -> corp_bond_yields md <> [] ->
   exists rf cs,
     buildCurves md = Some (rf, cs) /\
     map curve_tenor_years rf = standard_tenors /\
     map curve_tenor_years cs = standard_tenors /\
     (forall c, corp_bond_yields md = shift_yields c (gov_bond_yields md) ->
        map rate cs = repeat c 12)).
Proof.
  split.
  - unfold buildCurves, standard_tenors; cbn [buildCurves_loop].
    intros [->| ->]; [reflexivity|].
    now destruct (getInterpolatedYield (gov_bond_yields md) (1 / 4)).
  - intros Hg Hc.
    destruct (gov_bond_yields md) as [|a rest] eqn:Eg; [congruence|].
    destruct (corp_bond_yields md) as [|b rest'] eqn:Ec; [congruence|].
    destruct (buildCurves_loop_total md standard_tenors a rest b rest' Eg Ec)
      as (rf & cs & Hb).
    exists rf, cs; unfold buildCurves.
    destruct (buildCurves_loop_tenors md standard_tenors rf cs Hb) as (Hrf & Hcs).
    split; [exact Hb|]. split; [exact Hrf|]. split; [exact Hcs|].
    intros c Hshift.
    assert (Hall : Forall (fun p => rate p = c) cs).
    { apply (buildCurves_loop_shift md standard_tenors c) with (rf := rf);
        [|exact Hb].
      now rewrite Eg, Ec. }
    assert (Hlen : length cs = 12%nat).
    { rewrite <- (length_map curve_tenor_years), Hcs; reflexivity. }
    rewrite <- Hlen; clear - Hall.
    induction Hall as [|p l Hp _ IH]; cbn [map length repeat]; [reflexivity|].
    now rewrite Hp, IH.
Qed.

(** X21 on a government curve of one point and a corporate curve 1% above. *)
Lemma X21_standard_curves_witness :
  exists rf cs,
    buildCurves (mkMarketData [mkYieldPoint 1 (3 / 100)]
                   (shift_yields (1 / 100) [mkYieldPoint 1 (3 / 100)]))
    = Some (rf, cs) /\
    map rate cs = repeat (1 / 100) 12.
Proof.
  destruct (proj2 (X21_standard_curves
                     (mkMarketData [mkYieldPoint 1 (3 / 100)]
                        (shift_yields (1 / 100) [mkYieldPoint 1 (3 / 100)])))
              ltac:(discriminate) ltac:(discriminate))
    as (rf & cs & Hb & _ & _ & Hshift).
  exists rf, cs; split; [exact Hb | now apply Hshift].
Defined.

(** X10 on the default deal, with a one-point government curve and a
    one-point corporate curve. *)
Lemma X10_fetched_curves_priced_witness :
  let marketData := mkMarketData [mkYieldPoint 1 (3 / 100)]
                      [mkYieldPoint 1 (4 / 100)] in
  let deal := mkDeal 0 20000 1000000 (35 / 100) (35 / 1000) (2 / 100)
                [sample_rcps] in
  exists dc res,
    fetched_curves marketData = Some dc /\
    results (calculateDeal (app_curve_pipeline true dc) deal) = [res] /\
    used_curve_source (meta res) = Some Bootstrapped_Curve.
Proof.
  cbv zeta.
  destruct (buildCurves_loop_total
              (mkMarketData [mkYieldPoint 1 (3 / 100)]
                 [mkYieldPoint 1 (4 / 100)])
              standard_tenors _ _ _ _ eq_refl eq_refl) as (rfc & csc & Hb).
  assert (Hf : fetched_curves
                 (mkMarketData [mkYieldPoint 1 (3 / 100)]
                    [mkYieldPoint 1 (4 / 100)])
               = Some (mkDebugCurves (Some rfc) (Some csc)
                         (Some (bootstrapZeroCurve rfc))))
    by (unfold fetched_curves, buildCurves; now rewrite Hb).
  destruct (X10_fetched_curves_priced _ _
              (mkDeal 0 20000 1000000 (35 / 100) (35 / 1000) (2 / 100)
                 [sample_rcps]) Hf) as (rfc' & csc' & _ & Hall).
  cbn [securities] in Hall.
  inversion Hall as [|sd res secs rest (rf & cs & _ & _ & Hsrc) Hrest E1 E2];
    subst.
  inversion Hrest; subst.
  eexists; exists res; split; [exact Hf|].
  split; [symmetry; assumption | exact Hsrc].
Defined.

(** ** Discount factors and forward rates of a zero curve *)

Lemma Rpower_pos (x y : R) : 0 < Rpower x y.
Proof. unfold Rpower; apply exp_pos. Qed.












(** ** A flat zero curve *)

Lemma df_bracket_flat (r : R) (rest : list ZeroCurvePoint) (t : R) :
  forall a b,
    Forall (fun p => zero_rate p = r) (a :: b :: rest) ->
    zero_tenor_years a <= t ->
    t <= zero_tenor_years (last (b :: rest) a) ->
    df_bracket (a :: b :: rest) t = Some (1 / Rpower (1 + r) t).
Proof.
  induction rest as [|c rest IH]; intros a b Hall Ha Hlast;
    cbn [df_bracket];
    rewrite (proj2 (Rgeb_true t (zero_tenor_years a))) by lra; cbn [andb];
    inversion Hall as [|? ? Hra Hall']; subst;
    inversion Hall' as [|? ? Hrb _]; subst.
  - cbn [last] in Hlast.
    rewrite (proj2 (Rleb_true _ _)) by lra; cbv zeta.
    rewrite Hrb; do 3 f_equal; unfold Rdiv; ring.
  - destruct (Rleb t (zero_tenor_years b)) eqn:Hle.
    + cbv zeta; rewrite Hrb; do 3 f_equal; unfold Rdiv; ring.
    + apply Rleb_false in Hle.
      apply IH; [exact Hall' | lra |].
      change (last (b :: c :: rest) a) with (last (c :: rest) a) in Hlast.
      now rewrite (last_cons_default rest c b a).
Qed.

Lemma getInterpolatedDF_flat (r : R) (zc : list ZeroCurvePoint) (t : R) :
  zc <> [] -> Forall (fun p => zero_rate p = r) zc -> 0 <= t ->
  getInterpolatedDF zc t = Some (1 / Rpower (1 + r) t).
Proof.
  intros Hne Hall Ht; unfold getInterpolatedDF.
  destruct (Rleb t 0) eqn:H0.
  - apply Rleb_true in H0; assert (t = 0) by lra; subst t.
    unfold Rpower; rewrite Rmult_0_l, exp_0; f_equal; lra.
  - destruct zc as [|a rest]; [congruence|].
    assert (Hra : zero_rate a = r) by (inversion Hall; assumption).
    assert (Hrl : zero_rate (last (a :: rest) a) = r).
    { rewrite Forall_forall in Hall; apply Hall, last_in_cons. }
    destruct (Rleb t (zero_tenor_years a)) eqn:Hle; [now rewrite Hra|].
    cbv zeta.
    destruct (Rgeb t (zero_tenor_years (last (a :: rest) a))) eqn:Hge;
      [now rewrite Hrl|].
    apply Rleb_false in Hle.
    assert (Hlt : t < zero_tenor_years (last (a :: rest) a)).
    { destruct (Rlt_dec t (zero_tenor_years (last (a :: rest) a))) as [H|H];
        [exact H|].
      assert (E : Rgeb t (zero_tenor_years (last (a :: rest) a)) = true)
        by (apply Rgeb_true; lra).
      congruence. }
    destruct rest as [|b rest]; [cbn [last] in Hlt; lra|].
    change (last (a :: b :: rest) a) with (last (b :: rest) a) in Hlt.
    rewrite (df_bracket_flat r rest t a b Hall) by lra.
    reflexivity.
Qed.

(** X23.  On a flat zero curve (every point at the rate [r > -1]) the
    discount factor of any horizon [t >= 0] is [(1 + r) ^ (- t)], whatever
    the tenors of the curve; hence every step gets the same forward rate
    [((1 + r) ^ dt - 1) / dt], and [buildStepwiseRates] returns two
    constant arrays. *)
Theorem X23_flat_zero_curve (zeroRf_ zeroCs : list ZeroCurvePoint)
    (r c dt : R) (N : nat) :
  zeroRf_ <> [] -> zeroCs <> [] ->
  Forall (fun p => zero_rate p = r) zeroRf_ ->
  Forall (fun p => zero_rate p = c) zeroCs ->
  -1 < r -> -1 < c -> 0 < dt ->
  (forall t, 0 <= t ->
     getInterpolatedDF zeroRf_ t = Some (1 / Rpower (1 + r) t)) /\
  buildStepwiseRates zeroRf_ zeroCs N dt
  = Some (repeat ((Rpower (1 + r) dt - 1) / dt) N,
          repeat ((Rpower (1 + c) dt - 1) / dt) N).
Proof.
  intros Hne Hne' Hall Hall' Hr Hc Hdt.
  split; [intros t Ht; now apply getInterpolatedDF_flat|].
  assert (Hfwd : forall zc x, zc <> [] ->
            Forall (fun p => zero_rate p = x) zc ->
            forall t, forward_rate zc dt t = Some ((Rpower (1 + x) dt - 1) / dt)).
  { intros zc x Hz Hzall t; unfold forward_rate.
    assert (Ht1 : 0 <= INR t * dt)
      by (apply Rmult_le_pos; [apply pos_INR | lra]).
    assert (Ht2 : 0 <= INR (t + 1) * dt)
      by (apply Rmult_le_pos; [apply pos_INR | lra]).
    rewrite !(getInterpolatedDF_flat x zc) by assumption.
    f_equal; f_equal; f_equal.
    rewrite plus_INR, INR_1, Rmult_plus_distr_r, Rmult_1_l, Rpower_plus.
    pose proof (Rpower_pos (1 + x) (INR t * dt)).
    pose proof (Rpower_pos (1 + x) dt).
    field; lra. }
  unfold buildStepwiseRates.
  generalize 0%nat as a.
  induction N as [|N IH]; intros a; cbn [seq stepwise_loop repeat];
    [reflexivity|].
  rewrite (Hfwd zeroRf_ r Hne Hall), (Hfwd zeroCs c Hne' Hall'), IH.
  reflexivity.
Qed.

(** X23 on two one-point curves. *)
Lemma X23_flat_zero_curve_witness :
  buildStepwiseRates [mkZeroCurvePoint 1 (3 / 100) 1]
    [mkZeroCurvePoint 1 (1 / 100) 1] 2 (1 / 52)
  = Some (repeat ((Rpower (1 + 3 / 100) (1 / 52) - 1) / (1 / 52)) 2,
          repeat ((Rpower (1 + 1 / 100) (1 / 52) - 1) / (1 / 52)) 2).
Proof.
  apply (X23_flat_zero_curve [mkZeroCurvePoint 1 (3 / 100) 1]
           [mkZeroCurvePoint 1 (1 / 100) 1] (3 / 100) (1 / 100) (1 / 52) 2);
    try discriminate; try lra; repeat constructor.
Defined.

(** ** The bootstrapped curve at its own tenors *)

Lemma increasing_lt_all (l : list R) :
  forall a, increasing (a :: l) -> Forall (fun x => a < x) l /\ increasing l.
Proof.
  induction l as [|b l IH]; intros a H; [split; [constructor | exact I]|].
  destruct H as (Hab & Hbl).
  destruct (IH b Hbl) as (Hall & _).
  split; [|exact Hbl].
  constructor; [exact Hab|].
  eapply Forall_impl; [|exact Hall]; cbv beta; intros; lra.
Qed.

Section Knots.
Variable zc : list ZeroCurvePoint.

Lemma tenor_injective :
  forall l, increasing (map zero_tenor_years l) ->
    forall p q, In p l -> In q l ->
      zero_tenor_years p = zero_tenor_years q -> p = q.
Proof.
  induction l as [|a l IH]; intros Hinc p q Hp Hq Ht; [destruct Hp|].
  cbn [map] in Hinc.
  destruct (increasing_lt_all _ _ Hinc) as (Hall & Hl).
  rewrite Forall_forall in Hall.
  assert (Hlater : forall x, In x l -> zero_tenor_years a < zero_tenor_years x)
    by (intros x Hx; apply Hall, in_map, Hx).
  destruct Hp as [<-|Hp], Hq as [<-|Hq]; try reflexivity.
  - pose proof (Hlater q Hq); lra.
  - pose proof (Hlater p Hp); lra.
  - now apply IH.
Qed.

Lemma tenor_le_last :
  forall l a, increasing (map zero_tenor_years (a :: l)) ->
    forall p, In p (a :: l) ->
      zero_tenor_years p <= zero_tenor_years (last (a :: l) a).
Proof.
  induction l as [|b l IH]; intros a Hinc p Hp.
  - destruct Hp as [<-|[]]; cbn [last]; lra.
  - change (last (a :: b :: l) a) with (last (b :: l) a).
    rewrite (last_cons_default l b a b).
    cbn [map] in Hinc; destruct Hinc as (Hab & Hbl).
    destruct Hp as [<-|Hp].
    + pose proof (IH b Hbl b ltac:(now left)); lra.
    + now apply IH.
Qed.

Lemma df_bracket_knot :
  forall rest a, increasing (map zero_tenor_years (a :: rest)) ->
    forall p, In p rest ->
      df_bracket (a :: rest) (zero_tenor_years p)
      = Some (1 / Rpower (1 + zero_rate p) (zero_tenor_years p)).
Proof.
  induction rest as [|b rest IH]; intros a Hinc p Hp; [destruct Hp|].
  cbn [map] in Hinc; destruct Hinc as (Hab & Hbl).
  cbn [df_bracket].
  destruct Hp as [<-|Hp].
  - rewrite (proj2 (Rgeb_true _ _)), (proj2 (Rleb_true _ _)) by lra.
    cbn [andb]; cbv zeta; do 3 f_equal; field; lra.
  - destruct (increasing_lt_all _ _ Hbl) as (Hall & _).
    rewrite Forall_forall in Hall.
    pose proof (Hall _ (in_map zero_tenor_years _ _ Hp)) as Hlt.
    rewrite (proj2 (Rleb_false (zero_tenor_years p) (zero_tenor_years b)))
      by lra.
    rewrite Bool.andb_false_r.
    now apply IH.
Qed.

Lemma getInterpolatedDF_knot :
  increasing (map zero_tenor_years zc) ->
  Forall (fun p => 0 < zero_tenor_years p) zc ->
  forall p, In p zc ->
    getInterpolatedDF zc (zero_tenor_years p)
    = Some (1 / Rpower (1 + zero_rate p) (zero_tenor_years p)).
Proof.
  intros Hinc Hpos p Hp; unfold getInterpolatedDF.
  rewrite Forall_forall in Hpos.
  rewrite (proj2 (Rleb_false (zero_tenor_years p) 0)) by (now apply Hpos).
  destruct zc as [|a rest]; [destruct Hp|].
  destruct (Rleb (zero_tenor_years p) (zero_tenor_years a)) eqn:Hle.
  - apply Rleb_true in Hle.
    assert (p = a); [|now subst].
    destruct Hp as [<-|Hp]; [reflexivity|].
    cbn [map] in Hinc; destruct (increasing_lt_all _ _ Hinc) as (Hall & _).
    rewrite Forall_forall in Hall.
    pose proof (Hall _ (in_map zero_tenor_years _ _ Hp)); lra.
  - apply Rleb_false in Hle; cbv zeta.
    destruct Hp as [<-|Hp]; [lra|].
    destruct (Rgeb (zero_tenor_years p) (zero_tenor_years (last (a :: rest) a)))
      eqn:Hge.
    + apply Rgeb_true in Hge.
      pose proof (tenor_le_last rest a Hinc p ltac:(now right)) as Hmax.
      assert (p = last (a :: rest) a); [|now subst].
      apply (tenor_injective (a :: rest) Hinc);
        [now right | apply last_in_cons | lra].
    + now rewrite (df_bracket_knot rest a Hinc p Hp).
Qed.
End Knots.

(** X24.  On a par curve with positive, strictly increasing tenors, the
    bootstrapped zero curve returns at each of its own tenors the discount
    factor stored with that point, [1 / (1 + r) ^ tenor]: looking a knot up
    goes through the interpolation unchanged. *)
Theorem X24_bootstrap_round_trip (yieldCurve : list CurvePoint) :
  increasing (map curve_tenor_years yieldCurve) ->
  Forall (fun pt => 0 < curve_tenor_years pt) yieldCurve ->
  forall p, In p (bootstrapZeroCurve yieldCurve) ->
    getInterpolatedDF (bootstrapZeroCurve yieldCurve) (zero_tenor_years p)
    = Some (discount_factor p) /\
    discount_factor p = 1 / Rpower (1 + zero_rate p) (zero_tenor_years p).
Proof.
  intros Hinc Hpos p Hp.
  assert (Hdf : discount_factor p
                = 1 / Rpower (1 + zero_rate p) (zero_tenor_years p)).
  { unfold bootstrapZeroCurve in Hp; apply in_map_iff in Hp as (q & <- & _).
    reflexivity. }
  split; [|exact Hdf].
  rewrite Hdf; apply getInterpolatedDF_knot; [| |exact Hp].
  - unfold bootstrapZeroCurve; rewrite map_map; exact Hinc.
  - unfold bootstrapZeroCurve; rewrite Forall_map; exact Hpos.
Qed.

(** X24 on a two-point curve, at its second tenor. *)
Lemma X24_bootstrap_round_trip_witness :
  getInterpolatedDF
    (bootstrapZeroCurve [mkCurvePoint 1 (3 / 100); mkCurvePoint 2 (4 / 100)]) 2
  = Some (1 / Rpower (1 + 4 / 100) 2).
Proof.
  refine (proj1 (X24_bootstrap_round_trip
                   [mkCurvePoint 1 (3 / 100); mkCurvePoint 2 (4 / 100)] _ _
                   (mkZeroCurvePoint 2 (4 / 100) (1 / Rpower (1 + 4 / 100) 2))
                   _)).
  - cbn [map curve_tenor_years increasing]; split; [lra | exact I].
  - repeat constructor; cbn [curve_tenor_years]; lra.
  - right; left; reflexivity.
Defined.

(** ** An employee option is worth at most the share *)

Lemma S_node_nonneg (S0 u d : R) (t i : nat) :
  0 <= S0 -> 0 <= u -> 0 <= d -> 0 <= S_node S0 u d t i.
Proof.
  intros HS Hu Hd; unfold S_node.
  apply Rmult_le_pos; [apply Rmult_le_pos|]; try assumption;
    now apply pow_le.
Qed.

Lemma S_node_children (S0 u d : R) (t i : nat) :
  (i <= t)%nat ->
  S_node S0 u d (S t) (S i) = S_node S0 u d t i * u /\
  S_node S0 u d (S t) i = S_node S0 u d t i * d.
Proof.
  intros Hi; unfold S_node.
  replace (S t - S i)%nat with (t - i)%nat by lia.
  replace (S t - i)%nat with (S (t - i)) by lia.
  cbn [pow]; split; ring.
Qed.

Section EsoBound.
Variable s : SecuritySchema.
Variable g : list TimeStep.
Variable rf : list R.
Variables dt u d : R.
Variable N : nat.

Hypothesis Hq : forall t, (t < N)%nat -> 0 <= tf_q rf dt u d t <= 1.
Hypothesis Hud : u - d <> 0.
Hypothesis Hu : 0 <= u.
Hypothesis Hd : 0 <= d.
Hypothesis HS0 : 0 <= share_price_current s.
Hypothesis Hstrike : 0 <= with_default (strike_price s) 0.
Hypothesis Hexit : 0 <= with_default (employee_exit_rate s) 0 * dt.

Lemma eso_le_share (k : nat) :
  forall t i, (t <= N)%nat -> (i <= t)%nat -> (N - t)%nat = k ->
    0 <= eso_E_at s g rf dt u d N t i
    <= S_node (share_price_current s) u d t i.
Proof.
  induction k as [|k IH]; intros t i Ht Hi Hk; unfold eso_E_at.
  - assert (t = N) by lia; subst t.
    unfold eso_lattice; rewrite at_node_terminal by exact Hi.
    unfold eso_terminal; cbv zeta; cbn [eso_E].
    pose proof (S_node_nonneg (share_price_current s) u d N i HS0 Hu Hd).
    split; [apply Rmax_r | apply Rmax_lub; lra].
  - rewrite eso_node_backward by (try lia; exact Hi).
    destruct (IH (S t) (S i)) as (Hup0 & Hup); try lia.
    destruct (IH (S t) i) as (Hdn0 & Hdn); try lia.
    unfold eso_E_at in Hup0, Hup, Hdn0, Hdn.
    set (up := at_node _ _ (S t) (S i)) in *.
    set (down := at_node _ _ (S t) i) in *.
    destruct (S_node_children (share_price_current s) u d t i Hi) as (Eu & Ed).
    rewrite Eu in Hup; rewrite Ed in Hdn.
    pose proof (S_node_nonneg (share_price_current s) u d t i HS0 Hu Hd) as HS.
    set (Sti := S_node (share_price_current s) u d t i) in *.
    pose proof (Hq t ltac:(lia)) as Hqt.
    unfold eso_backward; cbv zeta.
    change (eso_q rf dt u d t) with (tf_q rf dt u d t).
    set (q := tf_q rf dt u d t) in *.
    assert (Hmart : q * u + (1 - q) * d = exp (nth t rf 0 * dt)).
    { unfold q, tf_q; field; exact Hud. }
    set (r := nth t rf 0) in *.
    assert (Hdf : 0 < exp (- r * dt)) by apply exp_pos.
    assert (Hone : exp (r * dt) * exp (- r * dt) = 1).
    { rewrite <- exp_plus.
      replace (r * dt + - r * dt) with 0 by ring; apply exp_0. }
    assert (Hcont0 : 0 <= (q * eso_E up + (1 - q) * eso_E down) * exp (- r * dt)).
    { apply Rmult_le_pos; [|lra].
      apply Rplus_le_le_0_compat; apply Rmult_le_pos; lra. }
    assert (Hcont : (q * eso_E up + (1 - q) * eso_E down) * exp (- r * dt)
                    <= Sti).
    { assert (Hexp : q * eso_E up + (1 - q) * eso_E down
                     <= Sti * exp (r * dt)).
      { rewrite <- Hmart.
        assert (q * eso_E up <= q * (Sti * u))
          by (apply Rmult_le_compat_l; lra).
        assert ((1 - q) * eso_E down <= (1 - q) * (Sti * d))
          by (apply Rmult_le_compat_l; lra).
        lra. }
      apply (Rmult_le_compat_r (exp (- r * dt))) in Hexp; [|lra].
      rewrite Rmult_assoc, Hone in Hexp; lra. }
    set (cont := (q * eso_E up + (1 - q) * eso_E down) * exp (- r * dt)) in *.
    assert (Hsurv : 0 < eso_survival_factor_step s dt <= 1).
    { unfold eso_survival_factor_step; split; [apply exp_pos|].
      rewrite <- exp_0.
      destruct (Req_dec (with_default (employee_exit_rate s) 0 * dt) 0) as [E|E].
      - right; f_equal; lra.
      - left; apply exp_increasing; lra. }
    assert (Hintr : 0 <= Rmax (Sti - with_default (strike_price s) 0) 0 <= Sti).
    { split; [apply Rmax_r | apply Rmax_lub; lra]. }
    assert (Hval : forall v, 0 <= v <= Sti ->
              0 <= v * eso_survival_factor_step s dt <= Sti).
    { intros v Hv; split; [apply Rmult_le_pos; lra | nra]. }
    destruct (_ <=? _)%Z; [|cbn [eso_E]; now apply Hval].
    destruct (Rgeb _ _ && Rgtb _ _)%bool; cbn [eso_E]; apply Hval;
      [exact Hintr | split; assumption].
Qed.
End EsoBound.

Lemma engine_u_d (s : SecuritySchema) :
  0 < volatility s -> 0 < engine_d s < 1 /\ 1 < engine_u s.
Proof.
  intros Hvol.
  destruct (engine_dt_bounds s) as (Hdt & _).
  assert (Hx : 0 < volatility s * sqrt (engine_dt s))
    by (apply Rmult_lt_0_compat; [exact Hvol | now apply sqrt_lt_R0]).
  assert (Hu : 1 < engine_u s)
    by (unfold engine_u; rewrite <- exp_0; now apply exp_increasing).
  split; [|exact Hu].
  unfold engine_d; split.
  - unfold Rdiv; rewrite Rmult_1_l; apply Rinv_0_lt_compat; lra.
  - apply (Rmult_lt_reg_r (engine_u s)); [lra|].
    unfold Rdiv; rewrite Rmult_assoc, Rinv_l by lra; lra.
Qed.

(** X25.  With flat rates, positive volatility, a risk-free rate no larger
    than the volatility in absolute value, and a share price, a strike and
    an exit rate that are not negative, the value of an employee option
    lies between zero and the share price at every node of the engine's
    lattice; at the root it is at most the spot price. *)
Theorem X25_option_below_share (s : SecuritySchema) :
  stepwise_risk_free_rates s = None ->
  0 < volatility s ->
  - volatility s <= risk_free_rate s <= volatility s ->
  0 <= share_price_current s ->
  0 <= with_default (strike_price s) 0 ->
  0 <= with_default (employee_exit_rate s) 0 ->
  (forall t i, (t <= engine_N s)%nat -> (i <= t)%nat ->
     0 <= eso_E_at s (engine_grid s) (engine_rf_t s) (engine_dt s)
            (engine_u s) (engine_d s) (engine_N s) t i
       <= S_node (share_price_current s) (engine_u s) (engine_d s) t i) /\
  0 <= eso_E_at s (engine_grid s) (engine_rf_t s) (engine_dt s)
         (engine_u s) (engine_d s) (engine_N s) 0 0
    <= share_price_current s.
Proof.
  intros Hflat Hvol Hr HS0 Hstrike Hexit.
  pose proof (engine_q_bounds s Hflat Hvol (engine_dt_bounds s) Hr) as Hq.
  destruct (engine_u_d s Hvol) as ((Hd0 & Hd1) & Hu).
  destruct (engine_dt_bounds s) as (Hdt & _).
  assert (Hall : forall t i, (t <= engine_N s)%nat -> (i <= t)%nat ->
     0 <= eso_E_at s (engine_grid s) (engine_rf_t s) (engine_dt s)
            (engine_u s) (engine_d s) (engine_N s) t i
       <= S_node (share_price_current s) (engine_u s) (engine_d s) t i).
  { intros t i Ht Hi.
    apply (eso_le_share s (engine_grid s) (engine_rf_t s) (engine_dt s)
             (engine_u s) (engine_d s) (engine_N s) Hq) with (k := (engine_N s - t)%nat);
      try assumption; try lra; try reflexivity.
    apply Rmult_le_pos; lra. }
  split; [exact Hall|].
  pose proof (Hall 0%nat 0%nat (Nat.le_0_l _) (le_n _)) as H0.
  unfold S_node in H0; cbn [Nat.sub pow] in H0.
  rewrite !Rmult_1_r in H0; exact H0.
Qed.

(** X25 on the sample employee option. *)
Lemma X25_option_below_share_witness :
  0 <= eso_E_at sample_eso (engine_grid sample_eso) (engine_rf_t sample_eso)
         (engine_dt sample_eso) (engine_u sample_eso) (engine_d sample_eso)
         (engine_N sample_eso) 0 0
    <= 20000.
Proof.
  refine (proj2 (X25_option_below_share sample_eso eq_refl _ _ _ _ _));
    cbn [sample_eso volatility risk_free_rate share_price_current strike_price
         employee_exit_rate with_default]; lra.
Defined.

(** ** Per-unit values in the result *)

(** X26.  The per-share value of the result is the signed value of one
    calculation unit: for a share-based security it times the number of
    issued shares is the total; a bond has no per-share value; for an
    employee option the per-share and the per-option value agree, and times
    the number of options (one when absent) they give the total. *)
Theorem X26_per_unit_values (s : SecuritySchema) :
  let r := runPricingEngine s in
  match security_type s with
  | CB => fair_value_per_share r = None /\ eso_val_per_option r = None
  | ESO =>
      exists v,
        fair_value_per_share r = Some v /\ eso_val_per_option r = Some v /\
        fair_value_total r = v * with_default (num_options s) 1
  | _ =>
      exists v,
        fair_value_per_share r = Some v /\ eso_val_per_option r = None /\
        fair_value_total r = v * num_issued_shares s
  end.
Proof.
  cbv zeta; rewrite runPricingEngine_dispatch.
  destruct (security_type s) eqn:Hty;
    unfold calculateTF, calculateESO;
    cbn [fair_value_per_share eso_val_per_option fair_value_total];
    unfold total_hybrid_long, isPerShare, isCB; rewrite ?Hty;
    cbn [SecurityType_eqb negb];
    first [ split; reflexivity
          | eexists; split; [reflexivity|]; split; [reflexivity|]; ring ].
Qed.

(** ** The rows of the node log *)

Lemma nodes_upto_length (m : nat) :
  (2 * length (nodes_upto m) = (m + 1) * (m + 2))%nat.
Proof.
  unfold nodes_upto.
  induction m as [|m IH]; [reflexivity|].
  rewrite seq_S, flat_map_app, length_app; cbn [Nat.add flat_map].
  rewrite app_nil_r, length_map, length_seq; lia.
Qed.

(** X27.  Every row of the node log of a TF security carries the lattice
    entries of its node: debt leg, equity leg, their sum as node value, the
    flag and the effective conversion price of the step; the up-probability
    and the credit spread of a row are always logged as zero.  The log has
    [(m + 1) (m + 2) / 2] rows for [m = min (N, 5)], so between 3 and 21. *)
Theorem X27_log_rows (s : SecuritySchema) :
  security_type s <> ESO ->
  let logs := node_logs (runPricingEngine s) in
  let m := Nat.min (engine_N s) 5 in
  Forall (fun row =>
            D_ti row = D_at s (engine_grid s) (engine_rf_t s) (engine_cs_t s)
                         (engine_dt s) (engine_u s) (engine_d s) (engine_N s)
                         (log_t row) (log_i row) /\
            E_ti row = E_at s (engine_grid s) (engine_rf_t s) (engine_cs_t s)
                         (engine_dt s) (engine_u s) (engine_d s) (engine_N s)
                         (log_t row) (log_i row) /\
            V_ti row = D_ti row + E_ti row /\
            event_flag row
            = Flags_at s (engine_grid s) (engine_rf_t s) (engine_cs_t s)
                (engine_dt s) (engine_u s) (engine_d s) (engine_N s)
                (log_t row) (log_i row) /\
            conversion_price_eff row
            = Some (cp_eff s (engine_grid s) (engine_N s) (log_t row)) /\
            q_up row = 0 /\ log_cs_t row = 0) logs /\
  (2 * length logs = (m + 1) * (m + 2))%nat /\
  (3 <= length logs <= 21)%nat.
Proof.
  intros Hty; cbv zeta.
  assert (Hrun : node_logs (runPricingEngine s)
                 = tf_node_logs s (engine_grid s) (engine_rf_t s)
                     (engine_cs_t s) (engine_dt s) (engine_u s) (engine_d s)
                     (engine_N s)).
  { rewrite runPricingEngine_dispatch.
    destruct (security_type s); try reflexivity; congruence. }
  rewrite Hrun.
  assert (Hlen : (2 * length (tf_node_logs s (engine_grid s) (engine_rf_t s)
                                (engine_cs_t s) (engine_dt s) (engine_u s)
                                (engine_d s) (engine_N s))
                  = (Nat.min (engine_N s) 5 + 1)
                    * (Nat.min (engine_N s) 5 + 2))%nat).
  { rewrite <- (length_map (fun row => (log_t row, log_i row))),
      tf_node_logs_nodes.
    apply nodes_upto_length. }
  split; [|split; [exact Hlen|]].
  - unfold tf_node_logs; apply Forall_forall; intros row Hrow.
    apply in_flat_map in Hrow as (t & _ & Hrow).
    apply in_map_iff in Hrow as (i & <- & _).
    unfold log_row;
      cbn [D_ti E_ti V_ti event_flag conversion_price_eff q_up log_cs_t
           log_t log_i].
    repeat split; reflexivity.
  - pose proof (engine_N_pos s) as HN.
    destruct (Nat.min_spec (engine_N s) 5) as [(H1 & E)|(H1 & E)];
      rewrite E in Hlen; nia.
Qed.

(** X27 on the default security: the log has 21 rows. *)
Lemma X27_log_rows_witness :
  (2 * length (node_logs (runPricingEngine sample_rcps))
   = (Nat.min (engine_N sample_rcps) 5 + 1)
     * (Nat.min (engine_N sample_rcps) 5 + 2))%nat.
Proof.
  exact (proj1 (proj2 (X27_log_rows sample_rcps ltac:(discriminate)))).
Defined.

(** ** Without an issuer call the derivative is an asset of the holder *)



Section NoCall.
Variable s : SecuritySchema.
Variable g : list TimeStep.
Variables rf cs : list R.
Variables dt u d : R.
Variable N : nat.

Hypothesis Hq : forall t, (t < N)%nat -> 0 <= tf_q rf dt u d t <= 1.
Hypothesis Hcs : forall t, (t < N)%nat -> 0 <= nth t cs 0 * dt.
Hypothesis Hnocall : has_call_option s = false.
Hypothesis Hcf : 0 <= unit_periodic_cf s dt.
Hypothesis Hhold : 0 <= unit_redemption_value s + unit_periodic_cf s dt.

(** the node at step [t] is worth at least the cash flows of the steps
    [t .. N] and the redemption, discounted to step [t] *)
Local Abbreviation above_straight t n :=
  (0 <= tf_D n /\ 0 <= tf_E n /\
   unit_periodic_cf s dt
   * Rsum (map (risky_df rf cs dt) (seq t (S N - t)))
   + unit_redemption_value s * risky_df rf cs dt N
   <= risky_df rf cs dt t * (tf_D n + tf_E n)).



End NoCall.



(** ** Weighted average against full ratchet *)

(** the broad-based weighted average is not below the new issue price *)
Lemma weighted_average_ge_price (CP SP SO SN : R) :
  0 <= SP -> SP < CP -> 0 < SO -> 0 <= SN ->
  SP <= CP * ((SO + (SP / CP) * SN) / (SO + SN)).
Proof.
  intros HSP Hlt HSO HSN.
  assert (HCP : 0 < CP) by lra.
  assert (Hden : 0 < SO + SN) by lra.
  replace (CP * ((SO + SP / CP * SN) / (SO + SN)))
    with ((CP * SO + SP * SN) / (SO + SN)) by (field; lra).
  apply (Rmult_le_reg_r (SO + SN)); [exact Hden|].
  unfold Rdiv; rewrite Rmult_assoc, Rinv_l by lra.
  nra.
Qed.

Section Policies.
Variable s : SecuritySchema.
Variable g : list TimeStep.

Local Abbreviation ratchet := (set_anti_dilution FULL_RATCHET s).
Local Abbreviation average := (set_anti_dilution WA_DOWN_ONLY s).

Lemma apply_floor_policy (a : AntiDilutionType) (x : R) :
  apply_floor (set_anti_dilution a s) x = apply_floor s x.
Proof. reflexivity. Qed.

Lemma apply_event_compare (a b : R) (e : ResetEvent) :
  a <= b -> event_ok e ->
  apply_event ratchet a e <= apply_event average b e.
Proof.
  intros Hab (Hp & Hn & Hso).
  unfold apply_event; cbn [set_anti_dilution anti_dilution_type].
  rewrite !apply_floor_policy.
  destruct (Rltb (issue_price_new e) b) eqn:Hb;
    [apply Rltb_true in Hb | apply Rltb_false in Hb].
  - assert (Hso' : 0 < or_default (shares_outstanding_before_reset e) 1000000)
      by (apply or_default_pos; [exact Hso | lra]).
    pose proof (weighted_average_ge_price b (issue_price_new e) _
                  (issue_shares_new e) Hp Hb Hso' Hn) as Hwa.
    cbv zeta.
    destruct (Rltb (issue_price_new e) a) eqn:Ha;
      [apply Rltb_true in Ha | apply Rltb_false in Ha].
    + now apply apply_floor_monotone.
    + eapply Rle_trans; [|apply apply_floor_ge_self]. lra.
  - rewrite (proj2 (Rltb_false (issue_price_new e) a)) by lra.
    exact Hab.
Qed.

Lemma consume_events_compare (stepDate : Z) (pending : list ResetEvent) :
  Forall event_ok pending ->
  forall a b, a <= b ->
    fst (consume_events ratchet stepDate a pending)
    <= fst (consume_events average stepDate b pending) /\
    snd (consume_events ratchet stepDate a pending)
    = snd (consume_events average stepDate b pending) /\
    Forall event_ok (snd (consume_events ratchet stepDate a pending)).
Proof.
  induction 1 as [|e rest He Hrest IH]; intros a b Hab; cbn [consume_events].
  - cbn [fst snd]; repeat split; [exact Hab | constructor].
  - destruct (event_date e <=? stepDate)%Z.
    + apply IH; now apply apply_event_compare.
    + cbn [fst snd]; repeat split; [exact Hab | now constructor].
Qed.

Lemma refix_sweep_compare (ts : list nat) :
  forall pending a b,
    Forall event_ok pending -> a <= b ->
    forall j, (j < length ts)%nat ->
      nth j (refix_sweep ratchet g ts a pending) 0
      <= nth j (refix_sweep average g ts b pending) 0.
Proof.
  induction ts as [|t ts IH]; intros pending a b Hok Hab j Hj;
    cbn [length] in Hj; [lia|].
  cbn [refix_sweep].
  destruct (consume_events_compare (date (grid_at g t)) pending Hok a b Hab)
    as (Hle & Hrest & Hok').
  destruct (consume_events ratchet (date (grid_at g t)) a pending)
    as [a' r1].
  destruct (consume_events average (date (grid_at g t)) b pending)
    as [b' r2].
  cbn [fst snd] in Hle, Hrest, Hok'; subst r2.
  destruct j as [|j]; cbn [nth]; [exact Hle|].
  apply IH; [exact Hok' | exact Hle | lia].
Qed.
End Policies.

(** X29.  For the same conversion price, floor and reset events (prices and
    share counts not negative), the weighted-average policy never leaves
    the effective conversion price below the one the full ratchet would
    set: at every step the full-ratchet price is the lower of the two. *)
Theorem X29_average_above_ratchet (s : SecuritySchema) (g : list TimeStep)
    (N : nat) :
  Forall event_ok (with_default (reset_events s) []) ->
  forall t, (t <= N)%nat ->
    cp_eff (set_anti_dilution FULL_RATCHET s) g N t
    <= cp_eff (set_anti_dilution WA_DOWN_ONLY s) g N t.
Proof.
  intros Hok t Ht; unfold cp_eff, cp_at_step.
  cbn [set_anti_dilution anti_dilution_type reset_events conversion_price
       AntiDilutionType_eqb negb andb].
  destruct (0 <? length (with_default (reset_events s) []))%nat.
  - apply refix_sweep_compare;
      [now apply sort_events_ok | lra | rewrite length_seq; lia].
  - lra.
Qed.

(** X29 on the sample with one down round at 15,000. *)
Lemma X29_average_above_ratchet_witness :
  cp_eff (set_anti_dilution FULL_RATCHET weighted_average_rcps)
    (engine_grid weighted_average_rcps) (engine_N weighted_average_rcps)
    (engine_N weighted_average_rcps)
  <= cp_eff (set_anti_dilution WA_DOWN_ONLY weighted_average_rcps)
       (engine_grid weighted_average_rcps) (engine_N weighted_average_rcps)
       (engine_N weighted_average_rcps).
Proof.
  apply (X29_average_above_ratchet weighted_average_rcps); [|apply le_n].
  cbn [weighted_average_rcps reset_events with_default].
  constructor; [|constructor].
  unfold event_ok; cbn [issue_price_new issue_shares_new
                        shares_outstanding_before_reset].
  repeat split; try lra.
  intros so H; injection H as <-; lra.
Defined.

(** ** The curves built from the mocked market data *)

Lemma last_map_cons {A B : Type} (f : A -> B) (l : list A) (a : A) :
  last (map f (a :: l)) (f a) = f (last (a :: l) a).
Proof.
  revert a; induction l as [|b l IH]; intros a; [reflexivity|].
  change (last (a :: b :: l) a) with (last (b :: l) a).
  rewrite (last_cons_default l b a b), <- IH.
  cbn [map].
  change (last (f a :: f b :: map f l) (f a)) with (last (f b :: map f l) (f a)).
  apply last_cons_default.
Qed.

Lemma yield_bracket_tilt (b c : R) (curve : list YieldPoint) (t : R) :
  yield_bracket (tilt_yields b c curve) t
  = option_map (fun y => y + b + t * c) (yield_bracket curve t).
Proof.
  induction curve as [|p rest IH]; [reflexivity|].
  destruct rest as [|p' rest']; [reflexivity|].
  unfold tilt_yields in *; cbn [map] in *.
  cbn [yield_bracket yield_tenor_years yield].
  destruct (Rgeb t (yield_tenor_years p)) eqn:Hge; cbn [andb]; [|exact IH].
  destruct (Rleb t (yield_tenor_years p')) eqn:Hle; [|exact IH].
  apply Rgeb_true in Hge; apply Rleb_true in Hle.
  cbn [option_map]; f_equal; unfold interpolate.
  destruct (Reqb (yield_tenor_years p') (yield_tenor_years p)) eqn:He.
  - apply Reqb_true in He.
    assert (t = yield_tenor_years p) by lra; subst t; ring.
  - assert (yield_tenor_years p' <> yield_tenor_years p)
      by (intros E; apply Reqb_true in E; congruence).
    field; lra.
Qed.

(** inside the range of its tenors, interpolation commutes with a tilt of
    the curve *)
Lemma getInterpolatedYield_tilt (b c : R) (a : YieldPoint)
    (rest : list YieldPoint) (t : R) :
  yield_tenor_years a <= t <= yield_tenor_years (last (a :: rest) a) ->
  getInterpolatedYield (tilt_yields b c (a :: rest)) t
  = option_map (fun y => y + b + t * c) (getInterpolatedYield (a :: rest) t).
Proof.
  intros (Hlo & Hhi).
  unfold getInterpolatedYield.
  change (tilt_yields b c (a :: rest))
    with (map (fun pt => mkYieldPoint (yield_tenor_years pt)
                           (yield pt + b + yield_tenor_years pt * c))
            (a :: rest)).
  cbn [map]; cbv iota.
  change (mkYieldPoint (yield_tenor_years a) (yield a + b + yield_tenor_years a * c)
          :: map (fun pt => mkYieldPoint (yield_tenor_years pt)
                              (yield pt + b + yield_tenor_years pt * c)) rest)
    with (map (fun pt => mkYieldPoint (yield_tenor_years pt)
                           (yield pt + b + yield_tenor_years pt * c))
            (a :: rest)).
  rewrite (last_map_cons
             (fun pt => mkYieldPoint (yield_tenor_years pt)
                          (yield pt + b + yield_tenor_years pt * c)) rest a).
  cbn [yield_tenor_years yield].
  change (map (fun pt => mkYieldPoint (yield_tenor_years pt)
                           (yield pt + b + yield_tenor_years pt * c))
            (a :: rest))
    with (tilt_yields b c (a :: rest)).
  rewrite yield_bracket_tilt.
  destruct (Rleb t (yield_tenor_years a)) eqn:H1.
  - apply Rleb_true in H1.
    assert (t = yield_tenor_years a) by lra; subst t; reflexivity.
  - destruct (Rgeb t (yield_tenor_years (last (a :: rest) a))) eqn:H2.
    + apply Rgeb_true in H2.
      assert (t = yield_tenor_years (last (a :: rest) a)) by lra.
      cbn [option_map]; f_equal; rewrite <- H; reflexivity.
    + apply Rleb_false in H1.
      destruct rest as [|p rest].
      * cbn [last] in Hhi; lra.
      * change (last (a :: p :: rest) a) with (last (p :: rest) a) in Hhi.
        destruct (yield_bracket_found rest t a p ltac:(lra) Hhi) as (y & ->).
        reflexivity.
Qed.

Lemma buildCurves_loop_tilt md b c a rest ts :
  gov_bond_yields md = a :: rest ->
  corp_bond_yields md = tilt_yields b c (a :: rest) ->
  Forall (fun t => yield_tenor_years a <= t
                   <= yield_tenor_years (last (a :: rest) a)) ts ->
  forall lo hi, Forall (fun p => lo <= yield p <= hi) (a :: rest) ->
  exists rf cs,
    buildCurves_loop md ts = Some (rf, cs) /\
    map rate cs = map (fun t => b + t * c) ts /\
    Forall (fun p => lo <= rate p <= hi) rf.
Proof.
  intros Hg Hc Hts lo hi Hrange.
  induction Hts as [|t ts Ht _ (rf & cs & IH & Hcs & Hrf)];
    cbn [buildCurves_loop].
  - exists [], []; repeat split; constructor.
  - rewrite Hg, Hc, getInterpolatedYield_tilt by exact Ht.
    destruct (getInterpolatedYield_range a rest t lo hi Hrange)
      as (y & -> & Hy).
    cbn [option_map]; rewrite IH.
    eexists; eexists; split; [reflexivity|].
    cbn [map rate]; split; [f_equal; [ring | exact Hcs]|].
    constructor; [exact Hy | exact Hrf].
Qed.

Module MarketMockFacts.
Import String.

Lemma prefix_AAA_AA (s : string) : prefix "AAA" s = true -> prefix "AA" s = true.
Proof.
  destruct s as [|a [|b [|c s]]]; cbn [prefix];
    repeat match goal with
           | |- context [Ascii.ascii_dec ?x ?y] => destruct (Ascii.ascii_dec x y)
           end; intros; try discriminate; reflexivity.
Qed.

Lemma includes_AAA_AA (s : string) :
  MarketMock.includes s "AAA" = true -> MarketMock.includes s "AA" = true.
Proof.
  induction s as [|a s IH]; cbn [MarketMock.includes].
  - destruct (prefix "AAA" "") eqn:E; [|discriminate].
    now rewrite (prefix_AAA_AA _ E).
  - destruct (prefix "AAA" (String a s)) eqn:E.
    + now rewrite (prefix_AAA_AA _ E).
    + intros H; rewrite (IH H); now destruct (prefix "AA" (String a s)).
Qed.

Lemma spreadBase_AAA (credit_rating : string) :
  MarketMock.mentions_AAA credit_rating = true ->
  MarketMock.spreadBase credit_rating = 120 / 10000.
Proof.
  unfold MarketMock.mentions_AAA, MarketMock.spreadBase; intros H.
  now rewrite (includes_AAA_AA _ H).
Qed.
End MarketMockFacts.

(** X30.  Whatever the date and the rating, the curves built from the
    mocked market data exist; the spread curve is the rating's base spread
    plus 0.1% per year of tenor at each of the twelve standard tenors; the
    risk-free curve stays between 3.30% and 3.60%.  A rating that contains
    AAA contains AA, so it gets the AA base spread of 1.20%, not the 0.50%
    the code starts from. *)
Theorem X30_mock_market_curves (as_of_date : Z)
    (credit_rating : String.string) :
  exists rf cs,
    buildCurves (MarketMock.fetchMarketData as_of_date credit_rating)
    = Some (rf, cs) /\
    map rate cs
    = map (fun t => MarketMock.spreadBase credit_rating + t * (1 / 1000))
        standard_tenors /\
    Forall (fun p => 330 / 10000 <= rate p <= 360 / 10000) rf /\
    (MarketMock.mentions_AAA credit_rating = true ->
     MarketMock.spreadBase credit_rating = 120 / 10000).
Proof.
  assert (Hg : gov_bond_yields
                 (MarketMock.fetchMarketData as_of_date credit_rating)
               = mkYieldPoint (1 / 4) (330 / 10000) :: tl MarketMock.baseGov)
    by reflexivity.
  assert (Hc : corp_bond_yields
                 (MarketMock.fetchMarketData as_of_date credit_rating)
               = tilt_yields (MarketMock.spreadBase credit_rating) (1 / 1000)
                   (mkYieldPoint (1 / 4) (330 / 10000)
                    :: tl MarketMock.baseGov))
    by reflexivity.
  assert (Hts : Forall
                  (fun t =>
                     yield_tenor_years (mkYieldPoint (1 / 4) (330 / 10000))
                     <= t
                     <= yield_tenor_years
                          (last (mkYieldPoint (1 / 4) (330 / 10000)
                                 :: tl MarketMock.baseGov)
                             (mkYieldPoint (1 / 4) (330 / 10000))))
                  standard_tenors).
  { cbn [tl MarketMock.baseGov last yield_tenor_years].
    unfold standard_tenors.
    repeat (apply Forall_cons; [lra|]). apply Forall_nil. }
  assert (Hr : Forall (fun p => 330 / 10000 <= yield p <= 360 / 10000)
                 (mkYieldPoint (1 / 4) (330 / 10000) :: tl MarketMock.baseGov)).
  { cbn [tl MarketMock.baseGov].
    repeat (apply Forall_cons; [cbn [yield]; lra|]). apply Forall_nil. }
  destruct (buildCurves_loop_tilt _ _ _ _ _ _ Hg Hc Hts _ _ Hr)
    as (rf & cs & Hb & Hcs & Hrf).
  exists rf, cs; split; [exact Hb|]. split; [exact Hcs|].
  split; [exact Hrf | apply MarketMockFacts.spreadBase_AAA].
Qed.
